(** * Verification of the node-graph compiler

    A shallow embedding of the Python sources
    - [project/compiler/validator.py]        (module [Validator]),
    - [project/scripts/emit_and_compile.py]  (module [Driver]),
    - [project/compiler/cpp_emitter.py]      (module [Emitter]),
    followed by the properties proved about them.

    Conventions of the embedding.
    - A Python [str] is a Rocq [string], a list of characters; [len] is
      [String.length].
    - A Python [dict] that is only read by key is a [gmap]; where the
      iteration order of the dict is observable the insertion order of the
      keys is kept next to it (an association list, or the list of keys).
    - [d.get(k)] and optional JSON keys are [option]; Python truthiness
      ([if x:]) is written out ([truthy], [negb (bool_decide (l = []))]).
    - A [raise] is the left injection of a sum; [exn] lists the exceptions. *)

From Stdlib Require Import ZArith String Ascii List Lia DecimalString DecimalNat.
From stdpp Require Import base option list strings gmap relations.

Local Open Scope string_scope.
Local Open Scope Z_scope.
Local Open Scope list_scope.

(** ** Python values and helpers *)

Module Py.

(** A JSON value found under [properties.value]. A float carries the text
    [str] prints for it, as does any other value (list, object). *)
Inductive pyval :=
| VNone
| VBool (b : bool)
| VInt (z : Z)
| VFloat (repr : string)
| VStr (s : string)
| VOther (repr : string).

(** [str(val)] *)
Definition str (v : pyval) : string :=
  match v with
  | VNone => "None"
  | VBool true => "True"
  | VBool false => "False"
  | VInt z => NilZero.string_of_int (Z.to_int z)
  | VFloat r => r
  | VStr s => s
  | VOther r => r
  end.

Definition str_nat (n : nat) : string := NilZero.string_of_uint (Nat.to_uint n).

(** [isinstance(val, bool)], [isinstance(val, int)] ([bool] is a subclass
    of [int]), [isinstance(val, float)], [isinstance(val, str)]. *)
Definition isinstance_bool (v : pyval) : bool :=
  match v with VBool _ => true | _ => false end.
Definition isinstance_int (v : pyval) : bool :=
  match v with VBool _ | VInt _ => true | _ => false end.
Definition isinstance_float (v : pyval) : bool :=
  match v with VFloat _ => true | _ => false end.
Definition isinstance_str (v : pyval) : bool :=
  match v with VStr _ => true | _ => false end.

(** Truthiness of an optional string: [None] and [''] are false. *)
Definition truthy (o : option string) : bool :=
  match o with
  | Some s => negb (bool_decide (s = ""))
  | None => false
  end.

(** [x or d] on optional strings. *)
Definition or_else (o : option string) (d : string) : string :=
  match o with
  | Some s => if bool_decide (s = "") then d else s
  | None => d
  end.

(** [s.lower()] on the ASCII letters. *)
Definition lower_ascii (c : ascii) : ascii :=
  let n := nat_of_ascii c in
  if (Nat.leb 65 n && Nat.leb n 90)%bool then ascii_of_nat (n + 32) else c.

Fixpoint lower (s : string) : string :=
  match s with
  | EmptyString => EmptyString
  | String c r => String (lower_ascii c) (lower r)
  end.

(** [s.replace(c, by)] for a one-character pattern [c]. *)
Fixpoint replace (c : ascii) (by_ : string) (s : string) : string :=
  match s with
  | EmptyString => EmptyString
  | String x r =>
      if Ascii.eqb x c then by_ +:+ replace c by_ r else String x (replace c by_ r)
  end.

(** [' ' * n] and friends. *)
Fixpoint repeat_str (s : string) (n : nat) : string :=
  match n with
  | O => ""
  | S k => s +:+ repeat_str s k
  end.

(** [''.join(l)] *)
Definition join (l : list string) : string := foldr String.append "" l.

(** The exceptions the modelled code can raise. [ValidationError] carries
    the [details] dictionary, one constructor of [details] per raise site. *)
Record mismatch := {
  d_from : string;
  d_to : string;
  d_toPort : option string;
  d_expected : option string;
  d_actual : option string;
  d_suggested_cast : option string
}.

Inductive details :=
| UnknownNode (node : string)
| UnknownInput (node input : string)
| Cycle
| UnknownNodeType (node_id node_type : string)
| UnknownEndpoint (from to : string)
| MissingInputPort (node missing_input_port : string)
    (valid_ports : list (option string))
| MissingOutputPort (node missing_output_port : string)
    (valid_output_ports : list (option string))
| TypeMismatch (d : mismatch).

Inductive exn :=
| ValidationError (d : details)
| KeyError (key : string)
| NameError (name : string)
| OutOfFuel.

Definition result (A : Type) : Type := exn + A.

Definition raise {A} (d : details) : result A := inl (ValidationError d).

Definition bind {A B} (m : result A) (k : A → result B) : result B :=
  match m with
  | inl e => inl e
  | inr a => k a
  end.

End Py.

Import Py.

Notation "'do' x <- m ; k" := (Py.bind m (λ x, k))
  (at level 10, x pattern, m at level 100, k at level 200, only parsing).

(** ** The IR and the node-definitions catalog *)

Record port := {
  p_name : option string;
  p_type : option string
}.

Record libdesc := {
  lib_include : option string;
  lib_name : option string
}.

(** A catalog entry. Each of the three keys may be missing; the entry is a
    falsy (empty) dict when all are. *)
Record tdef := {
  td_inputs : option (list port);
  td_outputs : option (list port);
  td_lib : option libdesc
}.

Definition empty_tdef : tdef :=
  {| td_inputs := None; td_outputs := None; td_lib := None |}.

Definition tdef_truthy (t : tdef) : bool :=
  match td_inputs t, td_outputs t, td_lib t with
  | None, None, None => false
  | _, _, _ => true
  end.

(** [node_defs.get(ty, {})] followed by [.get('inputs', [])] and
    [.get('outputs', [])]. *)
Definition defs_get (node_defs : gmap string tdef) (ty : string) : tdef :=
  default empty_tdef (node_defs !! ty).
Definition tdef_inputs (t : tdef) : list port := default [] (td_inputs t).
Definition tdef_outputs (t : tdef) : list port := default [] (td_outputs t).

(** A node. [n_value], [n_targetType] and [n_name] are the entries [value],
    [targetType] and [name] of [properties]; [n_inputs] and [n_outputs] are
    read with [n.get('inputs', [])], so a missing key is the empty list. *)
Record node := {
  n_id : string;
  n_type : string;
  n_value : pyval;
  n_targetType : option string;
  n_name : option string;
  n_inputs : list string;
  n_outputs : list string
}.

Record edge := {
  e_from : string;
  e_to : string;
  e_fromPort : option string;
  e_toPort : option string
}.

Definition nonempty {A} (l : list A) : bool :=
  match l with [] => false | _ => true end.

(** ** validator.py *)

Module Validator.

(** The keys of [{nid: ... for nid in node_ids}], in insertion order: each
    id once, at the place of its first occurrence. *)
Fixpoint dict_keys (ids : list string) : list string :=
  match ids with
  | [] => []
  | x :: r => x :: filter (λ y, y ≠ x) (dict_keys r)
  end.

Definition init_dict {V} (v : V) (ids : list string) : gmap string V :=
  foldl (λ m nid, <[nid := v]> m) ∅ ids.

(** [build_adj]. The dicts [adj] and [indeg] share the keys
    [dict_keys node_ids]; the loops only index them at keys they have just
    tested with [in adj] (or at [n['id']]), so [adj[k]] never raises. *)
Fixpoint build_adj_edges (edges : list edge)
    (adj : gmap string (list string)) (indeg : gmap string Z)
    : result (gmap string (list string) * gmap string Z) :=
  match edges with
  | [] => inr (adj, indeg)
  | e :: rest =>
      let frm := e_from e in
      let to := e_to e in
      if bool_decide (adj !! frm = None) then raise (UnknownNode frm)
      else if bool_decide (adj !! to = None) then raise (UnknownNode to)
      else build_adj_edges rest
             (<[frm := (adj !!! frm) ++ [to]]> adj)
             (<[to := indeg !!! to + 1]> indeg)
  end.

Fixpoint build_adj_inputs_of (nid : string) (inps : list string)
    (adj : gmap string (list string)) (indeg : gmap string Z)
    : result (gmap string (list string) * gmap string Z) :=
  match inps with
  | [] => inr (adj, indeg)
  | inp :: rest =>
      if bool_decide (adj !! inp = None) then raise (UnknownInput nid inp)
      else build_adj_inputs_of nid rest
             (<[inp := (adj !!! inp) ++ [nid]]> adj)
             (<[nid := indeg !!! nid + 1]> indeg)
  end.

Fixpoint build_adj_inputs (nodes : list node)
    (adj : gmap string (list string)) (indeg : gmap string Z)
    : result (gmap string (list string) * gmap string Z) :=
  match nodes with
  | [] => inr (adj, indeg)
  | n :: rest =>
      do (adj', indeg') <- build_adj_inputs_of (n_id n) (n_inputs n) adj indeg;
      build_adj_inputs rest adj' indeg'
  end.

Definition build_adj (nodes : list node) (edges : list edge)
    : result (gmap string (list string) * gmap string Z) :=
  let node_ids := map n_id nodes in
  let adj := init_dict [] node_ids in
  let indeg := init_dict 0 node_ids in
  if nonempty edges then build_adj_edges edges adj indeg
  else build_adj_inputs nodes adj indeg.

(** The body of [for m in adj[n]]: decrement, and enqueue at zero. *)
Fixpoint relax (ms : list string) (indeg : gmap string Z) (q : list string)
    : gmap string Z * list string :=
  match ms with
  | [] => (indeg, q)
  | m :: rest =>
      let indeg' := <[m := indeg !!! m - 1]> indeg in
      relax rest indeg'
        (if bool_decide (indeg' !!! m = 0) then q ++ [m] else q)
  end.

(** [while q: ...], unfolded at most [fuel] times. *)
Fixpoint kahn (fuel : nat) (adj : gmap string (list string))
    (indeg : gmap string Z) (q order_ids : list string)
    : option (list string) :=
  match fuel with
  | O => None
  | S fuel' =>
      match q with
      | [] => Some order_ids
      | n :: q' =>
          let '(indeg', q'') := relax (adj !!! n) indeg q' in
          kahn fuel' adj indeg' q'' (order_ids ++ [n])
      end
  end.

(** [{n['id']: n for n in nodes}]: a later node replaces an earlier one
    with the same id. *)
Definition id_to_node_of (nodes : list node) : gmap string node :=
  foldl (λ m n, <[n_id n := n]> m) ∅ nodes.

(** [[id_to_node[i] for i in order_ids]] *)
Fixpoint nodes_of_ids (id_to_node : gmap string node) (order_ids : list string)
    : result (list node) :=
  match order_ids with
  | [] => inr []
  | i :: rest =>
      match id_to_node !! i with
      | None => inl (KeyError i)
      | Some n => do ordered <- nodes_of_ids id_to_node rest; inr (n :: ordered)
      end
  end.

(** [topological_sort]. [indeg.items()] runs over the keys in insertion
    order. Every pass of the loop dequeues a key, and a key is enqueued at
    most once, so [length nodes] passes and a last test of [q] are all the
    loop can make. *)
Definition topological_sort (nodes : list node) (edges : list edge)
    : result (list node) :=
  do (adj, indeg) <- build_adj nodes edges;
  let q := filter (λ nid, indeg !!! nid = 0) (dict_keys (map n_id nodes)) in
  match kahn (S (length nodes)) adj indeg q [] with
  | None => inl OutOfFuel
  | Some order_ids =>
      if bool_decide (length order_ids ≠ length nodes) then raise Cycle
      else nodes_of_ids (id_to_node_of nodes) order_ids
  end.

Definition _infer_literal_type (val : pyval) : string :=
  if isinstance_bool val then "bool"
  else if (isinstance_int val && negb (isinstance_bool val))%bool then "int"
  else if isinstance_float val then "double"
  else if isinstance_str val then "string"
  else "any".

Definition _canonical_type (t : option string) : string :=
  if negb (truthy t) then "any"
  else
    let t := lower (default "" t) in
    if bool_decide (t = "number" ∨ t = "double" ∨ t = "float") then "double"
    else if bool_decide (t = "int") then "int"
    else if bool_decide (t = "string") then "string"
    else if bool_decide (t = "bool") then "bool"
    else if bool_decide (t = "any" ∨ t = "auto") then "any"
    else t.

Definition _is_compatible (expected actual : option string) : bool :=
  let e := _canonical_type expected in
  let a := _canonical_type actual in
  if bool_decide (e = "any" ∨ a = "any") then true
  else if bool_decide (e = a) then true
  else if bool_decide (e = "double" ∧ a = "int") then true
  else false.

(** A connection [(frm, to, toPort, fromPort)]. *)
Record conn := {
  c_from : string;
  c_to : string;
  c_toPort : option string;
  c_fromPort : option string
}.

(** First loop of [validate_types]: every node type must have a (truthy)
    catalog entry; a [Literal] gets its inferred type. *)
Fixpoint literal_types (node_defs : gmap string tdef) (nodes : list node)
    (id_to_out_type : gmap string (option string))
    : result (gmap string (option string)) :=
  match nodes with
  | [] => inr id_to_out_type
  | n :: rest =>
      if negb (from_option tdef_truthy false (node_defs !! n_type n))
      then raise (UnknownNodeType (n_id n) (n_type n))
      else literal_types node_defs rest
             (if bool_decide (n_type n = "Literal")
              then <[n_id n := Some (_infer_literal_type (n_value n))]> id_to_out_type
              else id_to_out_type)
  end.

(** Second loop: the first declared output of every other node. *)
Definition declared_types (node_defs : gmap string tdef) (nodes : list node)
    (id_to_out_type : gmap string (option string))
    : gmap string (option string) :=
  foldl (λ tbl n,
           if bool_decide (is_Some (tbl !! n_id n)) then tbl
           else match tdef_outputs (defs_get node_defs (n_type n)) with
                | [] => tbl
                | o :: _ => <[n_id n := p_type o]> tbl
                end)
        id_to_out_type nodes.

Definition conns_of (nodes : list node) (edges : list edge) : list conn :=
  if nonempty edges then
    map (λ e, {| c_from := e_from e; c_to := e_to e;
                 c_toPort := e_toPort e; c_fromPort := e_fromPort e |}) edges
  else
    flat_map (λ n, map (λ inp, {| c_from := inp; c_to := n_id n;
                                  c_toPort := None; c_fromPort := None |})
                       (n_inputs n)) nodes.

Fixpoint check_endpoints (id_to_node : gmap string node) (conns : list conn)
    : result unit :=
  match conns with
  | [] => inr tt
  | c :: rest =>
      if bool_decide (id_to_node !! c_from c = None ∨ id_to_node !! c_to c = None)
      then raise (UnknownEndpoint (c_from c) (c_to c))
      else check_endpoints id_to_node rest
  end.

(** [incoming_by_dest.setdefault(to, []).append(c)] on a dict whose
    iteration order is observed. *)
Fixpoint setdefault_append (to : string) (c : conn)
    (d : list (string * list conn)) : list (string * list conn) :=
  match d with
  | [] => [(to, [c])]
  | (k, cs) :: rest =>
      if bool_decide (k = to) then (k, cs ++ [c]) :: rest
      else (k, cs) :: setdefault_append to c rest
  end.

Definition incoming_by_dest (conns : list conn) : list (string * list conn) :=
  foldl (λ d c, setdefault_append (c_to c) c d) [] conns.

(** The expected type of a connection entering [dest] as the [idx]-th of
    its incoming connections. *)
Definition expected_type (dest : string) (dest_inputs : list port)
    (idx : nat) (toPort : option string) : result (option string) :=
  if truthy toPort then
    match find (λ p, bool_decide (p_name p = toPort)) dest_inputs with
    | None => raise (MissingInputPort dest (default "" toPort)
                       (map p_name dest_inputs))
    | Some found => inr (p_type found)
    end
  else
    match dest_inputs !! idx with
    | Some p => inr (p_type p)
    | None => inr (Some "any")
    end.

(** The actual type delivered by the source [frm]. *)
Definition actual_type (frm : string) (src_outputs : list port)
    (id_to_out_type : gmap string (option string))
    (fromPort : option string) : result (option string) :=
  if truthy fromPort then
    match find (λ p, bool_decide (p_name p = fromPort)) src_outputs with
    | None => raise (MissingOutputPort frm (default "" fromPort)
                       (map p_name src_outputs))
    | Some found_out => inr (p_type found_out)
    end
  else
    let actual := mjoin (id_to_out_type !! frm) in
    if negb (truthy actual) then
      match src_outputs with
      | o :: _ => inr (p_type o)
      | [] => inr (Some "any")
      end
    else inr actual.

(** The body of [for idx, (frm, to, toPort, fromPort) in enumerate(incoming)]. *)
Definition check_connection (node_defs : gmap string tdef)
    (id_to_node : gmap string node)
    (id_to_out_type : gmap string (option string))
    (dest : string) (dest_inputs : list port) (idx : nat) (c : conn)
    : result unit :=
  do expected <- expected_type dest dest_inputs idx (c_toPort c);
  match id_to_node !! c_from c with
  | None => inl (KeyError (c_from c))
  | Some src_node =>
      let src_outputs := tdef_outputs (defs_get node_defs (n_type src_node)) in
      do actual <- actual_type (c_from c) src_outputs id_to_out_type (c_fromPort c);
      if negb (_is_compatible expected actual) then
        raise (TypeMismatch {| d_from := c_from c; d_to := c_to c;
                               d_toPort := c_toPort c;
                               d_expected := expected; d_actual := actual;
                               d_suggested_cast := expected |})
      else inr tt
  end.

Fixpoint check_incoming (node_defs : gmap string tdef)
    (id_to_node : gmap string node)
    (id_to_out_type : gmap string (option string))
    (dest : string) (dest_inputs : list port) (idx : nat)
    (incoming : list conn) : result unit :=
  match incoming with
  | [] => inr tt
  | c :: rest =>
      do _ <- check_connection node_defs id_to_node id_to_out_type
                dest dest_inputs idx c;
      check_incoming node_defs id_to_node id_to_out_type
        dest dest_inputs (S idx) rest
  end.

Fixpoint check_dests (node_defs : gmap string tdef)
    (id_to_node : gmap string node)
    (id_to_out_type : gmap string (option string))
    (groups : list (string * list conn)) : result unit :=
  match groups with
  | [] => inr tt
  | (dest, incoming) :: rest =>
      match id_to_node !! dest with
      | None => inl (KeyError dest)
      | Some dest_node =>
          let dest_inputs := tdef_inputs (defs_get node_defs (n_type dest_node)) in
          do _ <- check_incoming node_defs id_to_node id_to_out_type
                    dest dest_inputs 0 incoming;
          check_dests node_defs id_to_node id_to_out_type rest
      end
  end.

Definition validate_types (nodes : list node) (node_defs : gmap string tdef)
    (edges : list edge) : result bool :=
  let id_to_node := id_to_node_of nodes in
  do lits <- literal_types node_defs nodes ∅;
  let id_to_out_type := declared_types node_defs nodes lits in
  let conns := conns_of nodes edges in
  do _ <- check_endpoints id_to_node conns;
  do _ <- check_dests node_defs id_to_node id_to_out_type (incoming_by_dest conns);
  inr true.

End Validator.

(** ** Source-map entries *)

(** [{node_id, function, start_line, end_line, start_col, end_col, port}].
    Lines are always present; columns are [None] on a coarse entry. *)
Record map_entry := {
  m_node_id : string;
  m_function : option string;
  m_start_line : Z;
  m_end_line : Z;
  m_start_col : option Z;
  m_end_col : option Z;
  m_port : option string
}.

(** ** emit_and_compile.py *)

Module Driver.

(** A parsed compiler diagnostic. *)
Record diagnostic := {
  err_file : string;
  err_line : Z;
  err_col : option Z;
  err_kind : string;
  err_msg : string
}.

Record mapped := {
  mp_error : diagnostic;
  mp_node_id : option string;
  mp_function : option string;
  mp_port : option string
}.

(** Truthiness of an int, and of an optional int. *)
Definition truthy_int (z : Z) : bool := negb (z =? 0).
Definition truthy_oint (o : option Z) : bool := from_option truthy_int false o.

(** [list.sort(key=...)] is stable: insertion sort that never moves an
    element in front of an earlier one with an equal key. *)
Fixpoint insert_by {A} (leb : A → A → bool) (x : A) (l : list A) : list A :=
  match l with
  | [] => [x]
  | y :: r => if leb x y then x :: y :: r else y :: insert_by leb x r
  end.

Definition sort_by {A} (leb : A → A → bool) (l : list A) : list A :=
  foldr (insert_by leb) [] l.

(** The test guarding [colMatches.append(m)]. *)
Definition col_match (line col : Z) (m : map_entry) : bool :=
  let sline := m_start_line m in
  let eline := m_end_line m in
  truthy_int sline && truthy_int eline && (sline <=? line) && (line <=? eline)
  && match m_start_col m, m_end_col m with
     | Some scol, Some ecol =>
         truthy_int scol && truthy_int ecol && (scol <=? col) && (col <=? ecol)
     | _, _ => false
     end.

(** The test of the [lineMatches] comprehension. *)
Definition line_match (line : Z) (m : map_entry) : bool :=
  truthy_int (m_start_line m) && truthy_int (m_end_line m)
  && (m_start_line m <=? line) && (line <=? m_end_line m).

(** The sort keys, and the order Python gives to the tuples. *)
Definition col_key (x : map_entry) : Z * Z :=
  (m_end_line x - m_start_line x,
   default 0 (m_end_col x) - default 0 (m_start_col x)).

Definition line_key (x : map_entry) : Z := m_end_line x - m_start_line x.

Definition pair_leb (a b : Z * Z) : bool :=
  (a.1 <? b.1) || ((a.1 =? b.1) && (a.2 <=? b.2)).

Definition to_mapped (err : diagnostic) (node : map_entry) : mapped :=
  {| mp_error := err; mp_node_id := Some (m_node_id node);
     mp_function := m_function node; mp_port := m_port node |}.

(** The body of [for err in errors]. A sorted list is empty exactly when
    the list sorted is, so the tests [if colMatches:] and [if lineMatches:]
    are the matches on the sorted lists. *)
Definition map_error_to_node (mapping : list map_entry) (err : diagnostic)
    : mapped :=
  let line := err_line err in
  let colMatches :=
    match err_col err with
    | Some col => filter (λ m, col_match line col m) mapping
    | None => []
    end in
  match sort_by (λ x y, pair_leb (col_key x) (col_key y)) colMatches with
  | node :: _ => to_mapped err node
  | [] =>
      let lineMatches := filter (λ m, line_match line m) mapping in
      match sort_by (λ x y, line_key x <=? line_key y) lineMatches with
      | node :: _ => to_mapped err node
      | [] => {| mp_error := err; mp_node_id := None;
                 mp_function := None; mp_port := None |}
      end
  end.

Definition map_errors_to_nodes (errors : list diagnostic)
    (mapping : list map_entry) : list mapped :=
  map (map_error_to_node mapping) errors.

(** The keys of the IR document that [normalize_ir] reads or writes, and
    [imports]; it leaves every other key ([functions]) as it is. *)
Record ir := {
  ir_imports : list string;
  ir_nodes : list node;
  ir_edges : list edge
}.

(** [if x not in l: l.append(x)] *)
Definition append_new (x : string) (l : list string) : list string :=
  if bool_decide (x ∈ l) then l else l ++ [x].

(** [d.setdefault(k, []); if x not in d[k]: d[k].append(x)] *)
Definition add_to (k x : string) (d : gmap string (list string))
    : gmap string (list string) :=
  <[k := append_new x (default [] (d !! k))]> d.

(** [{nid: [] for nid in node_ids}] *)
Definition empty_lists (node_ids : gset string) : gmap string (list string) :=
  gset_to_gmap [] node_ids.

(** The loop over [edges] of the first branch. *)
Definition maps_of_edges (node_ids : gset string) (edges : list edge)
    : gmap string (list string) * gmap string (list string) :=
  foldl (λ '(inputs_map, outputs_map) e,
           let frm := e_from e in
           let to := e_to e in
           if bool_decide (frm ∉ node_ids ∨ to ∉ node_ids)
           then (inputs_map, outputs_map)
           else (add_to to frm inputs_map, add_to frm to outputs_map))
        (empty_lists node_ids, empty_lists node_ids) edges.

(** The edges read off the [inputs] lists in the second branch. *)
Definition edges_of_inputs (node_ids : gset string) (nodes : list node)
    : list edge :=
  flat_map (λ n,
              map (λ inp, {| e_from := inp; e_to := n_id n;
                             e_fromPort := None; e_toPort := None |})
                  (filter (λ inp, inp ∈ node_ids) (n_inputs n)))
           nodes.

(** The [seen]/[uniq] loop. *)
Fixpoint dedup_edges (seen : gset (string * string)) (edges : list edge)
    : list edge :=
  match edges with
  | [] => []
  | e :: r =>
      let key := (e_from e, e_to e) in
      if bool_decide (key ∈ seen) then dedup_edges seen r
      else e :: dedup_edges ({[ key ]} ∪ seen) r
  end.

Definition outputs_of_edges (node_ids : gset string) (uniq : list edge)
    : gmap string (list string) :=
  foldl (λ outputs_map e, add_to (e_from e) (e_to e) outputs_map)
        (empty_lists node_ids) uniq.

Definition set_inputs_outputs (ins outs : list string) (n : node) : node :=
  {| n_id := n_id n; n_type := n_type n; n_value := n_value n;
     n_targetType := n_targetType n; n_name := n_name n;
     n_inputs := ins; n_outputs := outs |}.

(** [normalize_ir]. The function updates [ir] in place and returns it; the
    embedding returns the updated document. *)
Definition normalize_ir (i : ir) : ir :=
  let nodes := ir_nodes i in
  let node_ids : gset string := list_to_set (map n_id nodes) in
  let edges := ir_edges i in
  if nonempty edges then
    let '(inputs_map, outputs_map) := maps_of_edges node_ids edges in
    {| ir_imports := ir_imports i;
       ir_nodes :=
         map (λ n, set_inputs_outputs
                     (default [] (inputs_map !! n_id n))
                     (default [] (outputs_map !! n_id n)) n) nodes;
       ir_edges := edges |}
  else
    let uniq := dedup_edges ∅ (edges_of_inputs node_ids nodes) in
    let outputs_map := outputs_of_edges node_ids uniq in
    {| ir_imports := ir_imports i;
       ir_nodes :=
         map (λ n, set_inputs_outputs (n_inputs n)
                     (default [] (outputs_map !! n_id n)) n) nodes;
       ir_edges := uniq |}.

End Driver.

(** ** cpp_emitter.py *)

Module Emitter.

(** The fields of a [CppEmitter] that the modelled methods use. *)
Record emitter := {
  node_defs : gmap string tdef;
  includes : gset string;
  code_lines : list string;
  indent_level : nat;
  var_names : gmap string string;
  _used_names : gmap string nat;
  mapping : list map_entry;
  incoming_by_node : gmap string (gmap string string);
  incoming_list_by_node : gmap string (list string)
}.

Definition set_includes (v : gset string) (self : emitter) : emitter :=
  {| node_defs := node_defs self; includes := v;
     code_lines := code_lines self; indent_level := indent_level self;
     var_names := var_names self; _used_names := _used_names self;
     mapping := mapping self; incoming_by_node := incoming_by_node self;
     incoming_list_by_node := incoming_list_by_node self |}.

Definition set_code_lines (v : list string) (self : emitter) : emitter :=
  {| node_defs := node_defs self; includes := includes self;
     code_lines := v; indent_level := indent_level self;
     var_names := var_names self; _used_names := _used_names self;
     mapping := mapping self; incoming_by_node := incoming_by_node self;
     incoming_list_by_node := incoming_list_by_node self |}.

Definition set_var_names (v : gmap string string) (self : emitter) : emitter :=
  {| node_defs := node_defs self; includes := includes self;
     code_lines := code_lines self; indent_level := indent_level self;
     var_names := v; _used_names := _used_names self;
     mapping := mapping self; incoming_by_node := incoming_by_node self;
     incoming_list_by_node := incoming_list_by_node self |}.

Definition set_used_names (v : gmap string nat) (self : emitter) : emitter :=
  {| node_defs := node_defs self; includes := includes self;
     code_lines := code_lines self; indent_level := indent_level self;
     var_names := var_names self; _used_names := v;
     mapping := mapping self; incoming_by_node := incoming_by_node self;
     incoming_list_by_node := incoming_list_by_node self |}.

Definition set_mapping (v : list map_entry) (self : emitter) : emitter :=
  {| node_defs := node_defs self; includes := includes self;
     code_lines := code_lines self; indent_level := indent_level self;
     var_names := var_names self; _used_names := _used_names self;
     mapping := v; incoming_by_node := incoming_by_node self;
     incoming_list_by_node := incoming_list_by_node self |}.

(** The loop over [edges] in [__init__]. *)
Definition init_incoming (edges : list edge)
    : gmap string (gmap string string) * gmap string (list string) :=
  foldl (λ '(by_node, list_by_node) e,
           let frm := e_from e in
           let to := e_to e in
           let by_node :=
             if bool_decide (by_node !! to = None) then <[to := ∅]> by_node
             else by_node in
           if truthy (e_toPort e) then
             (<[to := <[default "" (e_toPort e) := frm]> (by_node !!! to)]> by_node,
              list_by_node)
           else
             (by_node,
              <[to := default [] (list_by_node !! to) ++ [frm]]> list_by_node))
        (∅, ∅) edges.

(** [CppEmitter(ir, node_defs)] *)
Definition __init__ (imports : list string) (edges : list edge)
    (defs : gmap string tdef) : emitter :=
  let '(by_node, list_by_node) := init_incoming edges in
  {| node_defs := defs; includes := list_to_set imports;
     code_lines := []; indent_level := 0;
     var_names := ∅; _used_names := ∅; mapping := [];
     incoming_by_node := by_node; incoming_list_by_node := list_by_node |}.

Definition indent (self : emitter) : string :=
  repeat_str "    " (indent_level self).

(** The character class [[0-9a-zA-Z_]] and the class [[0-9]]. *)
Definition is_digit (c : ascii) : bool :=
  let n := nat_of_ascii c in (Nat.leb 48 n && Nat.leb n 57)%bool.

Definition is_word (c : ascii) : bool :=
  let n := nat_of_ascii c in
  (is_digit c || (Nat.leb 97 n && Nat.leb n 122)
   || (Nat.leb 65 n && Nat.leb n 90) || Nat.eqb n 95)%bool.

(** [re.sub(r'[^0-9a-zA-Z_]', '_', node_id)] *)
Fixpoint sub_nonword (s : string) : string :=
  match s with
  | EmptyString => EmptyString
  | String c r => String (if is_word c then c else "_"%char) (sub_nonword r)
  end.

Definition sanitize (node_id : string) : string :=
  let s := sub_nonword node_id in
  match s with
  | String c _ => if is_digit c then "_" +:+ s else s
  | EmptyString => s
  end.

(** The allocator shared by [make_var] and [local_make_var]: look the base
    up in the counter table, count it, and name the variable. *)
Definition alloc (base : string) (used : gmap string nat)
    : string * gmap string nat :=
  let count := default 0%nat (used !! base) in
  if bool_decide (count = 0%nat) then (base, <[base := 1%nat]> used)
  else (base +:+ "_" +:+ str_nat count, <[base := (count + 1)%nat]> used).

Definition make_var (self : emitter) (node_id : string) : string * emitter :=
  let base := "v_" +:+ sanitize node_id in
  let '(var, used) := alloc base (_used_names self) in
  (var, set_used_names used self).

Definition ensure_lib_includes (self : emitter) (node_type : string) : emitter :=
  match td_lib (defs_get (node_defs self) node_type) with
  | Some lib =>
      if truthy (lib_include lib)
      then set_includes ({[ default "" (lib_include lib) ]} ∪ includes self) self
      else self
  | None => self
  end.

(** The double quote, and the four replacements of [escape_string] in
    their order: backslash, double quote, newline, tab. *)
Definition dquote : ascii := ascii_of_nat 34.

Definition escape_string (s : string) : string :=
  replace (ascii_of_nat 9) "\t"
    (replace (ascii_of_nat 10) "\n"
       (replace dquote (String "\"%char (String dquote ""))
          (replace "\"%char "\\" s))).

Definition record_map (self : emitter) (node_id : string)
    (start_line end_line : Z) (function : option string) : emitter :=
  set_mapping (mapping self ++
                 [{| m_node_id := node_id; m_function := function;
                     m_start_line := start_line; m_end_line := end_line;
                     m_start_col := None; m_end_col := None;
                     m_port := None |}]) self.

Record marker := {
  mk_node_id : string;
  mk_port : option string
}.

Record fragment := {
  f_text : string;
  f_marker : option marker
}.

Definition plain (text : string) : fragment :=
  {| f_text := text; f_marker := None |}.
Definition marked (text node_id : string) (port : option string) : fragment :=
  {| f_text := text;
     f_marker := Some {| mk_node_id := node_id; mk_port := port |} |}.

(** The loop [for frag in fragments] of [emit_line_with_fragments],
    started at column offset [offset]. *)
Fixpoint fragment_entries (function : option string) (line_no : nat)
    (offset : nat) (fragments : list fragment) : list map_entry :=
  match fragments with
  | [] => []
  | frag :: rest =>
      let text := f_text frag in
      let later :=
        fragment_entries function line_no (offset + String.length text) rest in
      match f_marker frag with
      | Some mk =>
          {| m_node_id := mk_node_id mk; m_function := function;
             m_start_line := Z.of_nat line_no; m_end_line := Z.of_nat line_no;
             m_start_col := Some (Z.of_nat offset + 1);
             m_end_col := Some (Z.of_nat offset + Z.of_nat (String.length text));
             m_port := mk_port mk |} :: later
      | None => later
      end
  end.

Definition emit_line_with_fragments (self : emitter)
    (fragments : list fragment) (function : option string) : nat * emitter :=
  let line_text := join (map f_text fragments) in
  let self := set_code_lines (code_lines self ++ [line_text]) self in
  let line_no := length (code_lines self) in
  (line_no,
   set_mapping (mapping self ++ fragment_entries function line_no 0 fragments)
               self).

(** [_resolve_input_for_node]. A missing or empty local map answers
    [nid in local_incoming_map] with false, so [None] is the empty map. *)
Definition _resolve_input_for_node (self : emitter) (n : node)
    (port_name : option string) (index : option nat)
    (local_incoming_map : gmap string (gmap string string))
    (local_incoming_list : gmap string (list string)) : option string :=
  let nid := n_id n in
  let named (m : gmap string (gmap string string)) : option string :=
    if truthy port_name then
      ports ← m !! nid; ports !! default "" port_name
    else None in
  let positional (m : gmap string (list string)) : option string :=
    idx ← index; l ← m !! nid; l !! idx in
  match named local_incoming_map with
  | Some src => Some src
  | None =>
  match named (incoming_by_node self) with
  | Some src => Some src
  | None =>
  match positional local_incoming_list with
  | Some src => Some src
  | None =>
  match positional (incoming_list_by_node self) with
  | Some src => Some src
  | None =>
      if bool_decide (port_name = None) then idx ← index; n_inputs n !! idx
      else None
  end end end end.

(** [names.get(src, src if src else '0')] for an optional source id. *)
Definition operand_expr (names : gmap string string) (src : option string)
    : string :=
  match src with
  | Some s => default (if bool_decide (s = "") then "0" else s) (names !! s)
  | None => "0"
  end.

(** The operator table of the arithmetic branch; [None] for the types
    that do not take it. *)
Definition arith_op (ntype : string) : option string :=
  if bool_decide (ntype = "Add") then Some "+"
  else if bool_decide (ntype = "Sub") then Some "-"
  else if bool_decide (ntype = "Mul") then Some "*"
  else if bool_decide (ntype = "Div") then Some "/"
  else None.

(** The two operand sources of an arithmetic node: by the names of the
    first two declared ports when the catalog has them, then by position. *)
Definition arith_sources (self : emitter) (n : node)
    (local_incoming_map : gmap string (gmap string string))
    (local_incoming_list : gmap string (list string))
    : (option string * option string) * (option string * option string) :=
  let input_ports := tdef_inputs (defs_get (node_defs self) (n_type n)) in
  let resolve port_name index :=
    _resolve_input_for_node self n port_name (Some index)
      local_incoming_map local_incoming_list in
  let '(a_src, b_src, a_port, b_port) :=
    match input_ports with
    | pa :: pb :: _ =>
        (resolve (p_name pa) 0%nat, resolve (p_name pb) 1%nat,
         p_name pa, p_name pb)
    | _ => (None, None, None, None)
    end in
  let a_src := if bool_decide (a_src = None) then resolve None 0%nat else a_src in
  let b_src := if bool_decide (b_src = None) then resolve None 1%nat else b_src in
  ((a_src, b_src), (a_port, b_port)).

(** The fragments of [double var = a op b;]. *)
Definition arith_fragments (ind var nid a op b : string)
    (a_port b_port : option string) : list fragment :=
  [ plain (ind +:+ "double " +:+ var +:+ " = ");
    marked a nid (Some (or_else a_port "a"));
    plain (" " +:+ op +:+ " ");
    marked b nid (Some (or_else b_port "b"));
    plain ";" ].

(** The type and the text of a literal (lines 480-489 of [emit_from_graph],
    the same text as lines 322-331 of [emit_function_def]); the flag tells
    whether [<string>] joins the includes. *)
Definition literal_ctype_lit (val : pyval) : string * string * bool :=
  if isinstance_str val then
    ("std::string",
     String dquote (escape_string (str val)) +:+ String dquote "", true)
  else if (isinstance_int val || isinstance_float val)%bool then
    ("double", str val, false)
  else ("auto", str val, false).

Definition literal_fragments (ind ctype var nid lit : string) : list fragment :=
  [ plain (ind +:+ ctype +:+ " " +:+ var +:+ " = ");
    marked lit nid (Some "out");
    plain ";" ].

(** *** [emit_from_graph]: one pass of [for n in ordered] *)

(** The pass for an [Add], [Sub], [Mul] or [Div] node, [op] being its
    operator. *)
Definition emit_from_graph_arith (self : emitter) (n : node) (op : string)
    : emitter :=
  let nid := n_id n in
  let self := ensure_lib_includes self (n_type n) in
  let start := Z.of_nat (length (code_lines self)) + 1 in
  let '((a_src, b_src), (a_port, b_port)) := arith_sources self n ∅ ∅ in
  let a := operand_expr (var_names self) a_src in
  let b := operand_expr (var_names self) b_src in
  let '(var, self) := make_var self nid in
  let self := set_var_names (<[nid := var]> (var_names self)) self in
  let fragments := arith_fragments (indent self) var nid a op b a_port b_port in
  let '(_, self) := emit_line_with_fragments self fragments None in
  let end_ := Z.of_nat (length (code_lines self)) in
  record_map self nid start end_ None.

(** The pass for a [Literal] node, up to the fragments it builds (lines
    476-492). *)
Definition emit_from_graph_Literal_fragments (self : emitter) (n : node)
    : list fragment * emitter :=
  let nid := n_id n in
  let self := ensure_lib_includes self (n_type n) in
  let '(ctype, lit, needs_string) := literal_ctype_lit (n_value n) in
  let self := if needs_string
              then set_includes ({[ "<string>" ]} ∪ includes self) self
              else self in
  let '(var, self) := make_var self nid in
  let self := set_var_names (<[nid := var]> (var_names self)) self in
  (literal_fragments (indent self) ctype var nid lit, self).

(** The whole pass. The call of [emit_line_with_fragments] on line 493
    passes [function=name], and [emit_from_graph] binds no [name]:
    evaluating the argument raises [NameError] before a line is emitted. *)
Definition emit_from_graph_Literal (self : emitter) (n : node)
    : result emitter :=
  let '(fragments, self) := emit_from_graph_Literal_fragments self n in
  inl (NameError "name").

(** *** [emit_function_def]: one pass of [for n in ordered] *)

(** The locals of [emit_function_def] that the passes use. *)
Record scope := {
  name : option string;
  local_var_names : gmap string string;
  local_used_names : gmap string nat;
  local_incoming_map : gmap string (gmap string string);
  local_incoming_list : gmap string (list string)
}.

Definition set_local_names (v : gmap string string) (u : gmap string nat)
    (sc : scope) : scope :=
  {| name := name sc; local_var_names := v; local_used_names := u;
     local_incoming_map := local_incoming_map sc;
     local_incoming_list := local_incoming_list sc |}.

(** The loop over the function graph's [edges]. *)
Definition init_local_incoming (edges : list edge)
    : gmap string (gmap string string) * gmap string (list string) :=
  foldl (λ '(m, l) e,
           let frm := e_from e in
           let to := e_to e in
           if truthy (e_toPort e) then
             (<[to := <[default "" (e_toPort e) := frm]> (default ∅ (m !! to))]> m, l)
           else (m, <[to := default [] (l !! to) ++ [frm]]> l))
        (∅, ∅) edges.

Definition local_make_var (sc : scope) (node_id : string) : string * scope :=
  let base := "v_" +:+ sub_nonword node_id in
  let '(var, used) := alloc base (local_used_names sc) in
  (var, set_local_names (local_var_names sc) used sc).

Definition emit_function_def_arith (self : emitter) (sc : scope) (n : node)
    (op : string) : emitter * scope :=
  let nid := n_id n in
  let start := Z.of_nat (length (code_lines self)) + 1 in
  let '((a_src, b_src), (a_port, b_port)) :=
    arith_sources self n (local_incoming_map sc) (local_incoming_list sc) in
  let a := operand_expr (local_var_names sc) a_src in
  let b := operand_expr (local_var_names sc) b_src in
  let '(var, sc) := local_make_var sc nid in
  let sc := set_local_names (<[nid := var]> (local_var_names sc))
                            (local_used_names sc) sc in
  let fragments := arith_fragments (indent self) var nid a op b a_port b_port in
  let '(_, self) := emit_line_with_fragments self fragments (name sc) in
  let end_ := Z.of_nat (length (code_lines self)) in
  (record_map self nid start end_ (name sc), sc).

Definition emit_function_def_Literal (self : emitter) (sc : scope) (n : node)
    : emitter * scope :=
  let nid := n_id n in
  let start := Z.of_nat (length (code_lines self)) + 1 in
  let '(ctype, lit, needs_string) := literal_ctype_lit (n_value n) in
  let self := if needs_string
              then set_includes ({[ "<string>" ]} ∪ includes self) self
              else self in
  let '(var, sc) := local_make_var sc nid in
  let sc := set_local_names (<[nid := var]> (local_var_names sc))
                            (local_used_names sc) sc in
  let fragments := literal_fragments (indent self) ctype var nid lit in
  let '(_, self) := emit_line_with_fragments self fragments (name sc) in
  let end_ := Z.of_nat (length (code_lines self)) in
  (record_map self nid start end_ (name sc), sc).

(** *** Types, includes and the source map *)

(** [TYPE_MAP.get(t, t)] *)
Definition cpp_type (t : string) : string :=
  if bool_decide (t = "number") then "double"
  else if bool_decide (t = "double") then "double"
  else if bool_decide (t = "int") then "int"
  else if bool_decide (t = "string") then "std::string"
  else if bool_decide (t = "bool") then "bool"
  else if bool_decide (t = "any") then "auto"
  else t.

(** [str(x)] for an optional string, as an f-string prints it. *)
Definition str_opt (o : option string) : string := default "None" o.

(** [cpp_type] of a type that may be missing: [TYPE_MAP.get(None, None)] is
    [None]. *)
Definition cpp_type_opt (t : option string) : option string := cpp_type <$> t.

Definition set_indent_level (v : nat) (self : emitter) : emitter :=
  {| node_defs := node_defs self; includes := includes self;
     code_lines := code_lines self; indent_level := v;
     var_names := var_names self; _used_names := _used_names self;
     mapping := mapping self; incoming_by_node := incoming_by_node self;
     incoming_list_by_node := incoming_list_by_node self |}.

(** [self.code_lines.append(line)] *)
Definition append_line (self : emitter) (line : string) : emitter :=
  set_code_lines (code_lines self ++ [line]) self.

(** [sorted(self.includes)]: the elements of the set in the order of
    their code points. *)
Definition sorted (s : gset string) : list string :=
  Driver.sort_by String.leb (elements s).

Definition emit_include (self : emitter) : emitter :=
  append_line
    (foldl (λ self inc, append_line self ("#include " +:+ inc)) self
       (sorted (includes self)))
    "".

(** [separator.join(l)] *)
Fixpoint join_with (sep : string) (l : list string) : string :=
  match l with
  | [] => ""
  | [x] => x
  | x :: r => x +:+ sep +:+ join_with sep r
  end.

(** [text.find(expr)]: the index of the first occurrence, [None] for -1. *)
Definition find_str (text expr : string) : option nat := index 0 expr text.

(** [sub in text] *)
Definition contains (sub text : string) : bool :=
  bool_decide (is_Some (find_str text sub)).

(** [s.lstrip(' ')] *)
Fixpoint lstrip_spaces (s : string) : string :=
  match s with
  | String c r => if Ascii.eqb c " " then lstrip_spaces r else s
  | EmptyString => EmptyString
  end.

(** An entry of [_port_mappings]. *)
Record port_mapping := {
  pm_node_id : string;
  pm_port : string;
  pm_expr : string;
  pm_line : Z
}.

Definition port_entry (node_id port : string) (line : Z) (idx : nat)
    (expr : string) : map_entry :=
  let start_col := Z.of_nat idx + 1 in
  {| m_node_id := node_id; m_function := None;
     m_start_line := line; m_end_line := line;
     m_start_col := Some start_col;
     m_end_col := Some (start_col + Z.of_nat (String.length expr) - 1);
     m_port := Some port |}.

(** [code_lines[line-1]] under the guard [1 <= line <= len(code_lines)]. *)
Definition line_at (code_lines : list string) (line : Z) : option string :=
  if (1 <=? line) && (line <=? Z.of_nat (length code_lines))
  then code_lines !! Z.to_nat (line - 1)
  else None.

(** [record_port_expr]. The list [_port_mappings] is kept beside the
    emitter. The lookups inside the [try] cannot raise. *)
Definition record_port_expr (self : emitter) (_port_mappings : list port_mapping)
    (node_id port marker_expr : string) (line : Z)
    : emitter * list port_mapping :=
  let later :=
    (self, _port_mappings ++ [{| pm_node_id := node_id; pm_port := port;
                                 pm_expr := marker_expr; pm_line := line |}]) in
  match line_at (code_lines self) line with
  | Some text =>
      match find_str text marker_expr with
      | Some idx =>
          (set_mapping (mapping self ++ [port_entry node_id port line idx marker_expr])
             self, _port_mappings)
      | None => later
      end
  | None => later
  end.

Definition set_start_col (v : option Z) (m : map_entry) : map_entry :=
  {| m_node_id := m_node_id m; m_function := m_function m;
     m_start_line := m_start_line m; m_end_line := m_end_line m;
     m_start_col := v; m_end_col := m_end_col m; m_port := m_port m |}.

Definition set_end_col (v : option Z) (m : map_entry) : map_entry :=
  {| m_node_id := m_node_id m; m_function := m_function m;
     m_start_line := m_start_line m; m_end_line := m_end_line m;
     m_start_col := m_start_col m; m_end_col := v; m_port := m_port m |}.

(** The body of the first loop of [_finalize_mappings]. *)
Definition finalize_entry (code_lines : list string) (m : map_entry) : map_entry :=
  let s := m_start_line m in
  let e := m_end_line m in
  let m :=
    match (if Driver.truthy_int s then line_at code_lines s else None) with
    | Some line_text =>
        let first := Z.of_nat (String.length line_text)
                     - Z.of_nat (String.length (lstrip_spaces line_text)) + 1 in
        if bool_decide (m_start_col m = None) then set_start_col (Some first) m else m
    | None => m
    end in
  match (if Driver.truthy_int e then line_at code_lines e else None) with
  | Some line_text =>
      if bool_decide (m_end_col m = None)
      then set_end_col (Some (Z.of_nat (String.length line_text))) m else m
  | None => m
  end.

(** The body of the second loop. *)
Definition resolve_port_mapping (code_lines : list string) (p : port_mapping)
    : option map_entry :=
  text ← line_at code_lines (pm_line p);
  idx ← find_str text (pm_expr p);
  Some (port_entry (pm_node_id p) (pm_port p) (pm_line p) idx (pm_expr p)).

Definition _finalize_mappings (self : emitter) (_port_mappings : list port_mapping)
    : emitter :=
  set_mapping
    (map (finalize_entry (code_lines self)) (mapping self)
     ++ omap (resolve_port_mapping (code_lines self)) _port_mappings)
    self.

(** *** The other passes of [emit_from_graph] *)

(** [enumerate(l)] *)
Definition enumerate {A} (l : list A) : list (nat * A) := imap (λ i x, (i, x)) l.

(** The fragments of a call [out_type out_var = fn(arg, ...);], one marked
    fragment per argument. *)
Definition call_fragments (head nid : string)
    (args : list (option string * string)) : list fragment :=
  [plain head]
  ++ flat_map (λ '(i, (pname, expr)),
                 (if bool_decide (0 < i)%nat then [plain ", "] else [])
                 ++ [marked expr nid pname])
       (enumerate args)
  ++ [plain ");"].

(** The argument list of a node whose ports are [ports]: each port by its
    name, then by its position. *)
Definition port_args (self : emitter) (names : gmap string string) (n : node)
    (ports : list (option string))
    (lmap : gmap string (gmap string string)) (llist : gmap string (list string))
    : list (option string * string) :=
  map (λ '(idx, pname),
         let src := _resolve_input_for_node self n pname (Some idx) lmap llist in
         let src := if bool_decide (src = None)
                    then _resolve_input_for_node self n None (Some idx) lmap llist
                    else src in
         (pname, operand_expr names src))
      (enumerate ports).

(** The argument list read off [inputs]: [var_names.get(src, src)]. *)
Definition input_args (names : gmap string string) (n : node)
    : list (option string * string) :=
  map (λ '(idx, src), (Some ("arg" +:+ str_nat idx), default src (names !! src)))
      (enumerate (n_inputs n)).

(** The tail of every pass: [end = len(self.code_lines)] and
    [self.record_map(nid, start, end, function=...)]. *)
Definition close_pass (self : emitter) (nid : string) (start : Z)
    (function : option string) : emitter :=
  record_map self nid start (Z.of_nat (length (code_lines self))) function.

Definition emit_from_graph_Print (self : emitter) (n : node) : emitter :=
  let nid := n_id n in
  let self := ensure_lib_includes self (n_type n) in
  let start := Z.of_nat (length (code_lines self)) + 1 in
  let input_ports := tdef_inputs (defs_get (node_defs self) "Print") in
  let '(src_id, src_port) :=
    match input_ports with
    | p :: _ => (_resolve_input_for_node self n (p_name p) (Some 0%nat) ∅ ∅, p_name p)
    | [] => (None, None)
    end in
  let src_id := if bool_decide (src_id = None)
                then _resolve_input_for_node self n None (Some 0%nat) ∅ ∅
                else src_id in
  if negb (truthy src_id) then
    let self := append_line self
                  (indent self +:+ "// Print node " +:+ nid +:+ " has no input") in
    close_pass self nid start None
  else
    let src := default (String dquote (String dquote ""))
                 (var_names self !! default "" src_id) in
    let fragments :=
      [ plain (indent self +:+ "std::cout << ");
        marked src nid (Some (or_else src_port "value"));
        plain " << std::endl;" ] in
    let '(_, self) := emit_line_with_fragments self fragments None in
    close_pass self nid start None.

(** The expression of a cast to [target] (a [properties.targetType], or its
    default). The flag tells whether [<string>] joins the includes. *)
Definition cast_expr (target in_expr : string) : string * bool :=
  let tgt := cpp_type target in
  let canon := Validator._canonical_type (Some target) in
  if bool_decide (canon = "double" ∨ canon = "int")
  then ("static_cast<" +:+ tgt +:+ ">(" +:+ in_expr +:+ ")", false)
  else if bool_decide (canon = "string")
  then ("std::to_string(" +:+ in_expr +:+ ")", true)
  else ("static_cast<" +:+ tgt +:+ ">(" +:+ in_expr +:+ ")", false).

Definition cast_fragments (ind tgt out_var nid expr : string) : list fragment :=
  [ plain (ind +:+ tgt +:+ " " +:+ out_var +:+ " = ");
    marked expr nid (Some "in");
    plain ";" ].

Definition emit_from_graph_Cast (self : emitter) (n : node) : emitter :=
  let nid := n_id n in
  let self := ensure_lib_includes self (n_type n) in
  let start := Z.of_nat (length (code_lines self)) + 1 in
  let target := default "double" (n_targetType n) in
  let in_src := _resolve_input_for_node self n (Some "in") (Some 0%nat) ∅ ∅ in
  let in_expr := operand_expr (var_names self) in_src in
  let '(out_var, self) := make_var self nid in
  let self := set_var_names (<[nid := out_var]> (var_names self)) self in
  let '(expr, needs_string) := cast_expr target in_expr in
  let self := if needs_string
              then set_includes ({[ "<string>" ]} ∪ includes self) self
              else self in
  let frags := cast_fragments (indent self) (cpp_type target) out_var nid expr in
  let '(_, self) := emit_line_with_fragments self frags None in
  close_pass self nid start None.

(** A parameter [{name, type}] of a function; the name is present (the
    emitter stores it as the variable of a [Param] node). *)
Record param := {
  prm_name : string;
  prm_type : option string
}.

(** A function [{name, params, returnType, graph: {nodes, edges, return}}];
    a missing [params], [nodes] or [edges] is the empty list. *)
Record func := {
  fn_name : option string;
  fn_params : list param;
  fn_returnType : option string;
  fn_nodes : list node;
  fn_edges : list edge;
  fn_return : option string
}.

(** [{f['name']: f for f in functions}]: indexing a function without a
    name raises [KeyError]; a later function replaces an earlier one of the
    same name. *)
Fixpoint functions_by_name (functions : list func) (m : gmap string func)
    : result (gmap string func) :=
  match functions with
  | [] => inr m
  | f :: rest =>
      match fn_name f with
      | None => inl (KeyError "name")
      | Some nm => functions_by_name rest (<[nm := f]> m)
      end
  end.

Definition emit_from_graph_Call (functions : list func) (self : emitter)
    (n : node) : result emitter :=
  let nid := n_id n in
  let self := ensure_lib_includes self (n_type n) in
  let start := Z.of_nat (length (code_lines self)) + 1 in
  let fname := n_name n in
  do by_name <- functions_by_name functions ∅;
  let fdef := fname ≫= λ nm, by_name !! nm in
  let wrapped_args :=
    match fdef with
    | Some f => port_args self (var_names self) n
                  (map (λ p, Some (prm_name p)) (fn_params f)) ∅ ∅
    | None => input_args (var_names self) n
    end in
  let '(out_var, self) := make_var self nid in
  let self := set_var_names (<[nid := out_var]> (var_names self)) self in
  let cpp_ret :=
    match fdef with
    | Some f => cpp_type (default "number" (fn_returnType f))
    | None => "auto"
    end in
  let frags :=
    call_fragments
      (indent self +:+ cpp_ret +:+ " " +:+ out_var +:+ " = " +:+ str_opt fname +:+ "(")
      nid wrapped_args in
  let '(_, self) := emit_line_with_fragments self frags None in
  inr (close_pass self nid start None).

(** [if lib:] on the [lib] descriptor of a catalog entry. *)
Definition lib_truthy (l : option libdesc) : bool :=
  match l with
  | Some d => bool_decide (is_Some (lib_include d) ∨ is_Some (lib_name d))
  | None => false
  end.

(** The type of the value of a library call: the first declared output, or
    [double]. *)
Definition lib_out_type (ddef : tdef) : string :=
  match tdef_outputs ddef with
  | o :: _ => str_opt (cpp_type_opt (p_type o))
  | [] => "double"
  end.

Definition emit_from_graph_other (self : emitter) (n : node) : emitter :=
  let nid := n_id n in
  let self := ensure_lib_includes self (n_type n) in
  let start := Z.of_nat (length (code_lines self)) + 1 in
  let ddef := defs_get (node_defs self) (n_type n) in
  let defs_inputs := tdef_inputs ddef in
  let wrapped_args :=
    if nonempty defs_inputs
    then port_args self (var_names self) n (map p_name defs_inputs) ∅ ∅
    else input_args (var_names self) n in
  if lib_truthy (td_lib ddef) then
    let fn_name := td_lib ddef ≫= lib_name in
    let '(out_var, self) := make_var self nid in
    let self := set_var_names (<[nid := out_var]> (var_names self)) self in
    let frags :=
      call_fragments
        (indent self +:+ lib_out_type ddef +:+ " " +:+ out_var +:+ " = "
         +:+ str_opt fn_name +:+ "(")
        nid wrapped_args in
    let '(_, self) := emit_line_with_fragments self frags None in
    close_pass self nid start None
  else
    let self := append_line self
                  (indent self +:+ "// Unhandled node " +:+ nid +:+ " of type "
                   +:+ n_type n) in
    close_pass self nid start None.

(** One pass of [for n in ordered]. *)
Definition emit_from_graph_node (functions : list func) (self : emitter)
    (n : node) : result emitter :=
  let ntype := n_type n in
  if bool_decide (ntype = "Literal") then emit_from_graph_Literal self n
  else match arith_op ntype with
       | Some op => inr (emit_from_graph_arith self n op)
       | None =>
           if bool_decide (ntype = "Print") then inr (emit_from_graph_Print self n)
           else if bool_decide (ntype = "Cast") then inr (emit_from_graph_Cast self n)
           else if bool_decide (ntype = "Call") then emit_from_graph_Call functions self n
           else inr (emit_from_graph_other self n)
       end.

(** [for n in ordered: ...], stopped by the first exception. *)
Fixpoint emit_nodes (functions : list func) (self : emitter) (ordered : list node)
    : result emitter :=
  match ordered with
  | [] => inr self
  | n :: rest =>
      do self <- emit_from_graph_node functions self n;
      emit_nodes functions self rest
  end.

(** [list({n['id']: n for n in nodes}.values())]: one node per id, at the
    place of the first node with that id, and the last node given for it. *)
Definition nodes_list (nodes : list node) : list node :=
  omap (λ nid, Validator.id_to_node_of nodes !! nid)
       (Validator.dict_keys (map n_id nodes)).

(** [try: topological_sort(...) except ValidationError: ...]: the order to
    emit in, and whether the warning is written. *)
Definition emission_order (nodes : list node) (edges : list edge)
    : result (list node * bool) :=
  match Validator.topological_sort nodes edges with
  | inr ordered => inr (ordered, false)
  | inl (ValidationError _) => inr (nodes, true)
  | inl e => inl e
  end.

Definition emit_from_graph (nodes : list node) (edges : list edge)
    (functions : list func) (self : emitter) : result emitter :=
  let nodes_list := nodes_list nodes in
  do (ordered, failed) <- emission_order nodes_list edges;
  let self :=
    if failed
    then append_line self
           (indent self +:+ "// Warning: topological sort failed, using graph order")
    else self in
  emit_nodes functions self ordered.

Definition emit_main (nodes : list node) (edges : list edge)
    (functions : list func) (self : emitter) : result emitter :=
  let self := append_line self "int main() {" in
  let self := set_indent_level (indent_level self + 1) self in
  do self <- emit_from_graph nodes edges functions self;
  let self := append_line self (indent self +:+ "return 0;") in
  let self := set_indent_level (indent_level self - 1) self in
  inr (append_line self "}").

(** *** [emit_function_def] *)

Definition set_local_var (nid var : string) (sc : scope) : scope :=
  set_local_names (<[nid := var]> (local_var_names sc)) (local_used_names sc) sc.

(** The first loop over [params]: a parameter takes the first [Param] node
    that carries its name and is not assigned yet. *)
Fixpoint assign_by_name (params : list param) (param_nodes : list node)
    (names : gmap string string) (assigned : gset string)
    : gmap string string * gset string :=
  match params with
  | [] => (names, assigned)
  | p :: rest =>
      let pname := prm_name p in
      match find (λ pn, bool_decide (n_name pn = Some pname)
                        && bool_decide (n_id pn ∉ assigned)) param_nodes with
      | Some matched =>
          assign_by_name rest param_nodes (<[n_id matched := pname]> names)
            ({[ n_id matched ]} ∪ assigned)
      | None => assign_by_name rest param_nodes names assigned
      end
  end.

(** The second loop: the [Param] nodes left take the parameters by order,
    counted from the first, and generated names after the last. *)
Fixpoint assign_by_order (params : list param) (assigned : gset string)
    (param_nodes : list node) (pi : nat) (sc : scope) : scope :=
  match param_nodes with
  | [] => sc
  | pn :: rest =>
      if bool_decide (n_id pn ∈ assigned)
      then assign_by_order params assigned rest pi sc
      else
        match params !! pi with
        | Some p =>
            assign_by_order params assigned rest (S pi)
              (set_local_var (n_id pn) (prm_name p) sc)
        | None =>
            let '(var, sc) := local_make_var sc (n_id pn) in
            assign_by_order params assigned rest pi (set_local_var (n_id pn) var sc)
        end
  end.

Definition emit_function_def_Param (self : emitter) (sc : scope) (n : node)
    : emitter * scope :=
  let nid := n_id n in
  let start := Z.of_nat (length (code_lines self)) + 1 in
  let sc :=
    if bool_decide (local_var_names sc !! nid = None)
    then let '(var, sc) := local_make_var sc nid in set_local_var nid var sc
    else sc in
  (close_pass self nid start (name sc), sc).

Definition emit_function_def_Cast (self : emitter) (sc : scope) (n : node)
    : emitter * scope :=
  let nid := n_id n in
  let start := Z.of_nat (length (code_lines self)) + 1 in
  let target := default "double" (n_targetType n) in
  let in_src := _resolve_input_for_node self n (Some "in") (Some 0%nat)
                  (local_incoming_map sc) (local_incoming_list sc) in
  let in_expr := operand_expr (local_var_names sc) in_src in
  let '(out_var, sc) := local_make_var sc nid in
  let sc := set_local_var nid out_var sc in
  let '(expr, needs_string) := cast_expr target in_expr in
  let self := if needs_string
              then set_includes ({[ "<string>" ]} ∪ includes self) self
              else self in
  let frags := cast_fragments (indent self) (cpp_type target) out_var nid expr in
  let '(_, self) := emit_line_with_fragments self frags (name sc) in
  (close_pass self nid start (name sc), sc).

(** The arguments of a library call inside a function: one per declared
    input, taken from [input_vars] by index, [0] beyond its end. *)
Definition local_call_args (input_vars : list string) (defs_inputs : list port)
    : list (option string * string) :=
  map (λ '(idx, p), (p_name p, default "0" (input_vars !! idx)))
      (enumerate defs_inputs).

Definition emit_function_def_other (self : emitter) (sc : scope) (n : node)
    : emitter * scope :=
  let nid := n_id n in
  let start := Z.of_nat (length (code_lines self)) + 1 in
  let ddef := defs_get (node_defs self) (n_type n) in
  let defs_inputs := tdef_inputs ddef in
  let input_vars :=
    if nonempty defs_inputs
    then map snd (port_args self (local_var_names sc) n (map p_name defs_inputs)
                    (local_incoming_map sc) (local_incoming_list sc))
    else map (λ src, operand_expr (local_var_names sc) (Some src)) (n_inputs n) in
  if lib_truthy (td_lib ddef) then
    let fn_name := td_lib ddef ≫= lib_name in
    let '(out_var, sc) := local_make_var sc nid in
    let sc := set_local_var nid out_var sc in
    let frags :=
      call_fragments
        (indent self +:+ lib_out_type ddef +:+ " " +:+ out_var +:+ " = "
         +:+ str_opt fn_name +:+ "(")
        nid (local_call_args input_vars defs_inputs) in
    let '(_, self) := emit_line_with_fragments self frags (name sc) in
    (close_pass self nid start (name sc), sc)
  else
    let fragments :=
      [ marked (indent self +:+ "// Unhandled node " +:+ nid +:+ " of type "
                +:+ n_type n +:+ " inside function") nid None ] in
    let '(_, self) := emit_line_with_fragments self fragments (name sc) in
    (close_pass self nid start (name sc), sc).

(** One pass of [for n in ordered] inside a function. *)
Definition emit_function_def_node (self : emitter) (sc : scope) (n : node)
    : emitter * scope :=
  let ntype := n_type n in
  if bool_decide (ntype = "Param") then emit_function_def_Param self sc n
  else if bool_decide (ntype = "Literal") then emit_function_def_Literal self sc n
  else if bool_decide (ntype = "Cast") then emit_function_def_Cast self sc n
  else match arith_op ntype with
       | Some op => emit_function_def_arith self sc n op
       | None => emit_function_def_other self sc n
       end.

(** The [return] statement. *)
Definition emit_return (self : emitter) (sc : scope) (return_type : string)
    (ret_id : option string) (ordered : list node) : emitter :=
  if negb (bool_decide (return_type = "")) && negb (bool_decide (return_type = "void"))
  then
    let ret_id :=
      if negb (truthy ret_id)
      then match find (λ n, bool_decide (n_type n ≠ "Param")) (reverse ordered) with
           | Some last => Some (n_id last)
           | None => ret_id
           end
      else ret_id in
    let ret_expr := operand_expr (local_var_names sc) ret_id in
    let ret_node := str_opt (name sc) +:+ "::return" in
    let fragments :=
      [ plain (indent self +:+ "return ");
        marked ret_expr ret_node (Some "value");
        plain ";" ] in
    let '(_, self) := emit_line_with_fragments self fragments (name sc) in
    let line := Z.of_nat (length (code_lines self)) in
    record_map self ret_node line line (name sc)
  else self.

Definition emit_function_def (self : emitter) (f : func) : result emitter :=
  let fname := fn_name f in
  let params := fn_params f in
  let return_type := default "void" (fn_returnType f) in
  let nodes := fn_nodes f in
  let edges := fn_edges f in
  let '(lmap, llist) := init_local_incoming edges in
  let self := foldl (λ self n, ensure_lib_includes self (n_type n)) self nodes in
  let cpp_return := if bool_decide (return_type = "") then "void"
                    else cpp_type return_type in
  let param_list :=
    map (λ p, cpp_type (default "auto" (prm_type p)) +:+ " " +:+ prm_name p) params in
  let sig := cpp_return +:+ " " +:+ str_opt fname +:+ "("
             +:+ join_with ", " param_list +:+ ")" in
  let self := append_line self (sig +:+ " {") in
  let self := set_indent_level (indent_level self + 1) self in
  let sc := {| name := fname; local_var_names := ∅; local_used_names := ∅;
               local_incoming_map := lmap; local_incoming_list := llist |} in
  let param_nodes := filter (λ n, n_type n = "Param") nodes in
  let '(names, assigned) := assign_by_name params param_nodes ∅ ∅ in
  let sc := set_local_names names (local_used_names sc) sc in
  let sc := assign_by_order params assigned param_nodes 0 sc in
  do (ordered, failed) <- emission_order nodes edges;
  let self :=
    if failed
    then append_line self
           (indent self +:+ "// Warning: topological sort failed inside function, using graph order")
    else self in
  let '(self, sc) :=
    foldl (λ '(self, sc) n, emit_function_def_node self sc n) (self, sc) ordered in
  let self := emit_return self sc return_type (fn_return f) ordered in
  let self := set_indent_level (indent_level self - 1) self in
  let self := append_line self "}" in
  inr (append_line self "").

(** *** [emit] *)

Definition emit (i : Driver.ir) (functions : list func)
    (defs : gmap string tdef) : result (string * emitter) :=
  let self := __init__ (Driver.ir_imports i) (Driver.ir_edges i) defs in
  let self :=
    foldl (λ self f,
             foldl (λ self n, ensure_lib_includes self (n_type n)) self (fn_nodes f))
          self functions in
  let self := foldl (λ self n, ensure_lib_includes self (n_type n)) self
                (Driver.ir_nodes i) in
  let self :=
    if bool_decide (set_Exists (λ inc, contains "iostream" inc = true) (includes self))
    then self
    else set_includes ({[ "<iostream>" ]} ∪ includes self) self in
  let self := emit_include self in
  do self <- foldl (λ acc f, do self <- acc; emit_function_def self f) (inr self)
               functions;
  do self <- emit_main (Driver.ir_nodes i) (Driver.ir_edges i) functions self;
  let self := _finalize_mappings self [] in
  inr (join_with (String (ascii_of_nat 10) "") (code_lines self), self).

End Emitter.

(** * Specifications *)

Import Validator Driver Emitter.

(** ** Vocabulary of the statements *)

(** *** Sample nodes, edges and catalog *)

(** A node with the given id, type, value and [inputs]; an edge without
    port names, and one that names its destination port. *)
Definition mk_node (nid ty : string) (v : pyval) (ins : list string) : node :=
  {| n_id := nid; n_type := ty; n_value := v; n_targetType := None;
     n_name := None; n_inputs := ins; n_outputs := [] |}.

Definition positional (frm to : string) : edge :=
  {| e_from := frm; e_to := to; e_fromPort := None; e_toPort := None |}.

Definition named (frm to port : string) : edge :=
  {| e_from := frm; e_to := to; e_fromPort := None; e_toPort := Some port |}.

(** A catalog with a [Literal] that has one output and an [Add] that
    declares the two inputs [a] and [b], all of type [number]. *)
Definition number_port (nm : string) : port :=
  {| p_name := Some nm; p_type := Some "number" |}.

Definition catalog3 : gmap string tdef :=
  {[ "Literal" := {| td_inputs := Some []; td_outputs := Some [number_port "out"];
                     td_lib := None |};
     "Add" := {| td_inputs := Some [number_port "a"; number_port "b"];
                 td_outputs := Some [number_port "out"]; td_lib := None |} ]}.

(** *** Type checking *)

(** Assignability of an actual to an expected canonical type (the type
    lattice): [any] on either side, equal types, or [int] widened to
    [double]. *)
Definition assignable (E A : string) : Prop :=
  E = "any" ∨ A = "any" ∨ E = A ∨ (E = "double" ∧ A = "int").

(** The details a type mismatch on connection [c] carries. *)
Definition mismatch_of (c : conn) (expected actual : option string) : mismatch :=
  {| d_from := c_from c; d_to := c_to c; d_toPort := c_toPort c;
     d_expected := expected; d_actual := actual;
     d_suggested_cast := expected |}.

(** The output-type table [validate_types] builds, when its first loop
    passes. *)
Definition out_types (nodes : list node) (node_defs : gmap string tdef)
    : option (gmap string (option string)) :=
  match literal_types node_defs nodes ∅ with
  | inr lits => Some (declared_types node_defs nodes lits)
  | inl _ => None
  end.

(** The mismatch [d] is the one the check of a connection of the graph
    raises; it carries the endpoints and the port of that connection, the
    expected type as suggested cast, and types that are not assignable. *)
Definition mismatch_origin (nodes : list node) (node_defs : gmap string tdef)
    (edges : list edge) (d : mismatch) : Prop :=
  ∃ id_to_out_type c dest_node idx,
    out_types nodes node_defs = Some id_to_out_type
    ∧ c ∈ conns_of nodes edges
    ∧ id_to_node_of nodes !! c_to c = Some dest_node
    ∧ check_connection node_defs (id_to_node_of nodes) id_to_out_type
        (c_to c) (tdef_inputs (defs_get node_defs (n_type dest_node)))
        idx c = raise (TypeMismatch d)
    ∧ d_from d = c_from c ∧ d_to d = c_to c ∧ d_toPort d = c_toPort c
    ∧ d_suggested_cast d = d_expected d
    ∧ ¬ assignable (_canonical_type (d_expected d))
                   (_canonical_type (d_actual d)).

(** Scenario 3 of the specification: a text literal wired into port [a] of
    an [Add], and the mismatch it must raise. *)
Definition nodes_S_N_A : list node :=
  [ mk_node "S" "Literal" (VStr "1") []; mk_node "N" "Literal" (VInt 2) [];
    mk_node "A" "Add" VNone [] ].

Definition edges_S_N_A : list edge := [ named "S" "A" "a"; named "N" "A" "b" ].

Definition mismatch_S_A : mismatch :=
  {| d_from := "S"; d_to := "A"; d_toPort := Some "a";
     d_expected := Some "number"; d_actual := Some "string";
     d_suggested_cast := Some "number" |}.

(** The number of connections that enter [dest]. *)
Definition incoming_count (dest : string) (conns : list conn) : nat :=
  length (filter (λ c, c_to c = dest) conns).

(** The arity rule as the specification words it: a destination with more
    incoming connections than declared inputs makes validation fail. *)
Definition arity_rule (nodes : list node) (node_defs : gmap string tdef)
    (edges : list edge) : Prop :=
  ∀ dest dest_node,
    id_to_node_of nodes !! dest = Some dest_node →
    (length (tdef_inputs (defs_get node_defs (n_type dest_node)))
     < incoming_count dest (conns_of nodes edges))%nat →
    ∃ e, validate_types nodes node_defs edges = inl e.

(** Three literals wired, by position, into the [Add] of [catalog3]. *)
Definition nodes3 : list node :=
  [ mk_node "l1" "Literal" (VInt 1) []; mk_node "l2" "Literal" (VInt 2) [];
    mk_node "l3" "Literal" (VInt 3) []; mk_node "add1" "Add" VNone [] ].

Definition edges3 : list edge :=
  [ positional "l1" "add1"; positional "l2" "add1"; positional "l3" "add1" ].

(** *** Topological order *)

(** The graph [topological_sort] orders, as pairs (source, destination):
    the edge list when it is not empty, the [inputs] lists otherwise. *)
Definition edge_pairs (edges : list edge) : list (string * string) :=
  map (λ e, (e_from e, e_to e)) edges.

Definition input_pairs (nodes : list node) : list (string * string) :=
  flat_map (λ n, map (λ inp, (inp, n_id n)) (n_inputs n)) nodes.

Definition graph_of (nodes : list node) (edges : list edge)
    : list (string * string) :=
  if nonempty edges then edge_pairs edges else input_pairs nodes.

(** Both endpoints of every edge of [E] are ids of [nodes]. *)
Definition endpoints_exist (nodes : list node) (E : list (string * string))
    : Prop :=
  ∀ u v, (u, v) ∈ E → u ∈ map n_id nodes ∧ v ∈ map n_id nodes.

(** A cycle: a node that reaches itself along one or more edges. *)
Definition has_cycle (E : list (string * string)) : Prop :=
  ∃ v, tc (λ x y, (x, y) ∈ E) v v.

Definition acyclic (E : list (string * string)) : Prop := ¬ has_cycle E.

(** [u] occurs before [v] in [l]. *)
Definition precedes (l : list string) (u v : string) : Prop :=
  ∃ i j, l !! i = Some u ∧ l !! j = Some v ∧ (i < j)%nat.

(** [ordered] is a permutation of [nodes] in which the source of every edge
    of [E] precedes its destination. *)
Definition topological_order (nodes : list node) (E : list (string * string))
    (ordered : list node) : Prop :=
  ordered ≡ₚ nodes ∧ ∀ u v, (u, v) ∈ E → precedes (map n_id ordered) u v.

(** What [topological_sort] owes for the graph [E]. *)
Definition sorts (nodes : list node) (edges : list edge)
    (E : list (string * string)) : Prop :=
  (acyclic E →
     ∃ ordered, topological_sort nodes edges = inr ordered
                ∧ topological_order nodes E ordered)
  ∧ (has_cycle E → topological_sort nodes edges = raise Cycle).

(** The same for the graph of the edge list alone, whenever its endpoints
    exist. *)
Definition sorts_edge_list (nodes : list node) (edges : list edge) : Prop :=
  endpoints_exist nodes (edge_pairs edges) → sorts nodes edges (edge_pairs edges).

(** Two nodes carrying the same id, and the two-node cycle. *)
Definition nodes_a_a : list node :=
  [mk_node "a" "Literal" (VInt 1) []; mk_node "a" "Literal" (VInt 2) []].

Definition nodes_X_Y : list node :=
  [mk_node "X" "Add" VNone []; mk_node "Y" "Add" VNone []].

Definition edges_X_Y : list edge := [positional "X" "Y"; positional "Y" "X"].

(** Scenario 1 of the specification: the sum of 3 and 4, printed. *)
Definition nodes_sum : list node :=
  [ mk_node "P" "Print" VNone []; mk_node "A" "Add" VNone [];
    mk_node "L3" "Literal" (VInt 3) []; mk_node "L4" "Literal" (VInt 4) [] ].

Definition edges_sum : list edge :=
  [ positional "L3" "A"; positional "L4" "A"; positional "A" "P" ].

(** *** Normalization *)

(** The ids of the nodes of an IR. *)
Definition ids_of (i : ir) : list string := map n_id (ir_nodes i).

(** No edge of [i] references a node id absent from its node list. *)
Definition known_endpoints (i : ir) : Prop :=
  ∀ e, e ∈ ir_edges i → e_from e ∈ ids_of i ∧ e_to e ∈ ids_of i.

(** No [inputs] or [outputs] list of [i] references an absent node id. *)
Definition known_neighbours (i : ir) : Prop :=
  ∀ n x, n ∈ ir_nodes i → x ∈ n_inputs n ∨ x ∈ n_outputs n → x ∈ ids_of i.

(** The node ids are pairwise distinct, and every [inputs] list is free of
    duplicates and names nodes of the IR only. *)
Definition tidy_inputs (i : ir) : Prop :=
  NoDup (ids_of i)
  ∧ ∀ n, n ∈ ir_nodes i →
         NoDup (n_inputs n) ∧ ∀ x, x ∈ n_inputs n → x ∈ ids_of i.

(** An [Add] whose two inputs are the literal [l1]. *)
Definition add_l1_l1 : node := mk_node "add1" "Add" VNone ["l1"; "l1"].

(** A node [a] with an edge to a node that does not exist. *)
Definition ir_dangling : ir :=
  {| ir_imports := []; ir_nodes := [mk_node "a" "Literal" (VInt 1) []];
     ir_edges := [positional "a" "ghost"] |}.

(** A literal used for both operands of an [Add], given by [inputs] only. *)
Definition ir_l1_twice : ir :=
  {| ir_imports := [];
     ir_nodes := [mk_node "l1" "Literal" (VInt 7) []; add_l1_l1];
     ir_edges := [] |}.

(** The same graph given by its edge, and by duplicate-free [inputs]. *)
Definition ir_l1_edge : ir :=
  {| ir_imports := [];
     ir_nodes := [mk_node "l1" "Literal" (VInt 7) [];
                  mk_node "add1" "Add" VNone []];
     ir_edges := [positional "l1" "add1"] |}.

Definition ir_l1_once : ir :=
  {| ir_imports := [];
     ir_nodes := [mk_node "l1" "Literal" (VInt 7) [];
                  mk_node "add1" "Add" VNone ["l1"]];
     ir_edges := [] |}.

(** *** Diagnostics *)

(** The span of [e] encloses the position [(line, col)]: the line lies in
    its line range, and it has a column range in which the column lies. *)
Definition encloses (e : map_entry) (line col : Z) : Prop :=
  m_start_line e ≤ line ≤ m_end_line e
  ∧ ∃ scol ecol, m_start_col e = Some scol ∧ m_end_col e = Some ecol
                 ∧ scol ≤ col ≤ ecol.

Definition contains_line (e : map_entry) (line : Z) : Prop :=
  m_start_line e ≤ line ≤ m_end_line e.

(** Lines and columns of a mapping entry count from 1. *)
Definition one_based (e : map_entry) : Prop :=
  1 ≤ m_start_line e ∧ ∀ scol, m_start_col e = Some scol → 1 ≤ scol.

(** The line-span and the col-span of an entry: the number of lines, and
    of columns, from its start to its end. The col-span is only read of
    entries that have both columns. *)
Definition line_span (e : map_entry) : Z := m_end_line e - m_start_line e.

Definition col_span (e : map_entry) : Z :=
  match m_start_col e, m_end_col e with
  | Some scol, Some ecol => ecol - scol
  | _, _ => 0
  end.

(** The pair (line-span, col-span) by which enclosing entries are compared. *)
Definition area (e : map_entry) : Z * Z := (line_span e, col_span e).

(** The order on (line-span, col-span) pairs. *)
Definition lex_le (a b : Z * Z) : Prop := a.1 < b.1 ∨ (a.1 = b.1 ∧ a.2 ≤ b.2).

(** The diagnostic [err] has no column, or no entry encloses its position. *)
Definition no_column_match (mapping : list map_entry) (err : diagnostic) : Prop :=
  ∀ col e, err_col err = Some col → e ∈ mapping → ¬ encloses e (err_line err) col.

(** The result [r] is taken from the entry [e]. *)
Definition taken_from (r : mapped) (e : map_entry) : Prop :=
  mp_node_id r = Some (m_node_id e) ∧ mp_function r = m_function e
  ∧ mp_port r = m_port e.

(** The resolution rule of the diagnostic mapper, for one diagnostic:
    - if it has a column and some entry encloses its position, the result
      is taken from an enclosing entry whose (line-span, col-span) is least
      among the enclosing entries;
    - otherwise, if the line range of some entry contains its line, the
      result is taken from such an entry of least line-span;
    - otherwise the result has no node id. *)
Definition resolution_rule (mapping : list map_entry) (err : diagnostic)
    (r : mapped) : Prop :=
  let line := err_line err in
  (∀ col, err_col err = Some col →
     (∃ e, e ∈ mapping ∧ encloses e line col) →
     ∃ e, e ∈ mapping ∧ encloses e line col ∧ taken_from r e
          ∧ ∀ e', e' ∈ mapping → encloses e' line col →
                  lex_le (area e) (area e'))
  ∧ (no_column_match mapping err →
     (∃ e, e ∈ mapping ∧ contains_line e line) →
     ∃ e, e ∈ mapping ∧ contains_line e line ∧ taken_from r e
          ∧ ∀ e', e' ∈ mapping → contains_line e' line →
                  line_span e ≤ line_span e')
  ∧ (no_column_match mapping err →
     (∀ e, e ∈ mapping → ¬ contains_line e line) →
     mp_node_id r = None).

(** The finalized mapping of the line [    double v_add1 = v_l1 + v_l1;]
    emitted as line 4, and a diagnostic on its first operand. *)
Definition entry (nid : string) (line scol ecol : Z) (port : option string)
    : map_entry :=
  {| m_node_id := nid; m_function := None;
     m_start_line := line; m_end_line := line;
     m_start_col := Some scol; m_end_col := Some ecol; m_port := port |}.

Definition mapping_add1 : list map_entry :=
  [ entry "add1" 4 21 24 (Some "a"); entry "add1" 4 28 31 (Some "b");
    entry "add1" 4 5 32 None ].

Definition error_at (line : Z) (col : option Z) : diagnostic :=
  {| err_file := "out.cpp"; err_line := line; err_col := col;
     err_kind := "error"; err_msg := "invalid operands" |}.

(** A table of one entry that counts its lines from 0: the lines 0 to 5,
    the columns 1 to 9. *)
Definition mapping_from_zero : list map_entry :=
  [ {| m_node_id := "n0"; m_function := None;
       m_start_line := 0; m_end_line := 5;
       m_start_col := Some 1; m_end_col := Some 9; m_port := None |} ].

(** *** Emission *)

(** The text [double var = a op b;] at indentation [ind]. *)
Definition arith_line (ind var a op b : string) : string :=
  ind +:+ "double " +:+ var +:+ " = " +:+ a +:+ " " +:+ op +:+ " " +:+ b +:+ ";".

(** [line[start_col - 1 : end_col]], columns counted from 1. *)
Definition columns (line : string) (start_col end_col : Z) : string :=
  substring (Z.to_nat (start_col - 1)) (Z.to_nat (end_col - start_col + 1)) line.

(** The entries [ea] and [eb] are two spans of node [nid] on line [line_no],
    tagged with the ports [pa] and [pb]; their column ranges differ, the
    first ends before the second begins, and they cover the operand texts
    [a] and [b] of [line]. *)
Definition operand_spans (nid : string) (line_no : Z) (line : string)
    (pa pb : string) (a b : string) (ea eb : map_entry) : Prop :=
  m_node_id ea = nid ∧ m_node_id eb = nid
  ∧ m_port ea = Some pa ∧ m_port eb = Some pb
  ∧ m_start_line ea = line_no ∧ m_end_line ea = line_no
  ∧ m_start_line eb = line_no ∧ m_end_line eb = line_no
  ∧ ∃ sa ta sb tb,
      m_start_col ea = Some sa ∧ m_end_col ea = Some ta
      ∧ m_start_col eb = Some sb ∧ m_end_col eb = Some tb
      ∧ (sa, ta) ≠ (sb, tb)
      ∧ 1 ≤ sa ∧ ta < sb
      ∧ columns line sa ta = a ∧ columns line sb tb = b.

(** The last of [lines] is a line on which [entries] has two spans of node
    [nid], one per operand. *)
Definition records_two_spans (nid : string) (lines : list string)
    (entries : list map_entry) (pa pb : string) (a b : string) : Prop :=
  ∃ line ea eb,
    last lines = Some line ∧ ea ∈ entries ∧ eb ∈ entries
    ∧ operand_spans nid (Z.of_nat (length lines)) line pa pb a b ea eb.

(** The source of operand [i] (0 or 1) of an arithmetic node, as the
    emitter resolves it. *)
Definition operand_source (self : emitter) (n : node)
    (lmap : gmap string (gmap string string)) (llist : gmap string (list string))
    (i : nat) : option string :=
  let '((a_src, b_src), _) := arith_sources self n lmap llist in
  match i with O => a_src | _ => b_src end.

(** The name of the catalog port that operand [i] is looked up by: the name
    of the [i]-th declared input when the catalog declares two or more. *)
Definition operand_port_name (self : emitter) (n : node) (i : nat)
    : option string :=
  match tdef_inputs (defs_get (node_defs self) (n_type n)) with
  | pa :: pb :: _ => match i with O => p_name pa | _ => p_name pb end
  | _ => None
  end.

(** The port label of the span of operand [i]: that name, or [a] and [b]
    when there is none. *)
Definition operand_port (self : emitter) (n : node) (i : nat) : string :=
  or_else (operand_port_name self n i) (match i with O => "a" | _ => "b" end).

(** No edge into [nid] names the port [pn], in the function's graph or in
    the top-level graph. *)
Definition no_named_edge (self : emitter)
    (lmap : gmap string (gmap string string)) (nid pn : string) : Prop :=
  (lmap !! nid ≫= λ ports, ports !! pn) = None
  ∧ (incoming_by_node self !! nid ≫= λ ports, ports !! pn) = None.

(** Node [nid] has no [i]-th positional edge, in either graph. *)
Definition no_positional_edge (self : emitter)
    (llist : gmap string (list string)) (nid : string) (i : nat) : Prop :=
  (llist !! nid ≫= λ l, l !! i) = None
  ∧ (incoming_list_by_node self !! nid ≫= λ l, l !! i) = None.

(** Operand [i] of [n] cannot be resolved: not by port name, not by a
    positional edge, not by the node's [inputs] list. *)
Definition unresolvable (self : emitter)
    (lmap : gmap string (gmap string string)) (llist : gmap string (list string))
    (n : node) (i : nat) : Prop :=
  (∀ pn, operand_port_name self n i = Some pn → pn ≠ "" →
         no_named_edge self lmap (n_id n) pn)
  ∧ no_positional_edge self llist (n_id n) i
  ∧ n_inputs n !! i = None.

(** The text [t] stands for operand [i] of [n] as the implicit rule has it:
    the token [0] when the operand cannot be resolved, the raw source id
    when the source resolves to an id without a bound variable, and the
    bound variable otherwise. *)
Definition operand_text (self : emitter) (names : gmap string string)
    (lmap : gmap string (gmap string string)) (llist : gmap string (list string))
    (n : node) (i : nat) (t : string) : Prop :=
  (unresolvable self lmap llist n i → t = "0")
  ∧ (∀ s, operand_source self n lmap llist i = Some s → s ≠ "" →
          names !! s = None → t = s)
  ∧ (∀ s v, operand_source self n lmap llist i = Some s →
            names !! s = Some v → t = v).

(** An emitter inside [int main() {], and one inside a function [f], with
    its locals. *)
Definition in_main : emitter :=
  {| node_defs := ∅; includes := {[ "<iostream>" ]};
     code_lines := ["#include <iostream>"; ""; "int main() {"];
     indent_level := 1; var_names := ∅; _used_names := ∅; mapping := [];
     incoming_by_node := ∅; incoming_list_by_node := ∅ |}.

Definition in_function : emitter :=
  set_code_lines ["#include <iostream>"; ""; "bool f() {"] in_main.

Definition locals_of_f : scope :=
  {| name := Some "f"; local_var_names := ∅; local_used_names := ∅;
     local_incoming_map := ∅; local_incoming_list := ∅ |}.

(** The top-level scope after the literal [l1] has been bound to [v_l1]. *)
Definition in_main_l1 : emitter :=
  set_var_names {[ "l1" := "v_l1" ]} in_main.

(** An [Add] without any input. *)
Definition add_nothing : node := mk_node "add0" "Add" VNone [].

(** The names the allocator hands to the node ids [ids], in that order, in
    the top-level scope and in a function scope. *)
Definition make_vars (ids : list string) : list string :=
  (foldl (λ '(names, self) nid,
            let '(var, self) := make_var self nid in (names ++ [var], self))
         ([], in_main) ids).1.

Definition local_make_vars (ids : list string) : list string :=
  (foldl (λ '(names, sc) nid,
            let '(var, sc) := local_make_var sc nid in (names ++ [var], sc))
         ([], locals_of_f) ids).1.

(** ** Auxiliary definitions of the proofs *)

(** The two marked fragments of [arith_fragments], as entries of line
    [line_no]. *)
Definition span_a (function : option string) (line_no : nat)
    (ind var nid a : string) (a_port : option string) : map_entry :=
  let off := String.length (ind +:+ "double " +:+ var +:+ " = ") in
  {| m_node_id := nid; m_function := function;
     m_start_line := Z.of_nat line_no; m_end_line := Z.of_nat line_no;
     m_start_col := Some (Z.of_nat off + 1);
     m_end_col := Some (Z.of_nat off + Z.of_nat (String.length a));
     m_port := Some (or_else a_port "a") |}.

Definition span_b (function : option string) (line_no : nat)
    (ind var nid a op b : string) (b_port : option string) : map_entry :=
  let off := String.length
               ((ind +:+ "double " +:+ var +:+ " = ") +:+ a +:+ " " +:+ op +:+ " ") in
  {| m_node_id := nid; m_function := function;
     m_start_line := Z.of_nat line_no; m_end_line := Z.of_nat line_no;
     m_start_col := Some (Z.of_nat off + 1);
     m_end_col := Some (Z.of_nat off + Z.of_nat (String.length b));
     m_port := Some (or_else b_port "b") |}.

(** Every list of the maps built from the edges holds known ids only. *)
Definition lists_within (node_ids : gset string) (d : gmap string (list string))
    : Prop :=
  ∀ k l x, d !! k = Some l → x ∈ l → x ∈ node_ids.

(** The node written back by the first branch, and by the second. *)
Definition rebuilt (node_ids : gset string) (edges : list edge) (n : node) : node :=
  set_inputs_outputs
    (default [] ((maps_of_edges node_ids edges).1 !! n_id n))
    (default [] ((maps_of_edges node_ids edges).2 !! n_id n)) n.

Definition with_outputs (node_ids : gset string) (uniq : list edge) (n : node)
    : node :=
  set_inputs_outputs (n_inputs n)
    (default [] (outputs_of_edges node_ids uniq !! n_id n)) n.

Definition synthesized (i : ir) : list edge :=
  dedup_edges ∅ (edges_of_inputs (list_to_set (ids_of i)) (ir_nodes i)).

Definition edge_key (e : edge) : string * string := (e_from e, e_to e).

(** The successors of [u] in edge order, the number of edges that enter [v]
    from a source outside [order], and the number of occurrences of [v]. *)
Definition succs (E : list (string * string)) (u : string) : list string :=
  (filter (λ e, e.1 = u) E).*2.

Definition pending (E : list (string * string)) (order : list string)
    (v : string) : nat :=
  length (filter (λ e, e.2 = v ∧ e.1 ∉ order) E).

Definition occ (v : string) (l : list string) : nat :=
  length (filter (λ x, x = v) l).

(** The invariant of the loop of [topological_sort] on the graph [E] over
    the nodes [V]: [order] and [q] hold distinct nodes; [indeg] counts for
    every node the edges from sources not yet in [order]; the nodes without
    such an edge are exactly those in [order] or in [q]; and the sources of
    the edges into a node of [order] come before it. *)
Definition kahn_inv (V : list string) (E : list (string * string))
    (indeg : gmap string Z) (q order : list string) : Prop :=
  NoDup (order ++ q)
  ∧ (∀ x, x ∈ order ++ q → x ∈ V)
  ∧ (∀ v, v ∈ V → indeg !!! v = Z.of_nat (pending E order v))
  ∧ (∀ v, v ∈ V → (v ∈ order ++ q ↔ pending E order v = 0%nat))
  ∧ (∀ u v, (u, v) ∈ E → v ∈ order → precedes order u v).

(** One edge added to the two tables. *)
Definition add_edge (tables : gmap string (list string) * gmap string Z)
    (e : string * string) : gmap string (list string) * gmap string Z :=
  (<[e.1 := tables.1 !!! e.1 ++ [e.2]]> tables.1,
   <[e.2 := tables.2 !!! e.2 + 1]> tables.2).


(** ** Vocabulary of the further properties *)

(** *** The graph tables and the order *)

(** The number of edges of [E] that enter [v], an edge listed twice counted
    twice. *)
Definition in_degree (E : list (string * string)) (v : string) : nat :=
  length (filter (λ e, e.2 = v) E).

(** The ids of [ids] that no edge of [E] enters, in the order of [ids]. *)
Definition sources (E : list (string * string)) (ids : list string)
    : list string :=
  filter (λ v, in_degree E v = 0%nat) ids.

(** The validation errors of the graph: a cycle, an edge to or from an
    unknown node, an input that is no node. *)
Definition graph_error (d : details) : Prop :=
  d = Cycle ∨ (∃ x, d = UnknownNode x) ∨ (∃ n x, d = UnknownInput n x).

(** The order of the graph of the sum: the literals, the sum, the print. *)
Definition sorted_sum : list node :=
  [ mk_node "L3" "Literal" (VInt 3) []; mk_node "L4" "Literal" (VInt 4) [];
    mk_node "A" "Add" VNone []; mk_node "P" "Print" VNone [] ].

(** *** Outcomes of validation *)

(** The type of node [n] has a (non-empty) catalog entry. *)
Definition known_type (node_defs : gmap string tdef) (n : node) : Prop :=
  from_option tdef_truthy false (node_defs !! n_type n) = true.

(** The connections that enter [dest], in the order of the connection
    list. *)
Definition incoming (conns : list conn) (dest : string) : list conn :=
  filter (λ c, c_to c = dest) conns.

(** The connection [c], the [idx]-th that enters its destination, joins two
    nodes of the graph, and the expected and actual types the validator
    resolves for it are assignable. *)
Definition connection_ok (nodes : list node) (node_defs : gmap string tdef)
    (id_to_out_type : gmap string (option string)) (idx : nat) (c : conn) : Prop :=
  ∃ src dest_node expected actual,
    id_to_node_of nodes !! c_from c = Some src
    ∧ id_to_node_of nodes !! c_to c = Some dest_node
    ∧ expected_type (c_to c) (tdef_inputs (defs_get node_defs (n_type dest_node)))
        idx (c_toPort c) = inr expected
    ∧ actual_type (c_from c) (tdef_outputs (defs_get node_defs (n_type src)))
        id_to_out_type (c_fromPort c) = inr actual
    ∧ assignable (_canonical_type expected) (_canonical_type actual).

(** The groups of [incoming_by_dest], in closed form. *)
Definition groups_of (conns : list conn) : list (string * list conn) :=
  map (λ d, (d, incoming conns d)) (dict_keys (map c_to conns)).

(** *** Normalization and diagnostics, continued *)

(** The edges of [i] both of whose endpoints are nodes of [i]. *)
Definition valid_edges (i : ir) : list edge :=
  filter (λ e, e_from e ∈ ids_of i ∧ e_to e ∈ ids_of i) (ir_edges i).

(** The sources of the edges of [edges] that enter [k], and the
    destinations of those that leave it: each once, in the order of first
    occurrence. *)
Definition sources_of (edges : list edge) (k : string) : list string :=
  dict_keys (map e_from (filter (λ e, e_to e = k) edges)).

Definition targets_of (edges : list edge) (k : string) : list string :=
  dict_keys (map e_to (filter (λ e, e_from e = k) edges)).

(** *** Identifiers and string literals *)

(** The characters of a string. *)
Definition chars (s : string) : list ascii := list_ascii_of_string s.

(** [s] can be written as a C++ identifier: it is not empty, holds letters,
    digits and underscores only, and does not begin with a digit. *)
Definition identifier (s : string) : Prop :=
  s ≠ ""
  ∧ (∀ c, c ∈ chars s → is_word c = true)
  ∧ ∀ c r, s = String c r → is_digit c = false.

(** The name the allocator gives to the [j]-th use (from 0) of [base]. *)
Definition name_of (base : string) (j : nat) : string :=
  if bool_decide (j = 0%nat) then base else base +:+ "_" +:+ str_nat j.

(** The names of successive allocations for [bases]. *)
Fixpoint alloc_all (bases : list string) (used : gmap string nat) : list string :=
  match bases with
  | [] => []
  | b :: r => (alloc b used).1 :: alloc_all r (alloc b used).2
  end.

(** No base of [bases] is another base of [bases] followed by [_N]. *)
Definition suffix_free (bases : list string) : Prop :=
  ∀ b b' n, b ∈ bases → b' ∈ bases → (0 < n)%nat → b' ≠ b +:+ "_" +:+ str_nat n.

Definition backslash : ascii := ascii_of_nat 92.
Definition newline : ascii := ascii_of_nat 10.
Definition tab : ascii := ascii_of_nat 9.

(** The escape of one character. *)
Definition escape_char (c : ascii) : string :=
  if Ascii.eqb c backslash then String backslash (String backslash "")
  else if Ascii.eqb c dquote then String backslash (String dquote "")
  else if Ascii.eqb c newline then String backslash "n"
  else if Ascii.eqb c tab then String backslash "t"
  else String c "".

(** How a C++ compiler reads the four escapes back. *)
Fixpoint unescape (s : string) : string :=
  match s with
  | EmptyString => EmptyString
  | String c r =>
      if Ascii.eqb c backslash then
        match r with
        | String d r' =>
            String (if Ascii.eqb d "n" then newline
                    else if Ascii.eqb d "t" then tab else d) (unescape r')
        | EmptyString => String c EmptyString
        end
      else String c (unescape r)
  end.

(** *** Spans of fragments and the tables of incoming edges *)

(** The fragments of a line that carry a marker. *)
Definition marked_fragments (fragments : list fragment) : list fragment :=
  filter (λ f, is_Some (f_marker f)) fragments.

(** The entry [e] is the span of the marked fragment [f] on line [line_no],
    whose text is [line]: it carries the node, the port and the function,
    and its columns, counted from 1, cover exactly the text of [f]. *)
Definition span_of (function : option string) (line_no : Z) (line : string)
    (f : fragment) (e : map_entry) : Prop :=
  f_marker f = Some {| mk_node_id := m_node_id e; mk_port := m_port e |}
  ∧ m_function e = function
  ∧ m_start_line e = line_no ∧ m_end_line e = line_no
  ∧ ∃ sc ec,
      m_start_col e = Some sc ∧ m_end_col e = Some ec
      ∧ 1 ≤ sc
      ∧ ec = sc + Z.of_nat (String.length (f_text f)) - 1
      ∧ ec ≤ Z.of_nat (String.length line)
      ∧ columns line sc ec = f_text f.

(** The entry [e1] ends before [e2] begins. *)
Definition left_of (e1 e2 : map_entry) : Prop :=
  ∀ ec sc, m_end_col e1 = Some ec → m_start_col e2 = Some sc → ec < sc.

(** The spans of [entries] follow each other from left to right without
    overlap. *)
Definition left_to_right (entries : list map_entry) : Prop :=
  ∀ pre e1 mid e2 post,
    entries = pre ++ e1 :: mid ++ e2 :: post → left_of e1 e2.

(** The sources of the edges into [to] that name the port [port], and of
    those that name no port, in the order of the edge list. *)
Definition named_sources (edges : list edge) (to port : string) : list string :=
  map e_from (filter (λ e, e_to e = to ∧ e_toPort e = Some port) edges).

Definition positional_sources (edges : list edge) (to : string) : list string :=
  map e_from (filter (λ e, e_to e = to ∧ truthy (e_toPort e) = false) edges).

(** *** Finalization, port expressions and includes *)

(** The number of spaces a line begins with. *)
Definition leading_spaces (s : string) : nat :=
  (String.length s - String.length (lstrip_spaces s))%nat.

(** What finalization makes of the entry [m]: [m'] has the node, function,
    lines and port of [m] and every column [m] has; where the start line of
    [m] is a line of the text, the start column is present, the first
    column after the indentation of that line if [m] had none; where its
    end line is one, the end column is present, the length of that line if
    [m] had none. *)
Definition finalized (code_lines : list string) (m m' : map_entry) : Prop :=
  m_node_id m' = m_node_id m ∧ m_function m' = m_function m
  ∧ m_start_line m' = m_start_line m ∧ m_end_line m' = m_end_line m
  ∧ m_port m' = m_port m
  ∧ (∀ c, m_start_col m = Some c → m_start_col m' = Some c)
  ∧ (∀ c, m_end_col m = Some c → m_end_col m' = Some c)
  ∧ (∀ text, line_at code_lines (m_start_line m) = Some text →
       m_start_col m' = Some (default (Z.of_nat (leading_spaces text) + 1)
                                      (m_start_col m)))
  ∧ (∀ text, line_at code_lines (m_end_line m) = Some text →
       m_end_col m' = Some (default (Z.of_nat (String.length text)) (m_end_col m))).

(** The entry [e] spans the first occurrence of [expr] in [text], on line
    [line], for the port [port] of node [node_id]. *)
Definition first_occurrence_span (node_id port expr : string) (line : Z)
    (text : string) (e : map_entry) : Prop :=
  ∃ idx,
    e = port_entry node_id port line idx expr
    ∧ m_start_col e = Some (Z.of_nat idx + 1)
    ∧ m_end_col e = Some (Z.of_nat idx + Z.of_nat (String.length expr))
    ∧ columns text (Z.of_nat idx + 1) (Z.of_nat idx + Z.of_nat (String.length expr))
      = expr
    ∧ ∀ p, (p < idx)%nat → substring p (String.length expr) text ≠ expr.

(** The strings of [l] in strictly ascending order of their code points. *)
Fixpoint ascending (l : list string) : Prop :=
  match l with
  | [] => True
  | x :: r => (∀ y, y ∈ r → String.ltb x y = true) ∧ ascending r
  end.

(** *** The passes of the emitter *)

(** The lines and the entries of [self] are well formed: there is a line,
    and every entry starts at a line from 1 up to the next line to be
    written, ends at a line written, and has a start column, if any, from 1
    on. *)
Definition well_formed (self : emitter) : Prop :=
  (1 ≤ length (code_lines self))%nat
  ∧ ∀ e, e ∈ mapping self →
      1 ≤ m_start_line e ≤ Z.of_nat (length (code_lines self)) + 1
      ∧ 1 ≤ m_end_line e ≤ Z.of_nat (length (code_lines self))
      ∧ ∀ sc, m_start_col e = Some sc → 1 ≤ sc.

(** [self'] comes from [self] by writing lines and recording entries:
    nothing written or recorded before is changed, and well-formedness is
    kept. *)
Definition grown (self self' : emitter) : Prop :=
  (∃ lines, code_lines self' = code_lines self ++ lines)
  ∧ (∃ entries, mapping self' = mapping self ++ entries)
  ∧ (well_formed self → well_formed self').

(** The coarse entry [record_map] appends. *)
Definition coarse_entry (nid : string) (start end_ : Z) (function : option string)
    : map_entry :=
  {| m_node_id := nid; m_function := function;
     m_start_line := start; m_end_line := end_;
     m_start_col := None; m_end_col := None; m_port := None |}.

(** [self'] comes from [self] by one pass for the node [nid]: the pass has
    written the one line [line] and recorded the spans of its marked
    fragments, all of them spans of [nid], and then the coarse entry of
    [nid] on that line; the indentation, the catalog and the tables of
    incoming edges are those of [self]. *)
Definition one_line_pass (self self' : emitter) (nid : string)
    (function : option string) (line : string) : Prop :=
  let line_no := S (length (code_lines self)) in
  code_lines self' = code_lines self ++ [line]
  ∧ (∃ fragments,
       line = join (map f_text fragments)
       ∧ (∀ f mk, f ∈ fragments → f_marker f = Some mk → mk_node_id mk = nid)
       ∧ mapping self'
         = mapping self
           ++ fragment_entries function line_no 0 fragments
           ++ [coarse_entry nid (Z.of_nat line_no) (Z.of_nat line_no) function])
  ∧ indent_level self' = indent_level self
  ∧ node_defs self' = node_defs self
  ∧ incoming_by_node self' = incoming_by_node self
  ∧ incoming_list_by_node self' = incoming_list_by_node self.

(** *** The whole text *)

(** The coarse entries among [l]: those recorded without columns. *)
Definition coarse_entries (l : list map_entry) : list map_entry :=
  filter (λ e, m_start_col e = None) l.

(** The coarse entries of passes that write one line each, the first of
    them line [first]. *)
Definition pass_entries (function : option string) (first : nat)
    (ordered : list node) : list map_entry :=
  imap (λ i n, coarse_entry (n_id n) (Z.of_nat (first + i)) (Z.of_nat (first + i))
                 function) ordered.

(** Every function has a name. *)
Definition all_named (functions : list func) : Prop :=
  Forall (λ f, is_Some (fn_name f)) functions.

(** The warning that the order failed, as the lines it adds. *)
Definition warning_lines (failed : bool) (text : string) : list string :=
  if failed then [text] else [].

(** [sig] of [emit_function_def] (lines 246-252). *)
Definition signature (f : func) : string :=
  let return_type := default "void" (fn_returnType f) in
  let cpp_return := if bool_decide (return_type = "") then "void"
                    else cpp_type return_type in
  let param_list :=
    map (λ p, cpp_type (default "auto" (prm_type p)) +:+ " " +:+ prm_name p)
        (fn_params f) in
  cpp_return +:+ " " +:+ str_opt (fn_name f) +:+ "("
  +:+ join_with ", " param_list +:+ ")".

(** The function has a [return] statement: its [returnType] is neither
    empty nor [void]. *)
Definition returns_value (f : func) : bool :=
  let return_type := default "void" (fn_returnType f) in
  negb (bool_decide (return_type = "")) && negb (bool_decide (return_type = "void")).

(** The entry lies within the first [n] lines, and its start column, if it
    has one, is 1 or more. *)
Definition in_range (n : nat) (e : map_entry) : Prop :=
  1 ≤ m_start_line e ≤ Z.of_nat n
  ∧ 1 ≤ m_end_line e ≤ Z.of_nat n
  ∧ ∀ sc, m_start_col e = Some sc → 1 ≤ sc.

(** All entries lie within the lines written. *)
Definition settled (self : emitter) : Prop :=
  (1 ≤ length (code_lines self))%nat
  ∧ Forall (in_range (length (code_lines self))) (mapping self).

(** The warning of [emit_function_def], written one level in. *)
Definition function_warning (self : emitter) : string :=
  indent (set_indent_level (indent_level self + 1) self)
  +:+ "// Warning: topological sort failed inside function, using graph order".

(** The header that a node type brings in: the [include] of the [lib] of
    its catalog entry, unless it is missing or empty. *)
Definition lib_header (defs : gmap string tdef) (t : string) : option string :=
  lib ← td_lib (defs_get defs t);
  if truthy (lib_include lib) then lib_include lib else None.

Definition headers_of (defs : gmap string tdef) (nodes : list node) : gset string :=
  list_to_set (omap (λ n, lib_header defs (n_type n)) nodes).

(** The headers known when [emit] writes the [#include] lines: the
    imports, the headers of the node types of the functions and of the
    graph, and [<iostream>] unless one of them has [iostream] in it. *)
Definition known_includes (i : Driver.ir) (functions : list func)
    (defs : gmap string tdef) : gset string :=
  let incs :=
    headers_of defs (Driver.ir_nodes i)
    ∪ headers_of defs (concat (map fn_nodes functions))
    ∪ list_to_set (Driver.ir_imports i) in
  if bool_decide (set_Exists (λ inc, contains "iostream" inc = true) incs)
  then incs else {[ "<iostream>" ]} ∪ incs.

(** The lines [#include ...] and the empty line after them. *)
Definition include_lines (incs : gset string) : list string :=
  map (λ inc, "#include " +:+ inc) (sorted incs) ++ [""].

(** The warning of [emit_from_graph], written one level in. *)
Definition main_warning (self : emitter) : string :=
  indent (set_indent_level (indent_level self + 1) self)
  +:+ "// Warning: topological sort failed, using graph order".

(** A graph that adds two missing operands and prints the sum. *)
Definition nodes_print : list node :=
  [ mk_node "P" "Print" VNone []; mk_node "A" "Add" VNone [] ].

Definition ir_print : Driver.ir :=
  {| Driver.ir_imports := []; Driver.ir_nodes := nodes_print;
     Driver.ir_edges := [ positional "A" "P" ] |}.

(** The graph of the sum of two literals. *)
Definition ir_sum : Driver.ir :=
  {| Driver.ir_imports := []; Driver.ir_nodes := nodes_sum;
     Driver.ir_edges := edges_sum |}.

(** *** Calls *)

(** A function without a [returnType], and a call of it. *)
Definition f_untyped : func :=
  {| fn_name := Some "f"; fn_params := []; fn_returnType := None;
     fn_nodes := []; fn_edges := []; fn_return := None |}.

Definition call_f : node :=
  {| n_id := "c"; n_type := "Call"; n_value := VNone; n_targetType := None;
     n_name := Some "f"; n_inputs := []; n_outputs := [] |}.

(** ** Type checking of connections *)

Section type_lattice.

Lemma is_compatible_assignable expected actual :
  _is_compatible expected actual = true
  ↔ assignable (_canonical_type expected) (_canonical_type actual).
Proof.
  unfold _is_compatible, assignable.
  generalize (_canonical_type expected) (_canonical_type actual).
  intros e a.
  destruct (bool_decide_reflect (e = "any" ∨ a = "any")); [tauto|].
  destruct (bool_decide_reflect (e = a)); [tauto|].
  destruct (bool_decide_reflect (e = "double" ∧ a = "int")); [tauto|].
  split; [discriminate|tauto].
Qed.

Lemma widening_accepted : _is_compatible (Some "double") (Some "int") = true.
Proof. reflexivity. Qed.

Lemma narrowing_rejected : _is_compatible (Some "int") (Some "double") = false.
Proof. reflexivity. Qed.

End type_lattice.

Section connections.

Context (node_defs : gmap string tdef) (id_to_node : gmap string node)
        (id_to_out_type : gmap string (option string)).

Lemma expected_type_not_mismatch dest dest_inputs idx toPort d :
  expected_type dest dest_inputs idx toPort ≠ raise (TypeMismatch d).
Proof.
  unfold expected_type. destruct (truthy toPort).
  - destruct (find _ dest_inputs); discriminate.
  - destruct (dest_inputs !! idx); discriminate.
Qed.

Lemma actual_type_not_mismatch frm outs fromPort d :
  actual_type frm outs id_to_out_type fromPort ≠ raise (TypeMismatch d).
Proof.
  unfold actual_type. destruct (truthy fromPort).
  - destruct (find _ outs); discriminate.
  - destruct (negb _); [destruct outs|]; discriminate.
Qed.

(** What one pass of the inner loop answers, case by case. *)
Lemma check_connection_mismatch dest dest_inputs idx c d :
  check_connection node_defs id_to_node id_to_out_type dest dest_inputs idx c
    = raise (TypeMismatch d)
  ↔ ∃ src expected actual,
      id_to_node !! c_from c = Some src
      ∧ expected_type dest dest_inputs idx (c_toPort c) = inr expected
      ∧ actual_type (c_from c)
          (tdef_outputs (defs_get node_defs (n_type src)))
          id_to_out_type (c_fromPort c) = inr actual
      ∧ ¬ assignable (_canonical_type expected) (_canonical_type actual)
      ∧ d = mismatch_of c expected actual.
Proof.
  unfold check_connection, Py.bind. split.
  - destruct (expected_type _ _ _ _) as [e|expected] eqn:He.
    { unfold raise; intros [= ->]. by apply expected_type_not_mismatch in He. }
    destruct (id_to_node !! c_from c) as [src|]; [|discriminate].
    destruct (actual_type _ _ _ _) as [e|actual] eqn:Ha.
    { unfold raise; intros [= ->]. by apply actual_type_not_mismatch in Ha. }
    destruct (_is_compatible expected actual) eqn:Hc; simpl; [discriminate|].
    intros [= <-]. exists src, expected, actual. split_and!; try done.
    rewrite <- is_compatible_assignable. congruence.
  - intros (src & expected & actual & -> & -> & -> & Hna & ->).
    rewrite <- is_compatible_assignable in Hna.
    destruct (_is_compatible expected actual); [done|reflexivity].
Qed.

Lemma check_connection_accepts dest dest_inputs idx c src expected actual :
  id_to_node !! c_from c = Some src →
  expected_type dest dest_inputs idx (c_toPort c) = inr expected →
  actual_type (c_from c) (tdef_outputs (defs_get node_defs (n_type src)))
    id_to_out_type (c_fromPort c) = inr actual →
  assignable (_canonical_type expected) (_canonical_type actual) →
  check_connection node_defs id_to_node id_to_out_type dest dest_inputs idx c
    = inr tt.
Proof.
  intros Hs He Ha Hc. unfold check_connection, Py.bind.
  rewrite He, Hs, Ha. apply is_compatible_assignable in Hc. by rewrite Hc.
Qed.

Lemma check_incoming_mismatch dest dest_inputs idx incoming d :
  check_incoming node_defs id_to_node id_to_out_type dest dest_inputs idx incoming
    = raise (TypeMismatch d) →
  ∃ k c, incoming !! k = Some c
    ∧ check_connection node_defs id_to_node id_to_out_type
        dest dest_inputs (idx + k) c = raise (TypeMismatch d).
Proof.
  revert idx. induction incoming as [|c rest IH]; intros idx; simpl; [discriminate|].
  unfold Py.bind at 1.
  destruct (check_connection _ _ _ _ _ idx c) as [e|[]] eqn:Hc.
  - unfold raise; intros [= ->]. exists 0%nat, c. by rewrite Nat.add_0_r.
  - intros (k & c' & Hk & Hc')%IH. exists (S k), c'.
    split; [done|]. by replace (idx + S k)%nat with (S idx + k)%nat by lia.
Qed.

Lemma check_dests_mismatch groups d :
  check_dests node_defs id_to_node id_to_out_type groups
    = raise (TypeMismatch d) →
  ∃ dest incoming dest_node k c,
    (dest, incoming) ∈ groups
    ∧ id_to_node !! dest = Some dest_node
    ∧ incoming !! k = Some c
    ∧ check_connection node_defs id_to_node id_to_out_type dest
        (tdef_inputs (defs_get node_defs (n_type dest_node))) k c
      = raise (TypeMismatch d).
Proof.
  induction groups as [|[dest incoming] rest IH]; simpl; [discriminate|].
  destruct (id_to_node !! dest) as [dest_node|] eqn:Hd; [|discriminate].
  unfold Py.bind at 1.
  destruct (check_incoming _ _ _ _ _ _ incoming) as [e|[]] eqn:Hi.
  - unfold raise; intros [= ->].
    apply check_incoming_mismatch in Hi as (k & c & Hk & Hc).
    exists dest, incoming, dest_node, k, c. split_and!; try done. left.
  - intros (dest' & inc' & dn' & k & c & Hin & ?)%IH.
    exists dest', inc', dn', k, c. split; [by right|done].
Qed.

End connections.

Lemma setdefault_append_elem to c d k cs x :
  (k, cs) ∈ setdefault_append to c d → x ∈ cs →
  (x = c ∧ k = to) ∨ ∃ cs0, (k, cs0) ∈ d ∧ x ∈ cs0.
Proof.
  induction d as [|[k' cs'] rest IH]; simpl.
  - intros [= -> ->]%list_elem_of_singleton ->%list_elem_of_singleton. by left.
  - case_bool_decide as Hk.
    + intros [[= -> ->]|Hin]%elem_of_cons Hx.
      * apply elem_of_app in Hx as [Hx| ->%list_elem_of_singleton]; [|by left].
        right. exists cs'. split; [left|done].
      * right. exists cs. split; [by right|done].
    + intros [[= -> ->]|Hin]%elem_of_cons Hx.
      * right. exists cs'. split; [left|done].
      * destruct (IH Hin Hx) as [?|(cs0 & ? & ?)]; [by left|].
        right. exists cs0. split; [by right|done].
Qed.

Lemma incoming_by_dest_elem conns dest incoming c :
  (dest, incoming) ∈ incoming_by_dest conns → c ∈ incoming →
  c ∈ conns ∧ c_to c = dest.
Proof.
  unfold incoming_by_dest.
  assert (∀ d0,
    (dest, incoming) ∈ foldl (λ d c, setdefault_append (c_to c) c d) d0 conns →
    c ∈ incoming →
    (c ∈ conns ∧ c_to c = dest) ∨ ∃ cs0, (dest, cs0) ∈ d0 ∧ c ∈ cs0) as H.
  { induction conns as [|c0 rest IH]; simpl; intros d0 Hin Hc.
    - right. eauto.
    - destruct (IH _ Hin Hc) as [[? ?]|(cs0 & Hcs0 & Hc0)].
      + left. split; [by right|done].
      + destruct (setdefault_append_elem _ _ _ _ _ _ Hcs0 Hc0)
          as [[-> ->]|?]; [|by right].
        left. split; [left|done]. }
  intros Hin Hc. destruct (H [] Hin Hc) as [?|(cs0 & Hcs0 & _)]; [done|].
  by apply elem_of_nil in Hcs0.
Qed.

Lemma literal_types_not_mismatch node_defs nodes tbl d :
  literal_types node_defs nodes tbl ≠ raise (TypeMismatch d).
Proof.
  revert tbl. induction nodes as [|n rest IH]; intros tbl; simpl; [discriminate|].
  destruct (negb _); [discriminate|apply IH].
Qed.

Lemma check_endpoints_not_mismatch id_to_node conns d :
  check_endpoints id_to_node conns ≠ raise (TypeMismatch d).
Proof.
  induction conns as [|c rest IH]; simpl; [discriminate|].
  case_bool_decide; [discriminate|apply IH].
Qed.

(** C2. [validate_types] raises a type mismatch exactly on a connection
    whose actual source type is not assignable to its expected destination
    type under the lattice, and the details of the error are [from], [to],
    [toPort], [expected], [actual] and [suggested_cast = expected]:
    (1) [_is_compatible] decides assignability of the canonical types, with
        [int] accepted for [double] and [double] rejected for [int];
    (2) the check of one connection raises the mismatch if and only if both
        types resolve and are not assignable, with exactly those details,
        and accepts the connection when they are assignable;
    (3) a mismatch raised by [validate_types] is the one raised by the check
        of one of its connections. *)
Theorem validate_types_type_mismatch :
  (∀ expected actual,
     _is_compatible expected actual = true
     ↔ assignable (_canonical_type expected) (_canonical_type actual))
  ∧ _is_compatible (Some "double") (Some "int") = true
  ∧ _is_compatible (Some "int") (Some "double") = false
  ∧ (∀ node_defs id_to_node id_to_out_type dest dest_inputs idx c,
       (∀ d,
          check_connection node_defs id_to_node id_to_out_type
            dest dest_inputs idx c = raise (TypeMismatch d)
          ↔ ∃ src expected actual,
              id_to_node !! c_from c = Some src
              ∧ expected_type dest dest_inputs idx (c_toPort c) = inr expected
              ∧ actual_type (c_from c)
                  (tdef_outputs (defs_get node_defs (n_type src)))
                  id_to_out_type (c_fromPort c) = inr actual
              ∧ ¬ assignable (_canonical_type expected) (_canonical_type actual)
              ∧ d = mismatch_of c expected actual)
       ∧ (∀ src expected actual,
            id_to_node !! c_from c = Some src →
            expected_type dest dest_inputs idx (c_toPort c) = inr expected →
            actual_type (c_from c)
              (tdef_outputs (defs_get node_defs (n_type src)))
              id_to_out_type (c_fromPort c) = inr actual →
            assignable (_canonical_type expected) (_canonical_type actual) →
            check_connection node_defs id_to_node id_to_out_type
              dest dest_inputs idx c = inr tt))
  ∧ (∀ nodes node_defs edges d,
       validate_types nodes node_defs edges = raise (TypeMismatch d) →
       mismatch_origin nodes node_defs edges d).
Proof.
  split_and!.
  - apply is_compatible_assignable.
  - apply widening_accepted.
  - apply narrowing_rejected.
  - intros. split.
    + intros d. apply check_connection_mismatch.
    + apply check_connection_accepts.
  - intros nodes node_defs edges d.
    unfold mismatch_origin, validate_types, out_types, Py.bind.
    destruct (literal_types node_defs nodes ∅) as [e|lits] eqn:Hl.
    { unfold raise; intros [= ->]. by apply literal_types_not_mismatch in Hl. }
    destruct (check_endpoints _ _) as [e|[]] eqn:He.
    { unfold raise; intros [= ->]. by apply check_endpoints_not_mismatch in He. }
    destruct (check_dests _ _ _ _) as [e|[]] eqn:Hd; [|discriminate].
    unfold raise; intros [= ->].
    apply check_dests_mismatch in Hd
      as (dest & incoming & dest_node & k & c & Hin & Hdn & Hk & Hc).
    apply list_elem_of_lookup_2 in Hk.
    destruct (incoming_by_dest_elem _ _ _ _ Hin Hk) as [Hcin <-].
    exists (declared_types node_defs nodes lits), c, dest_node, k.
    split_and!; try done;
      apply check_connection_mismatch in Hc
        as (src & expected & actual & _ & _ & _ & Hna & ->); done.
Qed.

Lemma validate_types_type_mismatch_witness :
  validate_types nodes_S_N_A catalog3 edges_S_N_A = raise (TypeMismatch mismatch_S_A)
  ∧ mismatch_origin nodes_S_N_A catalog3 edges_S_N_A mismatch_S_A.
Proof.
  assert (validate_types nodes_S_N_A catalog3 edges_S_N_A
          = raise (TypeMismatch mismatch_S_A)) as H by (vm_compute; reflexivity).
  split; [exact H|].
  exact (proj2 (proj2 (proj2 (proj2 validate_types_type_mismatch)))
           nodes_S_N_A catalog3 edges_S_N_A mismatch_S_A H).
Defined.

(** ** Arity *)

Example validate_types_accepts_three_inputs :
  validate_types nodes3 catalog3 edges3 = inr true.
Proof. vm_compute. reflexivity. Qed.

(** C8, refuted as stated: the [Add] of [nodes3] declares two inputs and
    receives three connections, and [validate_types] accepts the graph. *)
Lemma arity_rule_fails : ¬ arity_rule nodes3 catalog3 edges3.
Proof.
  intros H.
  destruct (H "add1" (mk_node "add1" "Add" VNone [])) as [e He].
  - vm_compute. reflexivity.
  - vm_compute. lia.
  - rewrite validate_types_accepts_three_inputs in He. discriminate.
Qed.

(** C8, amended. [validate_types] does not compare the number of incoming
    connections with the declared arity: a positional connection whose index
    among the incoming connections of its destination is at or beyond the
    arity is checked against the expected type [any], so it never raises a
    type mismatch, and it is accepted as soon as its source type resolves. *)
Theorem positional_overflow_accepted
    (node_defs : gmap string tdef) (id_to_node : gmap string node)
    (id_to_out_type : gmap string (option string))
    (dest : string) (dest_inputs : list port) (idx : nat) (c : conn) :
  truthy (c_toPort c) = false →
  (length dest_inputs ≤ idx)%nat →
  expected_type dest dest_inputs idx (c_toPort c) = inr (Some "any")
  ∧ (∀ d, check_connection node_defs id_to_node id_to_out_type
            dest dest_inputs idx c ≠ raise (TypeMismatch d))
  ∧ (∀ src actual,
       id_to_node !! c_from c = Some src →
       actual_type (c_from c) (tdef_outputs (defs_get node_defs (n_type src)))
         id_to_out_type (c_fromPort c) = inr actual →
       check_connection node_defs id_to_node id_to_out_type
         dest dest_inputs idx c = inr tt).
Proof.
  intros Hport Hidx.
  assert (expected_type dest dest_inputs idx (c_toPort c) = inr (Some "any")) as He.
  { unfold expected_type. rewrite Hport.
    by rewrite (lookup_ge_None_2 dest_inputs idx Hidx). }
  assert (∀ actual, assignable (_canonical_type (Some "any"))
                               (_canonical_type actual)) as Hany.
  { intros actual. by left. }
  split_and!; [done| |].
  - intros d (src & expected & actual & _ & He' & _ & Hna & _)%check_connection_mismatch.
    rewrite He in He'. injection He' as <-. apply Hna, Hany.
  - intros src actual Hs Ha.
    eapply check_connection_accepts; [done..|apply Hany].
Qed.

Lemma positional_overflow_accepted_witness :
  let c := {| c_from := "l3"; c_to := "add1"; c_toPort := None; c_fromPort := None |} in
  let inputs := [number_port "a"; number_port "b"] in
  truthy (c_toPort c) = false
  ∧ (length inputs ≤ 2)%nat
  ∧ expected_type "add1" inputs 2 (c_toPort c) = inr (Some "any").
Proof.
  split; [reflexivity|]. split; [simpl; lia|].
  apply (positional_overflow_accepted catalog3 (id_to_node_of nodes3) ∅
           "add1" [number_port "a"; number_port "b"] 2
           {| c_from := "l3"; c_to := "add1"; c_toPort := None; c_fromPort := None |});
    [reflexivity | simpl; lia].
Defined.

(** ** Emission of literals and variable names *)

Lemma literal_ctype_lit_bool b :
  literal_ctype_lit (VBool b) = ("double", if b then "True" else "False", false).
Proof. by destruct b. Qed.

(** C3, where the code departs from it: a boolean literal takes the branch
    [isinstance(val, int) or isinstance(val, float)] and is bound as a
    [double] holding the text [True]; in the top-level scope the pass for a
    literal raises [NameError] before any line is emitted. *)
Theorem literal_bool_bound_as_double :
  code_lines
    (emit_function_def_Literal in_function locals_of_f
       (mk_node "flag" "Literal" (VBool true) [])).1
  = ["#include <iostream>"; ""; "bool f() {"; "    double v_flag = True;"]
  ∧ (emit_from_graph_Literal_fragments in_main
       (mk_node "flag" "Literal" (VBool true) [])).1
    = literal_fragments "    " "double" "v_flag" "flag" "True"
  ∧ emit_from_graph_Literal in_main (mk_node "flag" "Literal" (VBool true) [])
    = inl (NameError "name").
Proof. split_and!; vm_compute; reflexivity. Qed.

(** For the other kinds of value the type is the one C3 gives. *)
Lemma literal_ctype_lit_other v :
  isinstance_bool v = false →
  (literal_ctype_lit v).1.1 =
    match v with
    | VInt _ | VFloat _ => "double"
    | VStr _ => "std::string"
    | _ => "auto"
    end.
Proof. by destruct v. Qed.

(** C9, where the code departs from it: the ids [a.b] and [a_b] share the
    base [v_a_b], so the second is named [v_a_b_1], which is also the bare
    base of the id [a_b_1]. Three [Add] nodes with these ids are bound to
    two names only. *)
Theorem make_var_reuses_a_name :
  make_vars ["a.b"; "a_b"; "a_b_1"] = ["v_a_b"; "v_a_b_1"; "v_a_b_1"]
  ∧ local_make_vars ["a.b"; "a_b"; "a_b_1"] = ["v_a_b"; "v_a_b_1"; "v_a_b_1"]
  ∧ code_lines
      (foldl (λ self n, emit_from_graph_arith self n "+") in_main
         [ mk_node "a.b" "Add" VNone []; mk_node "a_b" "Add" VNone [];
           mk_node "a_b_1" "Add" VNone [] ])
    = [ "#include <iostream>"; ""; "int main() {";
        "    double v_a_b = 0 + 0;";
        "    double v_a_b_1 = 0 + 0;";
        "    double v_a_b_1 = 0 + 0;" ].
Proof. split_and!; vm_compute; reflexivity. Qed.

(** ** Spans of the operands of an arithmetic node *)

Section strings.

Lemma str_app_cons x a b : String x a +:+ b = String x (a +:+ b).
Proof. reflexivity. Qed.

Lemma str_app_nil_l b : "" +:+ b = b.
Proof. reflexivity. Qed.

Lemma str_length_app a b :
  String.length (a +:+ b) = (String.length a + String.length b)%nat.
Proof.
  induction a as [|c a IH]; [done|].
  rewrite str_app_cons. cbn [String.length]. by rewrite IH.
Qed.

Lemma str_app_assoc a b c : (a +:+ b) +:+ c = a +:+ (b +:+ c).
Proof.
  induction a as [|x a IH]; [done|]. by rewrite !str_app_cons, IH.
Qed.

Lemma str_app_nil_r a : a +:+ "" = a.
Proof.
  induction a as [|x a IH]; [done|]. by rewrite str_app_cons, IH.
Qed.

Lemma substring_prefix a r : substring 0 (String.length a) (a +:+ r) = a.
Proof.
  induction a as [|x a IH].
  - by destruct r.
  - rewrite str_app_cons. cbn [String.length substring]. by rewrite IH.
Qed.

Lemma substring_middle p a r :
  substring (String.length p) (String.length a) (p +:+ a +:+ r) = a.
Proof.
  induction p as [|x p IH]; [exact (substring_prefix a r)|].
  rewrite str_app_cons. cbn [String.length substring]. apply IH.
Qed.

Lemma columns_middle p a r :
  columns (p +:+ a +:+ r)
    (Z.of_nat (String.length p) + 1)
    (Z.of_nat (String.length p) + Z.of_nat (String.length a)) = a.
Proof.
  unfold columns.
  replace (Z.to_nat (Z.of_nat (String.length p) + 1 - 1)) with (String.length p) by lia.
  replace (Z.to_nat _) with (String.length a) by lia.
  apply substring_middle.
Qed.

End strings.

Lemma emit_arith_fragments self function ind var nid a op b a_port b_port :
  let line_no := S (length (code_lines self)) in
  emit_line_with_fragments self
    (arith_fragments ind var nid a op b a_port b_port) function
  = (line_no,
     set_mapping
       (mapping self ++
          [span_a function line_no ind var nid a a_port;
           span_b function line_no ind var nid a op b b_port])
       (set_code_lines (code_lines self ++ [arith_line ind var a op b]) self)).
Proof.
  unfold emit_line_with_fragments, arith_fragments, arith_line, join. simpl.
  rewrite !length_app. simpl.
  replace (length (code_lines self) + 1)%nat with (S (length (code_lines self))) by lia.
  unfold span_a, span_b.
  rewrite !str_app_assoc, !str_app_nil_r. simpl.
  rewrite !str_length_app. simpl.
  repeat match goal with
         | |- Some _ = Some _ => f_equal; lia
         | |- _ => progress f_equal
         end.
Qed.

Lemma spans_are_operand_spans function line_no ind var nid a op b a_port b_port :
  operand_spans nid (Z.of_nat line_no) (arith_line ind var a op b)
    (or_else a_port "a") (or_else b_port "b") a b
    (span_a function line_no ind var nid a a_port)
    (span_b function line_no ind var nid a op b b_port).
Proof.
  unfold operand_spans, span_a, span_b. simpl. split_and!; try done.
  set (p := ind +:+ "double " +:+ var +:+ " = ").
  eexists _, _, _, _. split_and!; try done.
  - rewrite !str_length_app. simpl. intros [= ? ?]. lia.
  - lia.
  - rewrite !str_length_app. simpl. lia.
  - replace (arith_line ind var a op b)
      with (p +:+ a +:+ (" " +:+ op +:+ " " +:+ b +:+ ";")).
    + apply columns_middle.
    + unfold arith_line, p. by rewrite !str_app_assoc.
  - replace (arith_line ind var a op b)
      with ((p +:+ a +:+ " " +:+ op +:+ " ") +:+ b +:+ ";").
    + apply columns_middle.
    + unfold arith_line, p. by rewrite !str_app_assoc.
Qed.

Lemma ensure_lib_includes_fields self t :
  let self' := ensure_lib_includes self t in
  node_defs self' = node_defs self ∧ code_lines self' = code_lines self
  ∧ indent_level self' = indent_level self ∧ var_names self' = var_names self
  ∧ _used_names self' = _used_names self ∧ mapping self' = mapping self
  ∧ incoming_by_node self' = incoming_by_node self
  ∧ incoming_list_by_node self' = incoming_list_by_node self.
Proof.
  unfold ensure_lib_includes.
  destruct (td_lib _) as [lib|]; [destruct (truthy _)|]; done.
Qed.

Lemma arith_sources_ensure self t n lmap llist :
  arith_sources (ensure_lib_includes self t) n lmap llist
  = arith_sources self n lmap llist.
Proof.
  destruct (ensure_lib_includes_fields self t) as (Hd & _ & _ & _ & _ & _ & Hi & Hl).
  unfold arith_sources, _resolve_input_for_node. by rewrite Hd, Hi, Hl.
Qed.

(** What the pass for an arithmetic node leaves behind, in the top-level
    scope and in a function scope. *)
Lemma emit_from_graph_arith_spec self n op :
  let nid := n_id n in
  let a := operand_expr (var_names self) (operand_source self n ∅ ∅ 0) in
  let b := operand_expr (var_names self) (operand_source self n ∅ ∅ 1) in
  let pa := (arith_sources self n ∅ ∅).2.1 in
  let pb := (arith_sources self n ∅ ∅).2.2 in
  let var := (alloc ("v_" +:+ sanitize nid) (_used_names self)).1 in
  let line_no := S (length (code_lines self)) in
  let self' := emit_from_graph_arith self n op in
  code_lines self' = code_lines self ++ [arith_line (indent self) var a op b]
  ∧ mapping self' =
      mapping self ++
        [ span_a None line_no (indent self) var nid a pa;
          span_b None line_no (indent self) var nid a op b pb;
          {| m_node_id := nid; m_function := None;
             m_start_line := Z.of_nat line_no; m_end_line := Z.of_nat line_no;
             m_start_col := None; m_end_col := None; m_port := None |} ]
  ∧ var_names self' = <[nid := var]> (var_names self).
Proof.
  intros nid a b pa pb var line_no self'.
  subst self' a b pa pb. unfold emit_from_graph_arith, operand_source.
  rewrite arith_sources_ensure.
  destruct (ensure_lib_includes_fields self (n_type n))
    as (Hd & Hc & Hil & Hv & Hu & Hm & Hi & Hl).
  destruct (arith_sources self n ∅ ∅) as [[a_src b_src] [a_port b_port]].
  unfold make_var. rewrite Hu, Hv. fold nid.
  destruct (alloc ("v_" +:+ sanitize nid) (_used_names self)) as [v used] eqn:Ha.
  subst var line_no. rewrite emit_arith_fragments.
  unfold record_map, indent. simpl. rewrite Hc, Hm, Hil, Hv.
  rewrite !length_app. simpl. rewrite <- !app_assoc. simpl.
  replace (Z.of_nat (length (code_lines self)) + 1)
    with (Z.of_nat (S (length (code_lines self)))) by lia.
  replace (length (code_lines self) + 1)%nat
    with (S (length (code_lines self))) by lia.
  done.
Qed.

Lemma emit_function_def_arith_spec self sc n op :
  let nid := n_id n in
  let lmap := local_incoming_map sc in
  let llist := local_incoming_list sc in
  let a := operand_expr (local_var_names sc) (operand_source self n lmap llist 0) in
  let b := operand_expr (local_var_names sc) (operand_source self n lmap llist 1) in
  let pa := (arith_sources self n lmap llist).2.1 in
  let pb := (arith_sources self n lmap llist).2.2 in
  let var := (alloc ("v_" +:+ sub_nonword nid) (local_used_names sc)).1 in
  let line_no := S (length (code_lines self)) in
  let self' := (emit_function_def_arith self sc n op).1 in
  let sc' := (emit_function_def_arith self sc n op).2 in
  code_lines self' = code_lines self ++ [arith_line (indent self) var a op b]
  ∧ mapping self' =
      mapping self ++
        [ span_a (name sc) line_no (indent self) var nid a pa;
          span_b (name sc) line_no (indent self) var nid a op b pb;
          {| m_node_id := nid; m_function := name sc;
             m_start_line := Z.of_nat line_no; m_end_line := Z.of_nat line_no;
             m_start_col := None; m_end_col := None; m_port := None |} ]
  ∧ local_var_names sc' = <[nid := var]> (local_var_names sc).
Proof.
  intros nid lmap llist a b pa pb var line_no self' sc'.
  subst self' sc' a b pa pb. unfold emit_function_def_arith, operand_source.
  fold lmap llist.
  destruct (arith_sources self n lmap llist) as [[a_src b_src] [a_port b_port]].
  unfold local_make_var. fold nid.
  destruct (alloc ("v_" +:+ sub_nonword nid) (local_used_names sc)) as [v used] eqn:Ha.
  subst var line_no. rewrite emit_arith_fragments.
  unfold record_map, indent. simpl.
  rewrite !length_app. simpl. rewrite <- !app_assoc. simpl.
  replace (Z.of_nat (length (code_lines self)) + 1)
    with (Z.of_nat (S (length (code_lines self)))) by lia.
  replace (length (code_lines self) + 1)%nat
    with (S (length (code_lines self))) by lia.
  done.
Qed.

Lemma arith_sources_ports self n lmap llist :
  (arith_sources self n lmap llist).2
  = (operand_port_name self n 0, operand_port_name self n 1).
Proof.
  unfold arith_sources, operand_port_name.
  by destruct (tdef_inputs _) as [|pa [|pb rest]].
Qed.

Lemma two_spans_recorded function line_no ind var nid a op b pa pb lines entries :
  records_two_spans nid (lines ++ [arith_line ind var a op b])
    (entries ++
       [ span_a function (S (length lines)) ind var nid a pa;
         span_b function (S (length lines)) ind var nid a op b pb;
         {| m_node_id := nid; m_function := function;
            m_start_line := line_no; m_end_line := line_no;
            m_start_col := None; m_end_col := None; m_port := None |} ])
    (or_else pa "a") (or_else pb "b") a b.
Proof.
  eexists _, _, _. split_and!.
  - apply last_snoc.
  - apply elem_of_app. right. left.
  - apply elem_of_app. right. right. left.
  - rewrite length_app. simpl.
    replace (length lines + 1)%nat with (S (length lines)) by lia.
    apply spans_are_operand_spans.
Qed.

(** The pass for an [Add], [Sub], [Mul] or [Div] node, taken alone from
    any state of the emitter: a node whose two operands resolve to the same
    source leaves, on the line it emits, two mapping entries for that node,
    one per operand port: both on that line, with different column ranges
    of which the first ends before the second begins, and each covering one
    occurrence of the (same) operand text. This holds of the pass of the
    top-level scope and of the pass of a function scope. *)
Theorem duplicate_operand_spans :
  (∀ self n op,
     arith_op (n_type n) = Some op →
     operand_source self n ∅ ∅ 0 = operand_source self n ∅ ∅ 1 →
     let self' := emit_from_graph_arith self n op in
     let a := operand_expr (var_names self) (operand_source self n ∅ ∅ 0) in
     records_two_spans (n_id n) (code_lines self') (mapping self')
       (operand_port self n 0) (operand_port self n 1) a a)
  ∧ (∀ self sc n op,
       arith_op (n_type n) = Some op →
       let lmap := local_incoming_map sc in
       let llist := local_incoming_list sc in
       operand_source self n lmap llist 0 = operand_source self n lmap llist 1 →
       let self' := (emit_function_def_arith self sc n op).1 in
       let a := operand_expr (local_var_names sc)
                  (operand_source self n lmap llist 0) in
       records_two_spans (n_id n) (code_lines self') (mapping self')
         (operand_port self n 0) (operand_port self n 1) a a).
Proof.
  split.
  - intros self n op _ Hsame self' a.
    destruct (emit_from_graph_arith_spec self n op) as (Hl & Hm & _).
    fold self' in Hl, Hm. rewrite Hl, Hm, <- Hsame. fold a.
    rewrite arith_sources_ports. apply two_spans_recorded.
  - intros self sc n op _ lmap llist Hsame self' a.
    destruct (emit_function_def_arith_spec self sc n op) as (Hl & Hm & _).
    fold self' lmap llist in Hl, Hm. rewrite Hl, Hm, <- Hsame. fold a.
    rewrite arith_sources_ports. apply two_spans_recorded.
Qed.

Lemma duplicate_operand_spans_witness :
  arith_op (n_type add_l1_l1) = Some "+"
  ∧ operand_source in_main_l1 add_l1_l1 ∅ ∅ 0
    = operand_source in_main_l1 add_l1_l1 ∅ ∅ 1
  ∧ records_two_spans "add1"
      (code_lines (emit_from_graph_arith in_main_l1 add_l1_l1 "+"))
      (mapping (emit_from_graph_arith in_main_l1 add_l1_l1 "+"))
      "a" "b" "v_l1" "v_l1".
Proof.
  split; [reflexivity|]. split; [vm_compute; reflexivity|].
  apply (proj1 duplicate_operand_spans in_main_l1 add_l1_l1 "+");
    vm_compute; reflexivity.
Defined.

Example duplicate_operand_line :
  let self' := emit_from_graph_arith in_main_l1 add_l1_l1 "+" in
  last (code_lines self') = Some "    double v_add1 = v_l1 + v_l1;"
  ∧ map (λ e, (m_port e, m_start_line e, m_start_col e, m_end_col e)) (mapping self')
    = [ (Some "a", 4, Some 21, Some 24); (Some "b", 4, Some 28, Some 31);
        (None, 4, None, None) ].
Proof. vm_compute. split; reflexivity. Qed.

(** ** Operands that cannot be resolved *)

Lemma unresolvable_source self lmap llist n i :
  (i = 0 ∨ i = 1)%nat →
  unresolvable self lmap llist n i →
  operand_source self n lmap llist i = None.
Proof.
  intros Hi (Hnamed & [Hp1 Hp2] & Hin).
  assert (_resolve_input_for_node self n None (Some i) lmap llist = None) as Hpos.
  { unfold _resolve_input_for_node. simpl. by rewrite Hp1, Hp2. }
  assert (∀ pn, operand_port_name self n i = pn →
            _resolve_input_for_node self n pn (Some i) lmap llist = None) as Hnm.
  { intros [pn|] Hpn; [|done].
    unfold _resolve_input_for_node. simpl. rewrite Hp1, Hp2.
    destruct (bool_decide_reflect (pn = "")) as [->|Hne]; simpl; [done|].
    destruct (Hnamed pn Hpn Hne) as [-> ->]. done. }
  unfold operand_source, arith_sources.
  unfold operand_port_name in Hnm.
  destruct (tdef_inputs _) as [|pa [|pb rest]];
    destruct Hi as [-> | ->]; cbv beta iota zeta;
    rewrite ?(Hnm _ eq_refl), ?Hpos; cbv beta iota zeta;
    repeat (rewrite ?Hpos; case_bool_decide; try done).
Qed.

Lemma operand_expr_text self names lmap llist n i :
  (i = 0 ∨ i = 1)%nat →
  operand_text self names lmap llist n i
    (operand_expr names (operand_source self n lmap llist i)).
Proof.
  intros Hi. split_and!.
  - intros Hu. by rewrite (unresolvable_source _ _ _ _ _ Hi Hu).
  - intros s -> Hs Hn. simpl. rewrite Hn. simpl.
    by rewrite bool_decide_false.
  - intros s v -> Hn. simpl. by rewrite Hn.
Qed.

(** C10. The pass for an [Add], [Sub], [Mul] or [Div] node always emits
    its line [double var = a op b;] (it raises nothing, in either scope),
    and in that line an operand that cannot be resolved by port name, by
    positional edge or by the [inputs] list is the token [0]; an operand
    whose source id resolves but has no bound variable is that id. *)
Theorem unresolved_operand_is_zero :
  (∀ self n op,
     arith_op (n_type n) = Some op →
     ∃ var a b,
       last (code_lines (emit_from_graph_arith self n op))
         = Some (arith_line (indent self) var a op b)
       ∧ operand_text self (var_names self) ∅ ∅ n 0 a
       ∧ operand_text self (var_names self) ∅ ∅ n 1 b)
  ∧ (∀ self sc n op,
       arith_op (n_type n) = Some op →
       ∃ var a b,
         last (code_lines (emit_function_def_arith self sc n op).1)
           = Some (arith_line (indent self) var a op b)
         ∧ operand_text self (local_var_names sc)
             (local_incoming_map sc) (local_incoming_list sc) n 0 a
         ∧ operand_text self (local_var_names sc)
             (local_incoming_map sc) (local_incoming_list sc) n 1 b).
Proof.
  split.
  - intros self n op _.
    destruct (emit_from_graph_arith_spec self n op) as (Hl & _ & _).
    eexists _, _, _. rewrite Hl, last_snoc.
    split_and!; [done|apply operand_expr_text; auto..].
  - intros self sc n op _.
    destruct (emit_function_def_arith_spec self sc n op) as (Hl & _ & _).
    eexists _, _, _. rewrite Hl, last_snoc.
    split_and!; [done|apply operand_expr_text; auto..].
Qed.

Lemma unresolved_operand_is_zero_witness :
  arith_op (n_type add_nothing) = Some "+"
  ∧ ∃ var a b,
      last (code_lines (emit_from_graph_arith in_main add_nothing "+"))
        = Some (arith_line (indent in_main) var a "+" b)
      ∧ operand_text in_main (var_names in_main) ∅ ∅ add_nothing 0 a
      ∧ operand_text in_main (var_names in_main) ∅ ∅ add_nothing 1 b.
Proof.
  split; [reflexivity|].
  apply (proj1 unresolved_operand_is_zero in_main add_nothing "+"). reflexivity.
Defined.

Example unresolved_operands_line :
  unresolvable in_main ∅ ∅ add_nothing 0 ∧ unresolvable in_main ∅ ∅ add_nothing 1
  ∧ last (code_lines (emit_from_graph_arith in_main add_nothing "+"))
    = Some "    double v_add0 = 0 + 0;".
Proof.
  split_and!; [| |vm_compute; reflexivity];
    (split_and!; [intros pn [=]|split; vm_compute; reflexivity|reflexivity]).
Qed.

(** ** Mapping diagnostics back to nodes *)

Section sorting.

Context {A : Type} (leb : A → A → bool).
Hypothesis leb_total : ∀ x y, leb x y = true ∨ leb y x = true.
Hypothesis leb_trans : ∀ x y z, leb x y = true → leb y z = true → leb x z = true.

Lemma insert_by_not_nil x l : insert_by leb x l ≠ [].
Proof. destruct l as [|y r]; simpl; [done|]. by destruct (leb x y). Qed.

Lemma sort_by_nil l : sort_by leb l = [] → l = [].
Proof.
  destruct l as [|a l]; [done|]. simpl. intros H.
  by apply insert_by_not_nil in H.
Qed.

(** The head of the sorted list is a least element of the list. *)
Lemma sort_by_head l x r :
  sort_by leb l = x :: r → x ∈ l ∧ ∀ y, y ∈ l → leb x y = true.
Proof.
  revert x r. induction l as [|a l IH]; intros x r; simpl; [done|].
  destruct (sort_by leb l) as [|x' r'] eqn:Hs.
  - apply sort_by_nil in Hs as ->. simpl. intros [= <- <-]. split; [left|].
    intros y ->%list_elem_of_singleton. by destruct (leb_total a a).
  - destruct (IH x' r' eq_refl) as [Hin Hmin]. simpl.
    destruct (leb a x') eqn:Hax; intros [= <- <-].
    + split; [left|]. intros y [->|Hy]%elem_of_cons.
      * by destruct (leb_total a a).
      * eauto.
    + split; [by right|]. intros y [->|Hy]%elem_of_cons; [|by eauto].
      destruct (leb_total x' a); congruence.
Qed.

End sorting.

Lemma filter_none {A} (P : A → Prop) `{!∀ x, Decision (P x)} (l : list A) :
  (∀ x, x ∈ l → ¬ P x) → filter P l = [].
Proof.
  intros Hnot. destruct (filter P l) as [|x r] eqn:Hf; [done|].
  assert (x ∈ filter P l) as [Hx Hin]%list_elem_of_filter by (rewrite Hf; left).
  by destruct (Hnot x Hin).
Qed.

Lemma pair_leb_lex a b : pair_leb a b = true ↔ lex_le a b.
Proof. unfold pair_leb, lex_le. destruct a, b. simpl. lia. Qed.

Lemma col_match_encloses e line col :
  one_based e → (col_match line col e = true ↔ encloses e line col).
Proof.
  intros [Hl Hc]. unfold col_match, encloses, truthy_int.
  destruct (m_start_col e) as [scol|], (m_end_col e) as [ecol|]; split.
  - intros H. split; [lia|]. exists scol, ecol. split_and!; try done; lia.
  - intros [? (sc & ec & [= <-] & [= <-] & ?)]. specialize (Hc _ eq_refl). lia.
  - intros H. lia.
  - intros [? (sc & ec & _ & [=] & ?)].
  - intros H. lia.
  - intros [? (sc & ec & [=] & _ & ?)].
  - intros H. lia.
  - intros [? (sc & ec & [=] & _ & ?)].
Qed.

Lemma line_match_contains e line :
  one_based e → (line_match line e = true ↔ contains_line e line).
Proof. intros [Hl _]. unfold line_match, contains_line, truthy_int. lia. Qed.

Lemma colMatches_nil mapping err :
  Forall one_based mapping →
  no_column_match mapping err →
  match err_col err with
  | Some col => filter (λ m, col_match (err_line err) col m) mapping
  | None => []
  end = [].
Proof.
  intros Hone Hno. destruct (err_col err) as [col|] eqn:Hcol; [|done].
  apply filter_none. intros e He Hm%Is_true_true.
  rewrite Forall_forall in Hone.
  apply (col_match_encloses e _ _ (Hone e He)) in Hm. by eapply Hno.
Qed.

(** The sort keys of the mapper are the spans. *)
Lemma col_key_area e line col : encloses e line col → col_key e = area e.
Proof.
  intros [_ (scol & ecol & Hs & He & _)].
  unfold col_key, area, line_span, col_span. by rewrite Hs, He.
Qed.

Lemma line_key_span e : line_key e = line_span e.
Proof. reflexivity. Qed.

(** An entry whose lines count from 0 is passed over: the position (3, 5)
    lies in the one entry of the table, and the result has no node id. *)
Theorem map_error_to_node_skips_line_zero :
  (∃ e, e ∈ mapping_from_zero ∧ encloses e 3 5)
  ∧ mp_node_id (map_error_to_node mapping_from_zero (error_at 3 (Some 5))) = None
  ∧ ¬ resolution_rule mapping_from_zero (error_at 3 (Some 5))
        (map_error_to_node mapping_from_zero (error_at 3 (Some 5))).
Proof.
  assert (∃ e, e ∈ mapping_from_zero ∧ encloses e 3 5) as Hex.
  { eexists. split; [left|]. unfold encloses. simpl. split; [lia|].
    exists 1, 9. split_and!; [done..|lia]. }
  split_and!; [done|reflexivity|].
  intros [Hcol _]. destruct (Hcol 5 eq_refl Hex) as (e & _ & _ & [Hid _] & _).
  vm_compute in Hid. discriminate.
Qed.

(** C7, amended. Error-to-node resolution against a mapping table whose
    entries are 1-based follows the rule [resolution_rule]: when the
    diagnostic has a column and some entry encloses its position, the
    result is taken from an enclosing entry whose (line-span, col-span) is
    least among the enclosing entries; otherwise, when the line range of
    some entry contains the line, from such an entry of least line-span;
    otherwise it has no node id. *)
Theorem map_error_to_node_innermost (mapping : list map_entry) (err : diagnostic) :
  Forall one_based mapping →
  resolution_rule mapping err (map_error_to_node mapping err).
Proof.
  intros Hone. unfold resolution_rule.
  set (r := map_error_to_node mapping err). set (line := err_line err).
  rewrite Forall_forall in Hone.
  assert (∀ x y, pair_leb (col_key x) (col_key y) = true
                 ∨ pair_leb (col_key y) (col_key x) = true) as Htot.
  { intros x y. rewrite !pair_leb_lex. unfold lex_le. lia. }
  assert (∀ x y z, pair_leb (col_key x) (col_key y) = true →
                   pair_leb (col_key y) (col_key z) = true →
                   pair_leb (col_key x) (col_key z) = true) as Htr.
  { intros x y z. rewrite !pair_leb_lex. unfold lex_le. lia. }
  assert (∀ x y : map_entry, (line_key x <=? line_key y) = true
                 ∨ (line_key y <=? line_key x) = true) as Htot'.
  { intros x y. lia. }
  assert (∀ x y z : map_entry, (line_key x <=? line_key y) = true →
                   (line_key y <=? line_key z) = true →
                   (line_key x <=? line_key z) = true) as Htr'.
  { intros x y z. lia. }
  split_and!.
  - intros col Hcol (e0 & He0 & Henc0). subst r. unfold map_error_to_node.
    rewrite Hcol. fold line.
    destruct (sort_by _ (filter _ mapping)) as [|node rest] eqn:Hs.
    { apply sort_by_nil in Hs.
      assert (e0 ∈ filter (λ m, col_match line col m) mapping) as Hin.
      { apply list_elem_of_filter. split; [|done].
        apply Is_true_true, col_match_encloses; auto. }
      rewrite Hs in Hin. by apply elem_of_nil in Hin. }
    apply (sort_by_head _ Htot Htr) in Hs as [Hin Hmin].
    apply list_elem_of_filter in Hin as [Hm Hin].
    exists node. split_and!; [done| |done|].
    + apply col_match_encloses; auto. by apply Is_true_true.
    + intros e' He' Henc'.
      assert (encloses node line col) as Henc
        by (apply col_match_encloses; auto; by apply Is_true_true).
      rewrite <- (col_key_area _ _ _ Henc), <- (col_key_area _ _ _ Henc').
      apply pair_leb_lex, Hmin.
      apply list_elem_of_filter. split; [|done].
      apply Is_true_true, col_match_encloses; auto.
  - intros Hno (e0 & He0 & Hc0). subst r. unfold map_error_to_node.
    rewrite (colMatches_nil mapping err); [|by apply Forall_forall|done].
    simpl. fold line.
    destruct (sort_by _ (filter _ mapping)) as [|node rest] eqn:Hs.
    { apply sort_by_nil in Hs.
      assert (e0 ∈ filter (λ m, line_match line m) mapping) as Hin.
      { apply list_elem_of_filter. split; [|done].
        apply Is_true_true, line_match_contains; auto. }
      rewrite Hs in Hin. by apply elem_of_nil in Hin. }
    apply (sort_by_head _ Htot' Htr') in Hs as [Hin Hmin].
    apply list_elem_of_filter in Hin as [Hm Hin].
    exists node. split_and!; [done| |done|].
    + apply line_match_contains; auto. by apply Is_true_true.
    + intros e' He' Hc'. rewrite <- !line_key_span. apply Z.leb_le, Hmin.
      apply list_elem_of_filter. split; [|done].
      apply Is_true_true, line_match_contains; auto.
  - intros Hno Hnone. subst r. unfold map_error_to_node.
    rewrite (colMatches_nil mapping err); [|by apply Forall_forall|done].
    simpl. fold line.
    replace (filter (λ m, line_match line m) mapping) with (@nil map_entry); [done|].
    symmetry. apply filter_none. intros e He Hm%Is_true_true.
    apply (line_match_contains e _ (Hone e He)) in Hm. by eapply Hnone.
Qed.

Lemma mapping_add1_one_based : Forall one_based mapping_add1.
Proof. repeat constructor; simpl; try lia; intros ? [= <-]; lia. Defined.

Lemma map_error_to_node_innermost_witness :
  Forall one_based mapping_add1
  ∧ resolution_rule mapping_add1 (error_at 4 (Some 22))
      (map_error_to_node mapping_add1 (error_at 4 (Some 22))).
Proof.
  split; [exact mapping_add1_one_based|].
  exact (map_error_to_node_innermost mapping_add1 (error_at 4 (Some 22))
           mapping_add1_one_based).
Defined.

Example map_errors_to_nodes_add1 :
  map (λ r, (mp_node_id r, mp_port r))
    (map_errors_to_nodes
       [error_at 4 (Some 22); error_at 4 (Some 26); error_at 4 None;
        error_at 9 (Some 1)]
       mapping_add1)
  = [ (Some "add1", Some "a"); (Some "add1", None); (Some "add1", Some "a");
      (None, None) ].
Proof. vm_compute. reflexivity. Qed.

(** ** Normalization of the IR *)

Lemma ids_of_normalize_ir i : ids_of (normalize_ir i) = ids_of i.
Proof.
  unfold ids_of, normalize_ir.
  destruct (nonempty (ir_edges i)); [destruct (maps_of_edges _ _)|];
    simpl; rewrite map_map; by apply map_ext.
Qed.

Lemma dedup_edges_elem seen edges e : e ∈ dedup_edges seen edges → e ∈ edges.
Proof.
  revert seen. induction edges as [|x r IH]; intros seen; simpl; [done|].
  case_bool_decide.
  - intros ?%IH. by right.
  - intros [->|?%IH]%elem_of_cons; [left|by right].
Qed.

Lemma edges_of_inputs_elem node_ids nodes e :
  e ∈ edges_of_inputs node_ids nodes →
  e_from e ∈ node_ids ∧ e_to e ∈ map n_id nodes.
Proof.
  unfold edges_of_inputs. rewrite list_elem_of_In, in_flat_map.
  intros (n & Hn%list_elem_of_In & He%list_elem_of_In).
  apply list_elem_of_fmap in He as (inp & -> & Hinp).
  apply list_elem_of_filter in Hinp as [Hinp _]. simpl. split; [done|].
  apply list_elem_of_fmap. eauto.
Qed.

Lemma append_new_elem x y l : y ∈ append_new x l → y = x ∨ y ∈ l.
Proof.
  unfold append_new. case_bool_decide; [by right|].
  intros [?| ->%list_elem_of_singleton]%elem_of_app; auto.
Qed.

Lemma lists_within_empty node_ids : lists_within node_ids (empty_lists node_ids).
Proof.
  intros k l x. unfold empty_lists. rewrite lookup_gset_to_gmap_Some.
  intros [_ <-] Hx. by apply elem_of_nil in Hx.
Qed.

Lemma lists_within_add_to node_ids d k x :
  x ∈ node_ids → lists_within node_ids d → lists_within node_ids (add_to k x d).
Proof.
  intros Hx Hd k' l y. unfold add_to. rewrite lookup_insert.
  case_decide as Hk.
  - intros [= <-] [->|Hy]%append_new_elem; [done|].
    destruct (d !! k) as [l0|] eqn:Hl; simpl in Hy; [by eapply Hd|].
    by apply elem_of_nil in Hy.
  - apply Hd.
Qed.

Lemma maps_of_edges_within node_ids edges :
  lists_within node_ids (maps_of_edges node_ids edges).1
  ∧ lists_within node_ids (maps_of_edges node_ids edges).2.
Proof.
  unfold maps_of_edges.
  generalize (lists_within_empty node_ids).
  generalize (empty_lists node_ids) at 1 3 5.
  generalize (lists_within_empty node_ids).
  generalize (empty_lists node_ids).
  intros im Him om Hom. revert im om Him Hom.
  induction edges as [|e r IH]; intros im om Him Hom; simpl; [done|].
  case_bool_decide as Hv; [by apply IH|].
  apply IH; apply lists_within_add_to; try done;
    destruct (decide (e_from e ∈ node_ids)), (decide (e_to e ∈ node_ids)); tauto.
Qed.

(** C5, refuted as stated: with a non-empty edge list the edge to the
    missing node [ghost] is still in the edge list after normalization. *)
Lemma normalize_ir_keeps_dangling_edge :
  ¬ known_endpoints (normalize_ir ir_dangling).
Proof.
  intros H. destruct (H (positional "a" "ghost")) as [_ Hto].
  - vm_compute. left.
  - vm_compute in Hto. apply list_elem_of_singleton in Hto. discriminate.
Qed.

(** C5, amended. When the edge list is empty, every edge synthesized by
    normalization joins two nodes of the IR. When it is not, normalization
    leaves the edge list as it is; the edges with an unknown endpoint are
    skipped while the [inputs] and [outputs] lists are rebuilt, so none of
    these lists references an absent node. *)
Theorem normalize_ir_endpoints (i : ir) :
  (ir_edges i = [] → known_endpoints (normalize_ir i))
  ∧ (ir_edges i ≠ [] →
     ir_edges (normalize_ir i) = ir_edges i
     ∧ known_neighbours (normalize_ir i)).
Proof.
  split.
  - intros Hnil e. rewrite ids_of_normalize_ir.
    unfold normalize_ir. rewrite Hnil. simpl.
    intros [Hf Ht]%dedup_edges_elem%edges_of_inputs_elem.
    split; [|done]. by apply elem_of_list_to_set in Hf.
  - intros Hne. unfold known_neighbours. rewrite ids_of_normalize_ir.
    unfold normalize_ir.
    destruct (ir_edges i) as [|e0 r] eqn:He; [done|]. simpl nonempty. cbv iota.
    rewrite <- He.
    destruct (maps_of_edges_within (list_to_set (map n_id (ir_nodes i))) (ir_edges i))
      as [Him Hom].
    destruct (maps_of_edges _ _) as [im om]. simpl in *. split; [done|].
    intros n x (n0 & -> & Hn0)%list_elem_of_fmap Hx. simpl in Hx.
    apply (elem_of_list_to_set (C := gset string)).
    destruct Hx as [Hx|Hx].
    + destruct (im !! n_id n0) as [l|] eqn:Hl; simpl in Hx; [by eapply Him|].
      by apply elem_of_nil in Hx.
    + destruct (om !! n_id n0) as [l|] eqn:Hl; simpl in Hx; [by eapply Hom|].
      by apply elem_of_nil in Hx.
Qed.

Lemma normalize_ir_endpoints_witness :
  ir_edges ir_l1_twice = []
  ∧ known_endpoints (normalize_ir ir_l1_twice)
  ∧ ir_edges ir_dangling ≠ []
  ∧ known_neighbours (normalize_ir ir_dangling).
Proof.
  split; [reflexivity|]. split.
  - apply (proj1 (normalize_ir_endpoints ir_l1_twice)). reflexivity.
  - split; [discriminate|].
    apply (proj2 (normalize_ir_endpoints ir_dangling)). discriminate.
Defined.

(** *** Idempotence *)

Lemma normalize_ir_present i :
  ir_edges i ≠ [] →
  normalize_ir i =
    {| ir_imports := ir_imports i;
       ir_nodes := map (rebuilt (list_to_set (ids_of i)) (ir_edges i)) (ir_nodes i);
       ir_edges := ir_edges i |}.
Proof.
  intros Hne. unfold normalize_ir, rebuilt, ids_of.
  destruct (ir_edges i) as [|e r]; [done|]. simpl nonempty. cbv iota.
  by destruct (maps_of_edges _ _).
Qed.

Lemma normalize_ir_absent i :
  ir_edges i = [] →
  normalize_ir i =
    {| ir_imports := ir_imports i;
       ir_nodes := map (with_outputs (list_to_set (ids_of i)) (synthesized i))
                       (ir_nodes i);
       ir_edges := synthesized i |}.
Proof. intros Hnil. unfold normalize_ir. by rewrite Hnil. Qed.

Lemma edges_of_inputs_same node_ids (g : node → node) nodes :
  (∀ n, n_id (g n) = n_id n ∧ n_inputs (g n) = n_inputs n) →
  edges_of_inputs node_ids (map g nodes) = edges_of_inputs node_ids nodes.
Proof.
  intros Hg. unfold edges_of_inputs.
  induction nodes as [|n r IH]; simpl; [done|].
  destruct (Hg n) as [-> ->]. by rewrite IH.
Qed.

Lemma maps_of_edges_valid node_ids edges :
  (∀ e, e ∈ edges → e_from e ∈ node_ids ∧ e_to e ∈ node_ids) →
  maps_of_edges node_ids edges =
    (foldl (λ im e, add_to (e_to e) (e_from e) im) (empty_lists node_ids) edges,
     outputs_of_edges node_ids edges).
Proof.
  unfold maps_of_edges, outputs_of_edges.
  generalize (empty_lists node_ids) at 1 3.
  generalize (empty_lists node_ids).
  intros om im. revert im om.
  induction edges as [|e r IH]; intros im om Hv; simpl; [done|].
  destruct (Hv e) as [Hf Ht]; [left|].
  rewrite bool_decide_false by tauto.
  apply IH. intros e' He'. apply Hv. by right.
Qed.

Lemma add_inputs_other (k : string) edges im :
  k ∉ map e_to edges →
  foldl (λ im e, add_to (e_to e) (e_from e) im) im edges !! k = im !! k.
Proof.
  revert im. induction edges as [|e r IH]; intros im Hk; simpl; [done|].
  apply not_elem_of_cons in Hk as [Hk Hr].
  rewrite IH by done. unfold add_to. by rewrite lookup_insert_ne.
Qed.

Lemma append_all_new l0 l :
  NoDup (l0 ++ l) → foldl (λ acc x, append_new x acc) l0 l = l0 ++ l.
Proof.
  revert l0. induction l as [|x r IH]; intros l0 Hnd; simpl.
  - by rewrite app_nil_r.
  - unfold append_new at 2.
    apply NoDup_app in Hnd as Hnd'. destruct Hnd' as (_ & Hdis & _).
    rewrite bool_decide_false.
    + rewrite IH; rewrite <- app_assoc; done.
    + intros Hx. apply (Hdis x Hx). left.
Qed.

Lemma add_inputs_block (nid : string) inps im :
  default [] (foldl (λ im e, add_to (e_to e) (e_from e) im) im
                (map (λ inp, {| e_from := inp; e_to := nid;
                                e_fromPort := None; e_toPort := None |}) inps)
              !! nid)
  = foldl (λ acc x, append_new x acc) (default [] (im !! nid)) inps.
Proof.
  revert im. induction inps as [|x r IH]; intros im; simpl; [done|].
  rewrite IH. unfold add_to. by rewrite lookup_insert_eq.
Qed.

Lemma add_inputs_nodes nodes im n :
  NoDup (map n_id nodes) →
  (∀ m, m ∈ nodes → NoDup (n_inputs m)) →
  (∀ m, m ∈ nodes → default [] (im !! n_id m) = []) →
  n ∈ nodes →
  default []
    (foldl (λ im e, add_to (e_to e) (e_from e) im) im
       (flat_map (λ m, map (λ inp, {| e_from := inp; e_to := n_id m;
                                      e_fromPort := None; e_toPort := None |})
                           (n_inputs m)) nodes)
     !! n_id n)
  = n_inputs n.
Proof.
  revert im. induction nodes as [|n0 rest IH]; intros im Hnd Hin Him Hn.
  { by apply elem_of_nil in Hn. }
  simpl in *. apply NoDup_cons in Hnd as [Hn0 Hnd]. rewrite foldl_app.
  set (block := map _ (n_inputs n0)).
  set (im1 := foldl _ im block).
  assert (∀ k, k ≠ n_id n0 → im1 !! k = im !! k) as Hother.
  { intros k Hk. apply add_inputs_other.
    unfold block. rewrite map_map. simpl.
    intros (? & -> & _)%list_elem_of_fmap. done. }
  apply elem_of_cons in Hn as [->|Hn].
  - rewrite add_inputs_other.
    + unfold im1, block. rewrite add_inputs_block, Him by left.
      apply append_all_new. simpl. apply Hin. left.
    + intros (e & Hto & He)%list_elem_of_fmap.
      apply list_elem_of_In, in_flat_map in He as (m & Hm%list_elem_of_In & He).
      apply list_elem_of_In, list_elem_of_fmap in He as (inp & -> & _).
      simpl in Hto. apply Hn0. rewrite Hto. apply list_elem_of_fmap. eauto.
  - apply IH; try done.
    + intros m Hm. apply Hin. by right.
    + intros m Hm. rewrite Hother; [apply Him; by right|].
      intros Heq. apply Hn0. rewrite <- Heq. apply list_elem_of_fmap. eauto.
Qed.

Lemma dedup_edges_id seen edges :
  NoDup (map edge_key edges) →
  (∀ e, e ∈ edges → edge_key e ∉ seen) →
  dedup_edges seen edges = edges.
Proof.
  revert seen. induction edges as [|e r IH]; intros seen Hnd Hs; simpl; [done|].
  simpl in Hnd. apply NoDup_cons in Hnd as [He Hnd].
  rewrite bool_decide_false by (apply (Hs e); left).
  f_equal. apply IH; [done|].
  intros e' He'. apply not_elem_of_union. split.
  - apply not_elem_of_singleton. intros Heq. apply He.
    change (edge_key e' = edge_key e) in Heq. rewrite <- Heq.
    apply list_elem_of_fmap. eauto.
  - apply Hs. by right.
Qed.

Lemma inputs_edges_NoDup nodes :
  NoDup (map n_id nodes) →
  (∀ m, m ∈ nodes → NoDup (n_inputs m)) →
  NoDup (map edge_key
           (flat_map (λ m, map (λ inp, {| e_from := inp; e_to := n_id m;
                                          e_fromPort := None; e_toPort := None |})
                               (n_inputs m)) nodes)).
Proof.
  induction nodes as [|n0 rest IH]; intros Hnd Hin; simpl; [constructor|].
  simpl in Hnd. apply NoDup_cons in Hnd as [Hn0 Hnd].
  rewrite map_app. apply NoDup_app. split_and!.
  - rewrite map_map. simpl.
    assert (Inj (=) (=) (λ inp : string, (inp, n_id n0))) as Hinj
      by (intros x y [= ->]; done).
    apply (NoDup_fmap_2 (λ inp, (inp, n_id n0))), Hin. left.
  - intros k (e & -> & He)%list_elem_of_fmap (e' & Hk & He')%list_elem_of_fmap.
    apply list_elem_of_fmap in He as (inp & -> & _).
    apply list_elem_of_In, in_flat_map in He' as (m & Hm%list_elem_of_In & He').
    apply list_elem_of_In, list_elem_of_fmap in He' as (inp' & -> & _).
    injection Hk as _ Hid. apply Hn0. rewrite Hid. apply list_elem_of_fmap. eauto.
  - apply IH; [done|]. intros m Hm. apply Hin. by right.
Qed.

Lemma edges_of_inputs_known (ids : list string) (nodes : list node) :
  (∀ n x, n ∈ nodes → x ∈ n_inputs n → x ∈ ids) →
  edges_of_inputs (list_to_set ids) nodes
  = flat_map (λ m, map (λ inp, {| e_from := inp; e_to := n_id m;
                                  e_fromPort := None; e_toPort := None |})
                       (n_inputs m)) nodes.
Proof.
  unfold edges_of_inputs.
  induction nodes as [|n r IH]; intros Hk; simpl; [done|].
  rewrite IH by (intros m x Hm; apply Hk; by right). f_equal. f_equal.
  assert (∀ x, x ∈ n_inputs n → x ∈ ids) as Hn by (intros x; apply Hk; left).
  clear -Hn. induction (n_inputs n) as [|x l IHl]; [done|].
  rewrite filter_cons_True.
  - f_equal. apply IHl. intros y Hy. apply Hn. by right.
  - apply elem_of_list_to_set, Hn. left.
Qed.

Lemma tidy_edges_of_inputs i :
  tidy_inputs i →
  edges_of_inputs (list_to_set (ids_of i)) (ir_nodes i)
  = flat_map (λ m, map (λ inp, {| e_from := inp; e_to := n_id m;
                                  e_fromPort := None; e_toPort := None |})
                       (n_inputs m)) (ir_nodes i).
Proof.
  intros [_ Htidy]. apply edges_of_inputs_known.
  intros n x Hn. by apply Htidy.
Qed.

Lemma tidy_synthesized i :
  tidy_inputs i →
  synthesized i
  = flat_map (λ m, map (λ inp, {| e_from := inp; e_to := n_id m;
                                  e_fromPort := None; e_toPort := None |})
                       (n_inputs m)) (ir_nodes i).
Proof.
  intros Ht. unfold synthesized. rewrite (tidy_edges_of_inputs i Ht).
  destruct Ht as [Hnd Hin].
  apply dedup_edges_id; [|set_solver].
  apply inputs_edges_NoDup; [done|]. intros m Hm. by apply Hin.
Qed.

Lemma empty_lists_default node_ids (k : string) :
  default [] (empty_lists node_ids !! k) = [].
Proof.
  unfold empty_lists. destruct (gset_to_gmap [] node_ids !! k) as [l|] eqn:Hl; [|done].
  by apply lookup_gset_to_gmap_Some in Hl as [_ <-].
Qed.

(** C4, refuted as stated: on the IR of the duplicate-operand tests the
    first pass keeps [inputs = [l1, l1]] and synthesizes one edge, from
    which the second pass rebuilds [inputs = [l1]]. *)
Lemma normalize_ir_not_idempotent :
  normalize_ir (normalize_ir ir_l1_twice) ≠ normalize_ir ir_l1_twice.
Proof.
  intros H.
  apply (f_equal (λ i, map n_inputs (ir_nodes i))) in H.
  vm_compute in H. discriminate.
Qed.

(** C4, amended. Normalizing twice gives what normalizing once gives
    - for every IR whose edge list is not empty;
    - for every IR from which normalization synthesizes no edge;
    - for every IR without edge list whose node ids are pairwise distinct
      and whose [inputs] lists are duplicate-free and name existing nodes. *)
Theorem normalize_ir_idempotent (i : ir) :
  ir_edges i ≠ [] ∨ ir_edges (normalize_ir i) = [] ∨ tidy_inputs i →
  normalize_ir (normalize_ir i) = normalize_ir i.
Proof.
  intros Hcases.
  destruct (ir_edges i) as [|e0 r0] eqn:Hedges.
  - (* no edge list *)
    assert (ir_edges (normalize_ir i) = synthesized i) as Hsyn.
    { by rewrite normalize_ir_absent. }
    destruct (decide (synthesized i = [])) as [Hu|Hu].
    + (* nothing synthesized: the second pass is the first one again *)
      rewrite (normalize_ir_absent (normalize_ir i)) by congruence.
      assert (synthesized (normalize_ir i) = synthesized i) as ->.
      { unfold synthesized. rewrite ids_of_normalize_ir.
        rewrite (normalize_ir_absent i) at 1 by done. simpl.
        by rewrite edges_of_inputs_same. }
      rewrite ids_of_normalize_ir.
      rewrite (normalize_ir_absent i) by done. simpl.
      f_equal. rewrite map_map. by apply map_ext.
    + destruct Hcases as [?|[Hnil|Htidy]]; [done|congruence|].
      rewrite (normalize_ir_present (normalize_ir i)) by congruence.
      rewrite ids_of_normalize_ir, Hsyn.
      rewrite (normalize_ir_absent i) by done. simpl.
      f_equal. rewrite map_map. apply map_ext_in. intros n Hn%list_elem_of_In.
      unfold rebuilt, with_outputs.
      rewrite maps_of_edges_valid.
      * unfold set_inputs_outputs. cbn [fst snd n_id n_inputs n_outputs n_type
                                          n_value n_targetType n_name]. f_equal.
        rewrite (tidy_synthesized i Htidy).
        destruct Htidy as [Hnd Hin].
        apply add_inputs_nodes; try done.
        -- intros m Hm. by apply Hin.
        -- intros m _. apply empty_lists_default.
      * intros e He. unfold synthesized in He.
        apply dedup_edges_elem, edges_of_inputs_elem in He as [Hf Ht].
        split; [done|]. by apply elem_of_list_to_set.
  - (* an edge list: it is kept, and both passes rebuild from it *)
    assert (ir_edges i ≠ []) as Hne by (rewrite Hedges; done).
    assert (ir_edges (normalize_ir i) = ir_edges i) as Hkeep.
    { by rewrite normalize_ir_present. }
    rewrite (normalize_ir_present (normalize_ir i)) by congruence.
    rewrite ids_of_normalize_ir, Hkeep.
    rewrite (normalize_ir_present i) by done. simpl.
    f_equal. rewrite map_map. by apply map_ext.
Qed.

Lemma ir_l1_once_tidy : tidy_inputs ir_l1_once.
Proof.
  split.
  - apply (bool_decide_unpack _). by vm_compute.
  - intros n Hn.
    apply elem_of_cons in Hn as [->|Hn];
      [|apply list_elem_of_singleton in Hn as ->];
      (split; [apply (bool_decide_unpack _); by vm_compute|]);
      simpl; intros x Hx.
    + by apply elem_of_nil in Hx.
    + apply list_elem_of_singleton in Hx as ->.
      apply (bool_decide_unpack _). by vm_compute.
Qed.

Lemma normalize_ir_idempotent_witness :
  (ir_edges ir_l1_once ≠ [] ∨ ir_edges (normalize_ir ir_l1_once) = []
   ∨ tidy_inputs ir_l1_once)
  ∧ normalize_ir (normalize_ir ir_l1_once) = normalize_ir ir_l1_once.
Proof.
  assert (ir_edges ir_l1_once ≠ [] ∨ ir_edges (normalize_ir ir_l1_once) = []
          ∨ tidy_inputs ir_l1_once) as H by (right; right; exact ir_l1_once_tidy).
  split; [exact H|]. exact (normalize_ir_idempotent ir_l1_once H).
Defined.

Example normalize_ir_edge_list_kept :
  normalize_ir ir_l1_edge
  = {| ir_imports := [];
       ir_nodes := [ set_inputs_outputs [] ["add1"] (mk_node "l1" "Literal" (VInt 7) []);
                     set_inputs_outputs ["l1"] [] (mk_node "add1" "Add" VNone []) ];
       ir_edges := [positional "l1" "add1"] |}.
Proof. vm_compute. reflexivity. Qed.

(** ** Topological sorting *)

(** *** Graphs as lists of pairs *)

Section graph.

Implicit Types (E : list (string * string)) (u v n : string)
               (order q : list string).

Lemma succs_app E1 E2 u : succs (E1 ++ E2) u = succs E1 u ++ succs E2 u.
Proof. unfold succs. by rewrite filter_app, fmap_app. Qed.

Lemma pending_app E1 E2 order v :
  pending (E1 ++ E2) order v = (pending E1 order v + pending E2 order v)%nat.
Proof. unfold pending. by rewrite filter_app, length_app. Qed.

Lemma succs_elem E u v : v ∈ succs E u ↔ (u, v) ∈ E.
Proof.
  unfold succs. rewrite list_elem_of_fmap. split.
  - intros ([u' v'] & -> & [Hu Hin]%list_elem_of_filter). simpl in *. by subst.
  - intros Hin. exists (u, v). split; [done|]. by apply list_elem_of_filter.
Qed.

Lemma pending_zero E order v :
  pending E order v = 0%nat ↔ ∀ u, (u, v) ∈ E → u ∈ order.
Proof.
  unfold pending. rewrite length_zero_iff_nil. split.
  - intros Hnil u Hin. destruct (decide (u ∈ order)) as [|Hno]; [done|].
    assert ((u, v) ∈ filter (λ e, e.2 = v ∧ e.1 ∉ order) E) as Hf
      by (by apply list_elem_of_filter).
    rewrite Hnil in Hf. by apply elem_of_nil in Hf.
  - intros Hall. destruct (filter _ E) as [|[u' v'] r] eqn:Hf; [done|].
    assert ((u', v') ∈ filter (λ e, e.2 = v ∧ e.1 ∉ order) E) as Hin
      by (rewrite Hf; left).
    apply list_elem_of_filter in Hin as [[Hv Hno] Hin]. simpl in *. subst.
    exfalso. apply Hno, (Hall u' Hin).
Qed.

Lemma pending_cons a b E order v :
  pending ((a, b) :: E) order v
  = ((if decide (b = v ∧ a ∉ order) then 1 else 0) + pending E order v)%nat.
Proof. unfold pending. rewrite filter_cons. simpl. by case_decide. Qed.

Lemma succs_cons a b E u :
  succs ((a, b) :: E) u = (if decide (a = u) then [b] else []) ++ succs E u.
Proof. unfold succs. rewrite filter_cons. simpl. by case_decide. Qed.

Lemma occ_cons v x l :
  occ v (x :: l) = ((if decide (x = v) then 1 else 0) + occ v l)%nat.
Proof. unfold occ. rewrite filter_cons. by case_decide. Qed.

Lemma occ_zero v l : occ v l = 0%nat ↔ v ∉ l.
Proof.
  induction l as [|x l IH].
  - split; [intros _ H; by apply elem_of_nil in H|done].
  - rewrite occ_cons, not_elem_of_cons. case_decide as Hx.
    + split; [lia|intros [Hne _]; congruence].
    + simpl. rewrite IH. split; [intros ?; split; [congruence|done]|by intros [_ ?]].
Qed.

(** Dequeuing [n] settles the edges that leave [n]. *)
Lemma pending_step E order n v :
  n ∉ order →
  pending E order v = (pending E (order ++ [n]) v + occ v (succs E n))%nat.
Proof.
  intros Hn. induction E as [|[a b] E IH]; [done|].
  rewrite !pending_cons, succs_cons, IH.
  destruct (decide (a = n)) as [->|Hne]; simpl; rewrite ?occ_cons;
    repeat case_decide; try lia; exfalso; set_unfold; intuition (subst; tauto).
Qed.

End graph.

(** *** The inner loop *)

Lemma relax_indeg ms (indeg : gmap string Z) q v :
  (relax ms indeg q).1 !!! v = indeg !!! v - Z.of_nat (occ v ms).
Proof.
  revert indeg q. induction ms as [|m r IH]; intros indeg q; simpl.
  - unfold occ. simpl. lia.
  - rewrite IH, occ_cons, lookup_total_insert.
    repeat case_decide; subst; try done; lia.
Qed.

Lemma relax_queue ms (indeg : gmap string Z) q :
  (∀ v, v ∈ ms → Z.of_nat (occ v ms) ≤ indeg !!! v) →
  ∃ new, (relax ms indeg q).2 = q ++ new ∧ NoDup new
         ∧ ∀ v, v ∈ new ↔ v ∈ ms ∧ (relax ms indeg q).1 !!! v = 0.
Proof.
  revert indeg q. induction ms as [|m r IH]; intros indeg q Hpre; simpl.
  { exists []. rewrite app_nil_r. split_and!; [done|constructor|].
    intros v. split; [by intros ?%elem_of_nil|by intros [?%elem_of_nil _]]. }
  set (indeg1 := <[m := indeg !!! m - 1]> indeg).
  assert (indeg1 !!! m = indeg !!! m - 1) as Hm
    by (unfold indeg1; by rewrite lookup_total_insert_eq).
  assert (∀ v, v ∈ r → Z.of_nat (occ v r) ≤ indeg1 !!! v) as Hpre1.
  { intros v Hv. assert (v ∈ m :: r) as Hv' by (by right).
    specialize (Hpre v Hv'). rewrite occ_cons in Hpre.
    unfold indeg1. rewrite lookup_total_insert.
    repeat case_decide; subst; try done; lia. }
  assert (∀ v, (relax r indeg1 (if bool_decide (indeg1 !!! m = 0) then q ++ [m] else q)).1 !!! v
               = indeg1 !!! v - Z.of_nat (occ v r)) as Hfin
    by (intros v; apply relax_indeg).
  destruct (IH indeg1 (if bool_decide (indeg1 !!! m = 0) then q ++ [m] else q) Hpre1)
    as (new & Hq & Hnd & Hnew).
  case_bool_decide as Hz.
  - assert (m ∉ r) as Hmr.
    { intros Hin. pose proof (Hpre1 m Hin) as Hle.
      assert (occ m r = 0%nat) as Ho by lia. by apply occ_zero in Ho. }
    exists (m :: new). rewrite Hq, <- app_assoc. split_and!; [done| |].
    + constructor; [|done]. intros [? _]%Hnew. done.
    + intros v. rewrite !elem_of_cons, Hnew. split.
      * intros [->|[? ?]]; [|by auto]. split; [by left|].
        rewrite Hfin. apply occ_zero in Hmr. lia.
      * intros [[->|?] ?]; auto.
  - exists new. split_and!; [done..|].
    intros v. rewrite elem_of_cons, Hnew. split; [by intros [? ?]; auto|].
    intros [[->|?] Hv]; [|done]. split; [|done].
    destruct (decide (m ∈ r)) as [|Hmr]; [done|].
    apply occ_zero in Hmr. rewrite Hfin in Hv. lia.
Qed.

(** *** The loop invariant *)

Section kahn.

Context (V : list string) (E : list (string * string))
        (adj : gmap string (list string)).
Hypothesis V_NoDup : NoDup V.
Hypothesis E_in_V : ∀ u v, (u, v) ∈ E → u ∈ V ∧ v ∈ V.
Hypothesis adj_succs : ∀ u, u ∈ V → adj !!! u = succs E u.

Lemma occ_succs_pending order n v :
  n ∉ order → (occ v (succs E n) ≤ pending E order v)%nat.
Proof. intros Hn. rewrite (pending_step E order n v Hn). lia. Qed.

Lemma precedes_snoc order u v x :
  precedes order u v → precedes (order ++ [x]) u v.
Proof.
  intros (i & j & Hi & Hj & Hlt). exists i, j.
  split_and!; [by apply lookup_app_l_Some..|done].
Qed.

Lemma kahn_inv_step indeg n q order :
  kahn_inv V E indeg (n :: q) order →
  kahn_inv V E (relax (adj !!! n) indeg q).1 (relax (adj !!! n) indeg q).2
           (order ++ [n]).
Proof.
  intros (Hnd & Hsub & Hdeg & Hzero & Hprec).
  assert (n ∈ V) as HnV by (apply Hsub, elem_of_app; right; left).
  assert (n ∉ order) as Hno.
  { apply NoDup_app in Hnd as (_ & Hdis & _). intros Hin.
    apply (Hdis n Hin). left. }
  rewrite (adj_succs n HnV).
  assert (∀ v, v ∈ succs E n → v ∈ V) as HsV.
  { intros v Hin. by apply succs_elem, E_in_V in Hin as [_ Hv]. }
  assert (∀ v, v ∈ V →
            (relax (succs E n) indeg q).1 !!! v
            = Z.of_nat (pending E (order ++ [n]) v)) as Hdeg'.
  { intros v Hv.
    rewrite relax_indeg, (Hdeg v Hv), (pending_step E order n v Hno). lia. }
  destruct (relax_queue (succs E n) indeg q) as (new & Hq & Hndn & Hnew).
  { intros v Hin. rewrite (Hdeg v (HsV v Hin)).
    pose proof (occ_succs_pending order n v Hno). lia. }
  rewrite Hq.
  assert (∀ v, v ∈ new → v ∈ succs E n ∧ pending E (order ++ [n]) v = 0%nat)
    as Hnew1.
  { intros v [Hin Hz]%Hnew. split; [done|].
    rewrite (Hdeg' v (HsV v Hin)) in Hz. lia. }
  assert ((order ++ [n]) ++ q ++ new = (order ++ n :: q) ++ new) as Hre.
  { by rewrite <- !app_assoc. }
  split_and!.
  - rewrite Hre. apply NoDup_app. split_and!; [done| |done].
    intros v Hin Hv. destruct (Hnew1 v Hv) as [Hs _].
    apply (Hzero v (HsV v Hs)) in Hin.
    rewrite (pending_step E order n v Hno) in Hin.
    assert (occ v (succs E n) = 0%nat) as Ho by lia.
    by apply occ_zero in Ho.
  - rewrite Hre. intros x [Hx|Hx]%elem_of_app; [by apply Hsub|].
    apply HsV. by destruct (Hnew1 x Hx).
  - done.
  - intros v Hv. rewrite Hre, elem_of_app. split.
    + intros [Hin|Hin]; [|by destruct (Hnew1 v Hin)].
      apply (Hzero v Hv) in Hin.
      rewrite (pending_step E order n v Hno) in Hin. lia.
    + intros Hz. destruct (decide (v ∈ succs E n)) as [Hs|Hs].
      * right. apply Hnew. split; [done|]. rewrite (Hdeg' v Hv). lia.
      * left. apply (Hzero v Hv). apply occ_zero in Hs.
        rewrite (pending_step E order n v Hno). lia.
  - intros u v Huv [Hin| ->%list_elem_of_singleton]%elem_of_app.
    + by apply precedes_snoc, Hprec.
    + assert (pending E order n = 0%nat) as Hz.
      { apply (Hzero n HnV), elem_of_app. right. left. }
      rewrite pending_zero in Hz.
      apply Hz, list_elem_of_lookup in Huv as [i Hi].
      exists i, (length order). split_and!.
      * by apply lookup_app_l_Some.
      * by rewrite lookup_app_r, Nat.sub_diag.
      * by eapply lookup_lt_Some.
Qed.

Lemma kahn_inv_length indeg q order :
  kahn_inv V E indeg q order → (length order + length q ≤ length V)%nat.
Proof.
  intros (Hnd & Hsub & _). rewrite <- length_app.
  by apply submseteq_length, NoDup_submseteq.
Qed.

(** The loop ends within [length V] passes, with the invariant. *)
Lemma kahn_terminates fuel indeg q order :
  kahn_inv V E indeg q order →
  (length V - length order < fuel)%nat →
  ∃ indeg' order', kahn fuel adj indeg q order = Some order'
                   ∧ kahn_inv V E indeg' [] order'.
Proof.
  revert indeg q order. induction fuel as [|fuel IH]; intros indeg q order Hinv Hfuel;
    [lia|]. simpl. destruct q as [|n q]; [by eauto|].
  pose proof (kahn_inv_step indeg n q order Hinv) as Hstep.
  pose proof (kahn_inv_length _ _ _ Hinv) as Hlen. simpl in Hlen.
  destruct (relax (adj !!! n) indeg q) as [indeg' q'']. simpl in Hstep.
  apply (IH _ _ _ Hstep). rewrite length_app. simpl. lia.
Qed.

Lemma pending_positive order v :
  pending E order v ≠ 0%nat → ∃ u, (u, v) ∈ E ∧ u ∉ order.
Proof.
  unfold pending. destruct (filter _ E) as [|[u' v'] r] eqn:Hf; [done|]. intros _.
  assert ((u', v') ∈ filter (λ e, e.2 = v ∧ e.1 ∉ order) E) as Hin
    by (rewrite Hf; left).
  apply list_elem_of_filter in Hin as [[Hv Hno] Hin]. simpl in *. subst. eauto.
Qed.

(** When every node has been dequeued the order is topological. *)
Lemma kahn_complete indeg order :
  kahn_inv V E indeg [] order →
  length order = length V →
  order ≡ₚ V ∧ ∀ u v, (u, v) ∈ E → precedes order u v.
Proof.
  intros (Hnd & Hsub & _ & _ & Hprec) Hlen. rewrite app_nil_r in Hnd, Hsub.
  assert (order ≡ₚ V) as Hperm.
  { apply submseteq_length_Permutation; [by apply NoDup_submseteq|lia]. }
  split; [done|]. intros u v Huv. apply Hprec; [done|].
  rewrite Hperm. by apply E_in_V in Huv as [_ ?].
Qed.

End kahn.

(** A finite set of nodes each of which has a predecessor in the set holds
    a cycle: walk backwards until a node repeats. *)
Lemma cycle_of_predecessors (R : string → Prop) (V : list string)
    (edge : relation string) :
  (∀ v, R v → v ∈ V) →
  (∀ v, R v → ∃ u, R u ∧ edge u v) →
  ∀ x, R x → ∃ v, tc edge v v.
Proof.
  intros HV Hpred.
  assert (∀ k h p,
    (length V ≤ k + length (h :: p))%nat → R h → NoDup (h :: p) →
    (∀ w, w ∈ p → R w ∧ tc edge h w) → ∃ v, tc edge v v) as Hsearch.
  { induction k as [|k IH]; intros h p Hlen Hh Hnd Hp;
      destruct (Hpred h Hh) as (u & Hu & Huh);
      destruct (decide (u ∈ h :: p)) as [Hin|Hnin].
    - apply elem_of_cons in Hin as [->|Hin].
      + exists h. by apply tc_once.
      + exists u. eapply tc_l; [exact Huh|]. by apply Hp.
    - assert (NoDup (u :: h :: p)) as Hnd' by (by constructor).
      assert (u :: h :: p ⊆+ V) as Hsub.
      { apply NoDup_submseteq; [done|].
        intros w [->|[->|Hw]%elem_of_cons]%elem_of_cons; apply HV; try done.
        by apply Hp. }
      apply submseteq_length in Hsub. simpl in *. lia.
    - apply elem_of_cons in Hin as [->|Hin].
      + exists h. by apply tc_once.
      + exists u. eapply tc_l; [exact Huh|]. by apply Hp.
    - apply (IH u (h :: p)); [simpl in *; lia|done|by constructor|].
      intros w [->|Hw]%elem_of_cons.
      + split; [done|by apply tc_once].
      + split; [by apply Hp|]. eapply tc_l; [exact Huh|]. by apply Hp. }
  intros x Hx. apply (Hsearch (length V) x []); simpl; [lia|done| |].
  - apply NoDup_singleton.
  - by intros w ?%elem_of_nil.
Qed.

Lemma precedes_trans l u v w :
  NoDup l → precedes l u v → precedes l v w → precedes l u w.
Proof.
  intros Hnd (i & j & Hi & Hj & Hij) (j' & k & Hj' & Hk & Hjk).
  assert (j = j') as <- by (by eapply NoDup_lookup).
  exists i, k. split_and!; [done..|lia].
Qed.

Lemma precedes_irrefl l v : NoDup l → ¬ precedes l v v.
Proof.
  intros Hnd (i & j & Hi & Hj & Hij).
  assert (i = j) by (by eapply NoDup_lookup). lia.
Qed.

(** An order in which every edge goes forward leaves no room for a cycle. *)
Lemma acyclic_of_order (E : list (string * string)) (order : list string) :
  NoDup order →
  (∀ u v, (u, v) ∈ E → precedes order u v) →
  acyclic E.
Proof.
  intros Hnd Hfw [v Hv].
  assert (∀ x y, tc (λ x y, (x, y) ∈ E) x y → precedes order x y) as Htc.
  { intros x y Hxy. induction Hxy as [x y Hxy|x y z Hxy _ IH]; [by apply Hfw|].
    eapply precedes_trans; [done|by apply Hfw|done]. }
  by apply (precedes_irrefl order v Hnd), Htc.
Qed.

(** When the loop ends with nodes left over, those nodes hold a cycle. *)
Lemma kahn_incomplete (V : list string) (E : list (string * string))
    (indeg : gmap string Z) (order : list string) :
  NoDup V →
  (∀ u v, (u, v) ∈ E → u ∈ V ∧ v ∈ V) →
  kahn_inv V E indeg [] order →
  length order ≠ length V →
  has_cycle E.
Proof.
  intros HV HE (Hnd & Hsub & _ & Hzero & _) Hlen.
  rewrite app_nil_r in Hnd, Hsub.
  set (R := λ v, v ∈ V ∧ v ∉ order).
  assert (∃ x, R x) as [x Hx].
  { destruct (decide (Forall (λ x, x ∈ order) V)) as [Hall|Hex].
    - exfalso. rewrite Forall_forall in Hall.
      pose proof (submseteq_length _ _ (NoDup_submseteq _ _ HV Hall)).
      pose proof (submseteq_length _ _ (NoDup_submseteq _ _ Hnd Hsub)). lia.
    - apply not_Forall_Exists, Exists_exists in Hex as (x & Hin & Hno); [|apply _].
      by exists x. }
  apply (cycle_of_predecessors R V (λ x y, (x, y) ∈ E)) with x; [by intros v [? _]| |done].
  intros v [Hv Hno].
  destruct (pending_positive E order v) as (u & Huv & Hu).
  { intros Hz. apply Hno. apply (Hzero v Hv) in Hz. by rewrite app_nil_r in Hz. }
  exists u. split; [|done]. split; [|done]. by apply HE in Huv as [? _].
Qed.

(** *** The adjacency tables *)

Lemma add_edges_spec pairs adj indeg :
  (∀ k, (foldl add_edge (adj, indeg) pairs).1 !!! k = adj !!! k ++ succs pairs k)
  ∧ (∀ k, (foldl add_edge (adj, indeg) pairs).2 !!! k
          = indeg !!! k + Z.of_nat (pending pairs [] k))
  ∧ (∀ k, is_Some (adj !! k) → is_Some ((foldl add_edge (adj, indeg) pairs).1 !! k)).
Proof.
  revert adj indeg. induction pairs as [|[u v] r IH]; intros adj indeg; simpl.
  { split_and!; [intros k; by rewrite app_nil_r|intros k; unfold pending; simpl; lia|done]. }
  unfold add_edge at 2 4 6. simpl.
  destruct (IH (<[u := adj !!! u ++ [v]]> adj) (<[v := indeg !!! v + 1]> indeg))
    as (Ha & Hi & Hs).
  split_and!.
  - intros k. rewrite Ha, succs_cons, lookup_total_insert.
    case_decide; subst; by rewrite <- ?app_assoc.
  - intros k. rewrite Hi, pending_cons, lookup_total_insert.
    repeat case_decide; subst; try lia; exfalso; set_unfold; tauto.
  - intros k Hk. apply Hs. rewrite lookup_insert_is_Some.
    destruct (decide (u = k)); auto.
Qed.

Lemma build_adj_edges_ok edges adj indeg :
  (∀ e, e ∈ edges → is_Some (adj !! e_from e) ∧ is_Some (adj !! e_to e)) →
  build_adj_edges edges adj indeg
  = inr (foldl add_edge (adj, indeg) (edge_pairs edges)).
Proof.
  revert adj indeg. induction edges as [|e r IH]; intros adj indeg Hv; simpl; [done|].
  destruct (Hv e) as [[? Hf] [? Ht]]; [left|].
  rewrite !bool_decide_false by congruence.
  apply IH. intros e' He'. destruct (Hv e') as [H1 H2]; [by right|].
  rewrite !lookup_insert_is_Some.
  split; [destruct (decide (e_from e = e_from e'))|destruct (decide (e_from e = e_to e'))];
    auto.
Qed.

Lemma build_adj_inputs_of_ok nid inps adj indeg :
  (∀ inp, inp ∈ inps → is_Some (adj !! inp)) →
  build_adj_inputs_of nid inps adj indeg
  = inr (foldl add_edge (adj, indeg) (map (λ inp, (inp, nid)) inps)).
Proof.
  revert adj indeg. induction inps as [|inp r IH]; intros adj indeg Hv; simpl; [done|].
  destruct (Hv inp) as [? Hf]; [left|].
  rewrite bool_decide_false by congruence.
  apply IH. intros inp' Hin. rewrite lookup_insert_is_Some.
  destruct (decide (inp = inp')); [auto|]. right. split; [done|]. apply Hv. by right.
Qed.

Lemma build_adj_inputs_ok nodes adj indeg :
  (∀ n inp, n ∈ nodes → inp ∈ n_inputs n → is_Some (adj !! inp)) →
  build_adj_inputs nodes adj indeg
  = inr (foldl add_edge (adj, indeg) (input_pairs nodes)).
Proof.
  revert adj indeg. induction nodes as [|n r IH]; intros adj indeg Hv; simpl; [done|].
  rewrite build_adj_inputs_of_ok by (intros inp; apply Hv; left).
  unfold Py.bind. rewrite foldl_app.
  destruct (foldl add_edge (adj, indeg) _) as [adj1 indeg1] eqn:Hf.
  apply IH. intros m inp Hm Hinp.
  destruct (add_edges_spec (map (λ inp, (inp, n_id n)) (n_inputs n)) adj indeg)
    as (_ & _ & Hs).
  rewrite Hf in Hs. apply Hs. eapply Hv; [by right|done].
Qed.

Lemma init_dict_lookup {A} (v : A) ids k :
  k ∈ ids → init_dict v ids !! k = Some v.
Proof.
  unfold init_dict.
  assert (∀ m : gmap string A, k ∈ ids ∨ m !! k = Some v →
            foldl (λ m nid, <[nid := v]> m) m ids !! k = Some v) as H.
  { induction ids as [|x r IH]; intros m; simpl.
    - intros [?%elem_of_nil|?]; done.
    - intros [[->|?]%elem_of_cons|Hm]; apply IH; auto.
      + right. apply lookup_insert_eq.
      + right. rewrite lookup_insert. by case_decide. }
  intros Hk. apply H. by left.
Qed.

Lemma dict_keys_NoDup ids : NoDup ids → dict_keys ids = ids.
Proof.
  induction ids as [|x r IH]; simpl; [done|].
  intros [Hx Hr]%NoDup_cons. rewrite IH by done. f_equal.
  clear IH Hr. induction r as [|y r IH]; [done|].
  apply not_elem_of_cons in Hx as [Hxy Hx].
  rewrite filter_cons_True by congruence. f_equal. by apply IH.
Qed.

(** What [build_adj] returns for a graph whose endpoints exist. *)
Lemma build_adj_spec nodes edges :
  endpoints_exist nodes (graph_of nodes edges) →
  ∃ adj indeg,
    build_adj nodes edges = inr (adj, indeg)
    ∧ (∀ u, u ∈ map n_id nodes → adj !!! u = succs (graph_of nodes edges) u)
    ∧ (∀ v, v ∈ map n_id nodes →
            indeg !!! v = Z.of_nat (pending (graph_of nodes edges) [] v)).
Proof.
  intros Hex. unfold build_adj, graph_of in *.
  set (V := map n_id nodes) in *.
  assert (∀ k, k ∈ V → is_Some (init_dict (@nil string) V !! k)) as Hdom.
  { intros k Hk. rewrite (init_dict_lookup _ _ _ Hk). eauto. }
  destruct (nonempty edges).
  - rewrite build_adj_edges_ok.
    + destruct (add_edges_spec (edge_pairs edges) (init_dict [] V) (init_dict 0 V))
        as (Ha & Hi & _).
      eexists _, _. split; [by rewrite <- surjective_pairing|]. split.
      * intros u Hu. rewrite Ha.
        by rewrite (lookup_total_correct _ _ _ (init_dict_lookup [] V u Hu)).
      * intros v Hv. rewrite Hi.
        by rewrite (lookup_total_correct _ _ _ (init_dict_lookup 0 V v Hv)).
    + intros e He.
      destruct (Hex (e_from e) (e_to e)) as [? ?]; [|by split; apply Hdom].
      apply list_elem_of_fmap. by exists e.
  - rewrite build_adj_inputs_ok.
    + destruct (add_edges_spec (input_pairs nodes) (init_dict [] V) (init_dict 0 V))
        as (Ha & Hi & _).
      eexists _, _. split; [by rewrite <- surjective_pairing|]. split.
      * intros u Hu. rewrite Ha.
        by rewrite (lookup_total_correct _ _ _ (init_dict_lookup [] V u Hu)).
      * intros v Hv. rewrite Hi.
        by rewrite (lookup_total_correct _ _ _ (init_dict_lookup 0 V v Hv)).
    + intros n inp Hn Hinp. apply Hdom.
      destruct (Hex inp (n_id n)) as [? ?]; [|done].
      unfold input_pairs. apply list_elem_of_In, in_flat_map.
      exists n. split; [by apply list_elem_of_In|].
      apply list_elem_of_In, list_elem_of_fmap. by exists inp.
Qed.

(** *** From ids back to nodes *)

Lemma id_to_node_of_other (m : gmap string node) nodes i :
  i ∉ map n_id nodes →
  foldl (λ m n, <[n_id n := n]> m) m nodes !! i = m !! i.
Proof.
  revert m. induction nodes as [|n r IH]; intros m Hi; simpl; [done|].
  simpl in Hi. apply not_elem_of_cons in Hi as [Hn Hr].
  rewrite IH by done. by rewrite lookup_insert_ne.
Qed.

Lemma id_to_node_of_lookup nodes n :
  NoDup (map n_id nodes) → n ∈ nodes → id_to_node_of nodes !! n_id n = Some n.
Proof.
  unfold id_to_node_of. generalize (∅ : gmap string node).
  induction nodes as [|n0 r IH]; intros m Hnd Hn; simpl.
  { by apply elem_of_nil in Hn. }
  simpl in Hnd. apply NoDup_cons in Hnd as [Hn0 Hnd].
  apply elem_of_cons in Hn as [->|Hn]; [|by apply IH].
  rewrite id_to_node_of_other by done. apply lookup_insert_eq.
Qed.

Lemma ordered_nodes nodes order :
  NoDup (map n_id nodes) →
  order ≡ₚ map n_id nodes →
  ∃ ordered, nodes_of_ids (id_to_node_of nodes) order = inr ordered
             ∧ map n_id ordered = order ∧ ordered ≡ₚ nodes.
Proof.
  intros Hnd Hperm.
  assert (∀ i, i ∈ order → ∃ n, n ∈ nodes ∧ n_id n = i
                                ∧ id_to_node_of nodes !! i = Some n) as Hfind.
  { intros i Hi. rewrite Hperm in Hi.
    apply list_elem_of_fmap in Hi as (n & -> & Hn).
    exists n. split_and!; [done..|]. by apply id_to_node_of_lookup. }
  assert (∃ ordered, nodes_of_ids (id_to_node_of nodes) order = inr ordered
                     ∧ map n_id ordered = order
                     ∧ ∀ n, n ∈ ordered → n ∈ nodes) as (ordered & Hm & Hids & Hsub).
  { clear Hperm. induction order as [|i rest IH]; simpl.
    - exists []. split_and!; [done..|]. by intros ? ?%elem_of_nil.
    - destruct (Hfind i) as (n & Hn & Hid & ->); [left|].
      destruct IH as (ordered & -> & Hids & Hsub);
        [intros j Hj; apply Hfind; by right|].
      exists (n :: ordered). simpl. split_and!; [done|congruence|].
      intros x [->|?]%elem_of_cons; auto. }
  exists ordered. split_and!; [done..|].
  apply submseteq_length_Permutation.
  - apply NoDup_submseteq; [|done].
    apply (NoDup_fmap_1 n_id). change (NoDup (map n_id ordered)).
    rewrite Hids, Hperm. done.
  - rewrite <- (length_map n_id ordered), Hids, Hperm, length_map. done.
Qed.

(** *** Correctness of [topological_sort] *)

Lemma kahn_inv_initial (V : list string) (E : list (string * string))
    (indeg : gmap string Z) :
  NoDup V →
  (∀ v, v ∈ V → indeg !!! v = Z.of_nat (pending E [] v)) →
  kahn_inv V E indeg (filter (λ nid, indeg !!! nid = 0) V) [].
Proof.
  intros HV Hdeg. unfold kahn_inv. simpl. split_and!.
  - by apply NoDup_filter.
  - by intros x [_ ?]%list_elem_of_filter.
  - done.
  - intros v Hv. rewrite list_elem_of_filter, (Hdeg v Hv). split; [lia|].
    intros ->. done.
  - by intros u v _ ?%elem_of_nil.
Qed.

Lemma endpoints_exist_Forall nodes E :
  Forall (λ e, e.1 ∈ map n_id nodes ∧ e.2 ∈ map n_id nodes) E →
  endpoints_exist nodes E.
Proof. rewrite Forall_forall. intros H u v Huv. apply (H (u, v) Huv). Qed.

(** C6, refuted as stated: two nodes that carry the same id and no edge
    form an acyclic graph, and [topological_sort] reports a cycle (one key
    leaves the loop, two nodes came in). *)
Lemma topological_sort_duplicate_ids : ¬ sorts_edge_list nodes_a_a [].
Proof.
  intros H. destruct H as [Hsorted _].
  - by intros u v ?%elem_of_nil.
  - destruct Hsorted as (ordered & Hr & _); [|vm_compute in Hr; discriminate].
    intros [v Hv]. inversion Hv as [? ? Hin|? ? ? Hin]; by apply elem_of_nil in Hin.
Qed.

(** C6, amended. For a node list with pairwise distinct ids, and for the
    graph given by the edge list when it is not empty and by the [inputs]
    lists otherwise, all of whose endpoints exist: [topological_sort]
    returns a permutation of the nodes in which the source of every edge
    precedes its destination if the graph is acyclic, and raises the cycle
    error if the graph has a cycle. *)
Theorem topological_sort_sorts (nodes : list node) (edges : list edge) :
  NoDup (map n_id nodes) →
  endpoints_exist nodes (graph_of nodes edges) →
  sorts nodes edges (graph_of nodes edges).
Proof.
  intros Hnd Hex.
  set (V := map n_id nodes). set (E := graph_of nodes edges).
  destruct (build_adj_spec nodes edges Hex) as (adj & indeg & Hb & Hadj & Hdeg).
  fold V E in Hadj, Hdeg, Hex.
  pose proof (kahn_inv_initial V E indeg Hnd Hdeg) as Hinv.
  destruct (kahn_terminates V E adj Hex Hadj (S (length nodes)) indeg _ _ Hinv)
    as (indeg' & order & Hk & Hfin).
  { unfold V. rewrite length_map. simpl. lia. }
  assert (length V = length nodes) as HlenV by apply length_map.
  unfold sorts, topological_sort. rewrite Hb. unfold Py.bind.
  fold V. rewrite (dict_keys_NoDup V Hnd), Hk.
  case_bool_decide as Hlen.
  - (* nodes are left over *)
    assert (has_cycle E) as Hcyc.
    { eapply (kahn_incomplete V E); [done..|congruence]. }
    split; [by intros Hac|done].
  - (* every node was dequeued *)
    assert (length order = length V) as Hlen' by congruence.
    destruct (kahn_complete V E Hex indeg' order Hfin Hlen') as [Hperm Hprec].
    assert (NoDup order) as Hndo by (by rewrite Hperm).
    destruct (ordered_nodes nodes order Hnd Hperm) as (ordered & Hm & Hids & Hp).
    rewrite Hm. split.
    + intros _. exists ordered. split; [done|]. split; [done|].
      intros u v Huv. rewrite Hids. by apply Hprec.
    + intros Hcyc. by destruct (acyclic_of_order E order Hndo Hprec).
Qed.

Lemma nodes_sum_distinct : NoDup (map n_id nodes_sum).
Proof. apply (bool_decide_unpack _). by vm_compute. Qed.

Lemma edges_sum_endpoints : endpoints_exist nodes_sum (graph_of nodes_sum edges_sum).
Proof. apply endpoints_exist_Forall, (bool_decide_unpack _). by vm_compute. Qed.

Lemma topological_sort_sorts_witness :
  NoDup (map n_id nodes_sum)
  ∧ endpoints_exist nodes_sum (graph_of nodes_sum edges_sum)
  ∧ sorts nodes_sum edges_sum (graph_of nodes_sum edges_sum).
Proof.
  split; [exact nodes_sum_distinct|]. split; [exact edges_sum_endpoints|].
  exact (topological_sort_sorts nodes_sum edges_sum
           nodes_sum_distinct edges_sum_endpoints).
Defined.

Example topological_sort_sum :
  Py.bind (topological_sort nodes_sum edges_sum) (λ ordered, inr (map n_id ordered))
  = inr ["L3"; "L4"; "A"; "P"].
Proof. vm_compute. reflexivity. Qed.

(** The two-node cycle of the specification is rejected. *)
Example topological_sort_two_node_cycle :
  topological_sort nodes_X_Y edges_X_Y = raise Cycle.
Proof. vm_compute. reflexivity. Qed.

(** With an empty edge list the graph sorted is the one of the [inputs]
    lists: two nodes that list each other as input are rejected, and an
    input that names no node is reported. *)
Example topological_sort_inputs_cycle :
  topological_sort
    [mk_node "X" "Add" VNone ["Y"]; mk_node "Y" "Add" VNone ["X"]] []
  = raise Cycle.
Proof. vm_compute. reflexivity. Qed.

Example topological_sort_unknown_input :
  topological_sort [mk_node "X" "Add" VNone ["ghost"]] []
  = raise (UnknownInput "X" "ghost").
Proof. vm_compute. reflexivity. Qed.

(** ** Type names *)

Lemma lower_ascii_idem c : lower_ascii (lower_ascii c) = lower_ascii c.
Proof.
  destruct c as [[] [] [] [] [] [] [] []]; reflexivity.
Qed.

Lemma lower_idem s : lower (lower s) = lower s.
Proof. induction s as [|c s IH]; simpl; [done|]. by rewrite lower_ascii_idem, IH. Qed.

Lemma lower_empty s : lower s = "" ↔ s = "".
Proof. by destruct s. Qed.

Lemma truthy_lower t : truthy (lower <$> t) = truthy t.
Proof.
  destruct t as [s|]; simpl; [|done]. destruct s; done.
Qed.

Lemma canonical_type_lower t : _canonical_type (lower <$> t) = _canonical_type t.
Proof.
  unfold _canonical_type. rewrite truthy_lower.
  destruct t as [s|]; simpl; [|done]. by rewrite lower_idem.
Qed.

Lemma canonical_type_cases t :
  _canonical_type t ∈ ["any"; "double"; "int"; "string"; "bool"]
  ∨ ∃ s, s ≠ "" ∧ _canonical_type t = lower s
         ∧ lower s ∉ ["number"; "double"; "float"; "int"; "string"; "bool";
                       "any"; "auto"].
Proof.
  destruct t as [s|]; [|left; vm_compute; set_unfold; auto 10].
  destruct (decide (s = "")) as [->|Hs]; [left; vm_compute; set_unfold; auto 10|].
  unfold _canonical_type.
  assert (truthy (Some s) = true) as ->.
  { simpl. by apply negb_true_iff, bool_decide_eq_false. }
  cbn [negb default from_option id]. cbv zeta.
  repeat (case_bool_decide; [left; set_unfold; auto 10|]).
  right. exists s. split_and!; [done..|]. set_unfold. intuition auto 10.
Qed.

Lemma canonical_type_fixed t :
  _canonical_type (Some (_canonical_type t)) = _canonical_type t.
Proof.
  destruct (canonical_type_cases t) as [Hin|(s & Hs & -> & Hn)].
  - set_unfold in Hin. destruct Hin as [->|[->|[->|[->|[->|[]]]]]]; reflexivity.
  - unfold _canonical_type.
    assert (truthy (Some (lower s)) = true) as ->.
    { simpl. apply negb_true_iff, bool_decide_eq_false. by rewrite lower_empty. }
    cbn [negb default from_option id]. cbv zeta. rewrite lower_idem.
    set_unfold in Hn.
    repeat (case_bool_decide; [exfalso; tauto|]). done.
Qed.

(** X1. [_is_compatible] does not depend on the letter case of the two type
    names, and it answers for their canonical names as for the names
    themselves. *)
Theorem is_compatible_case_insensitive expected actual :
  _is_compatible (lower <$> expected) (lower <$> actual)
  = _is_compatible expected actual
  ∧ _is_compatible (Some (_canonical_type expected)) (Some (_canonical_type actual))
    = _is_compatible expected actual.
Proof.
  unfold _is_compatible. by rewrite !canonical_type_lower, !canonical_type_fixed.
Qed.

(** X2. [_is_compatible] accepts every type for itself; a missing type on
    either side, an expected [any] and an actual [auto] go with every type;
    and compatibility is transitive through a middle type whose canonical
    name is not [any]. *)
Theorem is_compatible_preorder :
  (∀ t, _is_compatible t t = true)
  ∧ (∀ t, _is_compatible None t = true ∧ _is_compatible t None = true
          ∧ _is_compatible (Some "any") t = true ∧ _is_compatible t (Some "auto") = true)
  ∧ (∀ e m a, _canonical_type m ≠ "any" →
       _is_compatible e m = true → _is_compatible m a = true →
       _is_compatible e a = true).
Proof.
  split_and!.
  - intros t. apply is_compatible_assignable. unfold assignable. auto.
  - intros t. split_and!; apply is_compatible_assignable; unfold assignable; auto.
  - intros e m a Hm. rewrite !is_compatible_assignable. unfold assignable.
    generalize dependent (_canonical_type m). generalize (_canonical_type e) (_canonical_type a).
    intros E A M HM. intuition (subst; try done; auto).
Qed.

(** ** The graph tables and the order *)

Lemma pending_nil_in_degree E v : pending E [] v = in_degree E v.
Proof.
  unfold pending, in_degree. f_equal. apply list_filter_iff.
  intros e. split; [tauto|]. intros ?. split; [done|]. apply not_elem_of_nil.
Qed.

Lemma add_edges_other pairs adj indeg k :
  (∀ e, e ∈ pairs → e.1 ≠ k ∧ e.2 ≠ k) →
  (foldl add_edge (adj, indeg) pairs).1 !! k = adj !! k
  ∧ (foldl add_edge (adj, indeg) pairs).2 !! k = indeg !! k.
Proof.
  revert adj indeg. induction pairs as [|[u v] r IH]; intros adj indeg Hk; simpl; [done|].
  unfold add_edge at 2 4. simpl.
  destruct (Hk (u, v)) as [Hu Hv]; [left|]. simpl in *.
  destruct (IH (<[u := adj !!! u ++ [v]]> adj) (<[v := indeg !!! v + 1]> indeg))
    as [-> ->]; [intros e He; apply Hk; by right|].
  by rewrite !lookup_insert_ne.
Qed.

Lemma add_edges_dom pairs adj indeg k :
  is_Some (indeg !! k) → is_Some ((foldl add_edge (adj, indeg) pairs).2 !! k).
Proof.
  revert adj indeg. induction pairs as [|[u v] r IH]; intros adj indeg Hk; simpl; [done|].
  apply IH. simpl. rewrite lookup_insert_is_Some. destruct (decide (v = k)); auto.
Qed.

Lemma init_dict_None {A} (v : A) ids k : k ∉ ids → init_dict v ids !! k = None.
Proof.
  unfold init_dict.
  assert (∀ m : gmap string A, k ∉ ids → m !! k = None →
            foldl (λ m nid, <[nid := v]> m) m ids !! k = None) as H.
  { induction ids as [|x r IH]; intros m; simpl; [done|].
    intros [Hx Hr]%not_elem_of_cons Hm. apply IH; [done|].
    by rewrite lookup_insert_ne. }
  intros Hk. by apply H.
Qed.

Lemma graph_of_pairs nodes edges :
  build_adj nodes edges
  = if nonempty edges
    then build_adj_edges edges (init_dict [] (map n_id nodes)) (init_dict 0 (map n_id nodes))
    else build_adj_inputs nodes (init_dict [] (map n_id nodes)) (init_dict 0 (map n_id nodes)).
Proof. reflexivity. Qed.

Lemma build_adj_fold nodes edges :
  endpoints_exist nodes (graph_of nodes edges) →
  build_adj nodes edges
  = inr (foldl add_edge (init_dict [] (map n_id nodes), init_dict 0 (map n_id nodes))
           (graph_of nodes edges)).
Proof.
  intros Hex. unfold build_adj, graph_of in *.
  set (V := map n_id nodes) in *.
  assert (∀ k, k ∈ V → is_Some (init_dict (@nil string) V !! k)) as Hdom.
  { intros k Hk. rewrite (init_dict_lookup _ _ _ Hk). eauto. }
  destruct (nonempty edges).
  - apply build_adj_edges_ok. intros e He.
    destruct (Hex (e_from e) (e_to e)) as [? ?]; [|by split; apply Hdom].
    apply list_elem_of_fmap. by exists e.
  - apply build_adj_inputs_ok. intros n inp Hn Hinp. apply Hdom.
    destruct (Hex inp (n_id n)) as [? ?]; [|done].
    unfold input_pairs. apply list_elem_of_In, in_flat_map.
    exists n. split; [by apply list_elem_of_In|].
    apply list_elem_of_In, list_elem_of_fmap. by exists inp.
Qed.

(** X3. When both endpoints of every edge of the graph are node ids,
    [build_adj] returns two tables whose keys are exactly the node ids:
    [adj[k]] lists the destinations of the edges that leave [k], in edge
    order, and [indeg[k]] is the number of edges that enter [k], an edge
    given twice counted twice. *)
Theorem build_adj_tables nodes edges :
  endpoints_exist nodes (graph_of nodes edges) →
  ∃ adj indeg,
    build_adj nodes edges = inr (adj, indeg)
    ∧ (∀ k, k ∈ map n_id nodes →
         adj !! k = Some (succs (graph_of nodes edges) k)
         ∧ indeg !! k = Some (Z.of_nat (in_degree (graph_of nodes edges) k)))
    ∧ (∀ k, k ∉ map n_id nodes → adj !! k = None ∧ indeg !! k = None).
Proof.
  intros Hex. rewrite (build_adj_fold _ _ Hex).
  set (V := map n_id nodes). set (E := graph_of nodes edges).
  eexists _, _. split; [f_equal; apply surjective_pairing|]. split.
  - intros k Hk.
    destruct (add_edges_spec E (init_dict [] V) (init_dict 0 V)) as (Ha & Hi & Hs).
    specialize (Ha k). specialize (Hi k).
    rewrite (lookup_total_correct _ _ _ (init_dict_lookup [] V k Hk)) in Ha.
    rewrite (lookup_total_correct _ _ _ (init_dict_lookup 0 V k Hk)) in Hi.
    rewrite pending_nil_in_degree in Hi. simpl in Ha, Hi.
    destruct (Hs k) as [l Hl]; [rewrite (init_dict_lookup [] V k Hk); eauto|].
    destruct (add_edges_dom E (init_dict [] V) (init_dict 0 V) k) as [z Hz];
      [rewrite (init_dict_lookup 0 V k Hk); eauto|].
    rewrite (lookup_total_correct _ _ _ Hl) in Ha.
    rewrite (lookup_total_correct _ _ _ Hz) in Hi.
    rewrite Hl, Hz. split; f_equal; [done|lia].
  - intros k Hk.
    destruct (add_edges_other E (init_dict [] V) (init_dict 0 V) k) as [-> ->].
    + intros [u v] Huv. apply Hex in Huv as [? ?]. simpl. split; intros ->; by apply Hk.
    + by rewrite !init_dict_None.
Qed.

Lemma tables_dom V pairs k :
  (∀ e, e ∈ pairs → e.1 ∈ V ∧ e.2 ∈ V) →
  (foldl add_edge (init_dict [] V, init_dict 0 V) pairs).1 !! k = None ↔ k ∉ V.
Proof.
  intros Hp. split.
  - intros Hnone Hk.
    destruct (add_edges_spec pairs (init_dict [] V) (init_dict 0 V)) as (_ & _ & Hs).
    destruct (Hs k) as [l Hl]; [rewrite (init_dict_lookup [] V k Hk); eauto|].
    congruence.
  - intros Hk.
    destruct (add_edges_other pairs (init_dict [] V) (init_dict 0 V) k) as [-> _].
    + intros e He. apply Hp in He as [? ?]. split; intros Heq; apply Hk; by rewrite <- Heq.
    + by apply init_dict_None.
Qed.

Lemma build_adj_edges_app pre rest adj indeg :
  build_adj_edges (pre ++ rest) adj indeg
  = Py.bind (build_adj_edges pre adj indeg)
      (λ t, build_adj_edges rest t.1 t.2).
Proof.
  revert adj indeg. induction pre as [|e r IH]; intros adj indeg; simpl; [done|].
  repeat case_bool_decide; done.
Qed.

Lemma build_adj_inputs_of_app nid pre rest adj indeg :
  build_adj_inputs_of nid (pre ++ rest) adj indeg
  = Py.bind (build_adj_inputs_of nid pre adj indeg)
      (λ t, build_adj_inputs_of nid rest t.1 t.2).
Proof.
  revert adj indeg. induction pre as [|e r IH]; intros adj indeg; simpl; [done|].
  case_bool_decide; done.
Qed.

Lemma build_adj_inputs_app pre rest adj indeg :
  build_adj_inputs (pre ++ rest) adj indeg
  = Py.bind (build_adj_inputs pre adj indeg)
      (λ t, build_adj_inputs rest t.1 t.2).
Proof.
  revert adj indeg. induction pre as [|n r IH]; intros adj indeg; simpl; [done|].
  destruct (build_adj_inputs_of _ _ _ _) as [e|[a i]]; simpl; [done|]. apply IH.
Qed.

Lemma edges_nonempty_app (pre : list edge) e post : nonempty (pre ++ e :: post) = true.
Proof. by destruct pre. Qed.

(** X4. [build_adj] raises at the first edge one of whose endpoints is no
    node id, and names the source if the source is unknown, the
    destination otherwise; with an empty edge list it raises at the first
    entry of an [inputs] list that is no node id, and names the node and
    the entry. *)
Theorem build_adj_unknown_endpoint nodes :
  let ids := map n_id nodes in
  (∀ pre e post,
     (∀ e', e' ∈ pre → e_from e' ∈ ids ∧ e_to e' ∈ ids) →
     ¬ (e_from e ∈ ids ∧ e_to e ∈ ids) →
     build_adj nodes (pre ++ e :: post)
     = raise (UnknownNode (if decide (e_from e ∈ ids) then e_to e else e_from e)))
  ∧ (∀ pre n post ins x ins',
       nodes = pre ++ n :: post →
       n_inputs n = ins ++ x :: ins' →
       (∀ m y, m ∈ pre → y ∈ n_inputs m → y ∈ ids) →
       (∀ y, y ∈ ins → y ∈ ids) →
       x ∉ ids →
       build_adj nodes [] = raise (UnknownInput (n_id n) x)).
Proof.
  intros ids. split.
  - intros pre e post Hpre He.
    unfold build_adj. rewrite edges_nonempty_app. fold ids.
    rewrite build_adj_edges_app, build_adj_edges_ok.
    2:{ intros e' [? ?]%Hpre. split; by rewrite init_dict_lookup. }
    unfold Py.bind. simpl.
    assert (∀ k, (foldl add_edge (init_dict [] ids, init_dict 0 ids) (edge_pairs pre)).1
                 !! k = None ↔ k ∉ ids) as Hdom.
    { intros k. apply tables_dom. intros p (e' & -> & He')%list_elem_of_fmap.
      by apply Hpre. }
    case_decide as Hf.
    + rewrite bool_decide_false by (rewrite Hdom; tauto).
      rewrite bool_decide_true; [done|]. rewrite Hdom. tauto.
    + by rewrite bool_decide_true by (by rewrite Hdom).
  - intros pre n post ins x ins' -> Hn Hpre Hins Hx.
    unfold build_adj. simpl. fold ids.
    rewrite build_adj_inputs_app, build_adj_inputs_ok.
    2:{ intros m y Hm Hy. rewrite init_dict_lookup; [eauto|]. by eapply Hpre. }
    unfold Py.bind. simpl. rewrite Hn.
    rewrite build_adj_inputs_of_app, build_adj_inputs_of_ok.
    2:{ intros y Hy.
        destruct (add_edges_spec (input_pairs pre) (init_dict [] ids) (init_dict 0 ids))
          as (_ & _ & Hs).
        apply Hs. rewrite init_dict_lookup; [eauto|]. by apply Hins. }
    unfold Py.bind. simpl.
    rewrite bool_decide_true; [done|].
    destruct (foldl add_edge (init_dict [] ids, init_dict 0 ids) (input_pairs pre))
      as [a i] eqn:Hf. simpl.
    destruct (add_edges_other (map (λ inp, (inp, n_id n)) ins) a i x) as [-> _].
    + intros p (y & -> & Hy)%list_elem_of_fmap. simpl.
      split; intros Heq; apply Hx; rewrite <- Heq; [by apply Hins|].
      unfold ids. rewrite map_app. apply elem_of_app. right. left.
    + change a with (a, i).1. rewrite <- Hf.
      destruct (add_edges_other (input_pairs pre) (init_dict [] ids) (init_dict 0 ids) x)
        as [-> _]; [|by apply init_dict_None].
      intros p Hp.
      unfold input_pairs in Hp. apply list_elem_of_In, in_flat_map in Hp as (m & Hm & Hp).
      apply list_elem_of_In, list_elem_of_fmap in Hp as (y & -> & Hy).
      apply list_elem_of_In in Hm. simpl. split; intros Heq; apply Hx; rewrite <- Heq.
      * by eapply Hpre.
      * unfold ids. rewrite map_app. apply elem_of_app. left.
        apply list_elem_of_fmap. by exists m.
Qed.

Lemma build_adj_unknown_endpoint_witness :
  build_adj nodes_X_Y [positional "X" "Y"; positional "Y" "ghost"; positional "zz" "X"]
  = raise (UnknownNode "ghost").
Proof.
  apply (proj1 (build_adj_unknown_endpoint nodes_X_Y)
           [positional "X" "Y"] (positional "Y" "ghost") [positional "zz" "X"]).
  - intros e' ->%list_elem_of_singleton. simpl. split; set_unfold; auto.
  - simpl. intros [_ H]. set_unfold. destruct H as [|[|[]]]; done.
Defined.

Lemma elem_of_dict_keys ids x : x ∈ dict_keys ids ↔ x ∈ ids.
Proof.
  induction ids as [|y r IH]; simpl; [done|].
  rewrite !elem_of_cons, list_elem_of_filter, IH.
  destruct (decide (x = y)); intuition.
Qed.

Lemma NoDup_dict_keys ids : NoDup (dict_keys ids).
Proof.
  induction ids as [|y r IH]; simpl; [constructor|].
  apply NoDup_cons. split; [|by apply NoDup_filter].
  rewrite list_elem_of_filter. tauto.
Qed.

Lemma length_dict_keys ids : (length (dict_keys ids) ≤ length ids)%nat.
Proof.
  induction ids as [|y r IH]; simpl; [done|].
  pose proof (length_filter (λ z, z ≠ y) (dict_keys r)). lia.
Qed.

Lemma filter_length_all {A} (P : A → Prop) `{∀ x, Decision (P x)} (l : list A) :
  length (filter P l) = length l → Forall P l.
Proof.
  induction l as [|x l IH]; [constructor|].
  pose proof (length_filter P l) as Hf.
  destruct (decide (P x)) as [Hx|Hx].
  - rewrite filter_cons_True by done. simpl. intros. constructor; [done|]. apply IH. lia.
  - rewrite filter_cons_False by done. simpl. lia.
Qed.

Lemma dict_keys_full ids : length (dict_keys ids) = length ids → NoDup ids.
Proof.
  induction ids as [|y r IH]; simpl; [constructor|].
  intros Hlen.
  pose proof (length_filter (λ z, z ≠ y) (dict_keys r)) as Hf.
  pose proof (length_dict_keys r) as Hr.
  assert (length (filter (λ z, z ≠ y) (dict_keys r)) = length (dict_keys r)) as Heq by lia.
  apply NoDup_cons. split; [|apply IH; lia].
  intros Hy%elem_of_dict_keys.
  assert (Forall (λ z, z ≠ y) (dict_keys r)) as Hall.
  { apply (filter_length_all _). lia. }
  rewrite Forall_forall in Hall. by apply (Hall y).
Qed.

Lemma id_to_node_of_is_Some nodes i :
  i ∈ map n_id nodes → is_Some (id_to_node_of nodes !! i).
Proof.
  unfold id_to_node_of.
  assert (∀ m : gmap string node, i ∈ map n_id nodes ∨ is_Some (m !! i) →
            is_Some (foldl (λ m n, <[n_id n := n]> m) m nodes !! i)) as H.
  { induction nodes as [|n r IH]; intros m; simpl.
    - intros [?%elem_of_nil|?]; done.
    - intros [[->|?]%elem_of_cons|Hm]; apply IH; auto; right.
      + rewrite lookup_insert_eq. eauto.
      + rewrite lookup_insert_is_Some. destruct (decide (n_id n = i)); auto. }
  intros Hi. apply H. by left.
Qed.

Lemma nodes_of_ids_total (m : gmap string node) order :
  (∀ i, i ∈ order → is_Some (m !! i)) →
  ∃ ordered, nodes_of_ids m order = inr ordered ∧ map n_id ordered = map n_id ordered.
Proof.
  induction order as [|i r IH]; intros Hi; simpl; [by eexists|].
  destruct (Hi i) as [n ->]; [left|].
  destruct IH as (ordered & -> & _); [intros j Hj; apply Hi; by right|].
  simpl. by eexists.
Qed.

(** What the two loops of [build_adj] answer, whatever the graph. *)
Lemma build_adj_edges_result edges adj indeg :
  (∃ t, build_adj_edges edges adj indeg = inr t
        ∧ ∀ e, e ∈ edges → is_Some (adj !! e_from e) ∧ is_Some (adj !! e_to e))
  ∨ ∃ x, build_adj_edges edges adj indeg = raise (UnknownNode x).
Proof.
  revert adj indeg. induction edges as [|e r IH]; intros adj indeg; simpl.
  { left. eexists. split; [done|]. by intros e ?%elem_of_nil. }
  case_bool_decide as Hf; [right; eauto|].
  case_bool_decide as Ht; [right; eauto|].
  destruct (IH (<[e_from e := adj !!! e_from e ++ [e_to e]]> adj)
               (<[e_to e := indeg !!! e_to e + 1]> indeg)) as [(t & -> & Hr)|[x ->]];
    [|right; eauto].
  left. eexists. split; [done|].
  apply not_eq_None_Some in Hf, Ht.
  intros e' [->|He']%elem_of_cons; [done|].
  destruct (Hr e' He') as [H1 H2]. rewrite !lookup_insert_is_Some in H1, H2.
  split; [destruct H1 as [<-|[_ ?]]|destruct H2 as [<-|[_ ?]]]; done.
Qed.

Lemma build_adj_inputs_of_result nid inps adj indeg :
  (∃ t, build_adj_inputs_of nid inps adj indeg = inr t
        ∧ (∀ inp, inp ∈ inps → is_Some (adj !! inp))
        ∧ ∀ k, is_Some (t.1 !! k) ↔ is_Some (adj !! k))
  ∨ ∃ x, build_adj_inputs_of nid inps adj indeg = raise (UnknownInput nid x).
Proof.
  revert adj indeg. induction inps as [|inp r IH]; intros adj indeg; simpl.
  { left. eexists. split; [done|]. split; [by intros e ?%elem_of_nil|done]. }
  case_bool_decide as Hf; [right; eauto|].
  destruct (IH (<[inp := adj !!! inp ++ [nid]]> adj)
               (<[nid := indeg !!! nid + 1]> indeg)) as [(t & -> & Hr & Hd)|[x ->]];
    [|right; eauto].
  apply not_eq_None_Some in Hf.
  assert (∀ k, is_Some (<[inp := adj !!! inp ++ [nid]]> adj !! k) ↔ is_Some (adj !! k))
    as Hk.
  { intros k. rewrite lookup_insert_is_Some. split; [intros [<-|[_ ?]]; done|].
    destruct (decide (inp = k)); auto. }
  left. eexists. split; [done|]. split.
  - intros inp' [->|He']%elem_of_cons; [done|]. apply Hk. by apply Hr.
  - intros k. by rewrite Hd, Hk.
Qed.

Lemma build_adj_inputs_result nodes adj indeg :
  (∃ t, build_adj_inputs nodes adj indeg = inr t
        ∧ ∀ n inp, n ∈ nodes → inp ∈ n_inputs n → is_Some (adj !! inp))
  ∨ ∃ n x, build_adj_inputs nodes adj indeg = raise (UnknownInput n x).
Proof.
  revert adj indeg. induction nodes as [|n r IH]; intros adj indeg; simpl.
  { left. eexists. split; [done|]. by intros n inp ?%elem_of_nil. }
  destruct (build_adj_inputs_of_result (n_id n) (n_inputs n) adj indeg)
    as [([a i] & -> & Hn & Hd)|[x ->]]; [|right; eauto]. simpl.
  destruct (IH a i) as [(t & -> & Hr)|(m & x & ->)]; [|right; eauto].
  left. eexists. split; [done|].
  intros m inp [->|Hm]%elem_of_cons Hinp; [by apply Hn|].
  apply Hd. by eapply Hr.
Qed.

Lemma build_adj_result nodes edges :
  (endpoints_exist nodes (graph_of nodes edges))
  ∨ ∃ d, build_adj nodes edges = raise d
         ∧ ((∃ x, d = UnknownNode x) ∨ (∃ n x, d = UnknownInput n x)).
Proof.
  unfold build_adj, graph_of. set (V := map n_id nodes).
  assert (∀ {A} (v : A) k, is_Some (init_dict v V !! k) → k ∈ V) as Hdom.
  { intros A v k Hk. destruct (decide (k ∈ V)) as [|Hn]; [done|].
    rewrite (init_dict_None v V k Hn) in Hk. by destruct Hk. }
  destruct (nonempty edges).
  - destruct (build_adj_edges_result edges (init_dict [] V) (init_dict 0 V))
      as [(t & _ & Hr)|[x ->]]; [left|right; eauto].
    intros u v (e & [= -> ->] & He)%list_elem_of_fmap.
    destruct (Hr e He). split; by eapply Hdom.
  - destruct (build_adj_inputs_result nodes (init_dict [] V) (init_dict 0 V))
      as [(t & _ & Hr)|(n & x & ->)]; [left|right; eauto 6].
    intros u v Huv. unfold input_pairs in Huv.
    apply list_elem_of_In, in_flat_map in Huv as (m & Hm & Hp).
    apply list_elem_of_In, list_elem_of_fmap in Hp as (y & [= -> ->] & Hy).
    apply list_elem_of_In in Hm. split; [by eapply Hdom, Hr|].
    apply list_elem_of_fmap. by exists m.
Qed.

Lemma filter_ext_in {A} (P Q : A → Prop) `{∀ x, Decision (P x)}
    `{∀ x, Decision (Q x)} (l : list A) :
  (∀ x, x ∈ l → P x ↔ Q x) → filter P l = filter Q l.
Proof.
  induction l as [|x l IH]; intros HPQ; [done|].
  rewrite !filter_cons, IH by (intros y Hy; apply HPQ; by right).
  destruct (decide (P x)) as [HP|HP], (decide (Q x)) as [HQ|HQ]; try done;
    exfalso; apply (HPQ x) in HP || apply (HPQ x) in HQ; try done; left.
Qed.

Lemma relax_extends ms (indeg : gmap string Z) q :
  ∃ new, (relax ms indeg q).2 = q ++ new.
Proof.
  revert indeg q. induction ms as [|m r IH]; intros indeg q; simpl.
  { exists []. by rewrite app_nil_r. }
  case_bool_decide.
  - destruct (IH (<[m := indeg !!! m - 1]> indeg) (q ++ [m])) as [new ->].
    exists (m :: new). by rewrite <- app_assoc.
  - apply IH.
Qed.

(** The queue is first in, first out: what is queued leaves the loop in
    the order it was queued, before anything queued later. *)
Lemma kahn_prefix fuel adj indeg q order res :
  kahn fuel adj indeg q order = Some res → ∃ rest, res = order ++ q ++ rest.
Proof.
  revert indeg q order. induction fuel as [|fuel IH]; intros indeg q order; simpl;
    [done|].
  destruct q as [|n q].
  { intros [= <-]. exists []. by rewrite !app_nil_r. }
  destruct (relax_extends (adj !!! n) indeg q) as [new Hnew].
  destruct (relax (adj !!! n) indeg q) as [indeg' q'']. simpl in Hnew. subst q''.
  intros (rest & ->)%IH. exists (new ++ rest).
  by rewrite <- !app_assoc.
Qed.

(** The run of [topological_sort] on a graph whose endpoints exist: the
    loop ends with an order that satisfies the invariant for the keys of
    the tables. *)
Lemma topological_sort_run nodes edges :
  endpoints_exist nodes (graph_of nodes edges) →
  let V := dict_keys (map n_id nodes) in
  let E := graph_of nodes edges in
  ∃ indeg' order,
    kahn_inv V E indeg' [] order
    ∧ (∃ rest, order = sources E V ++ rest)
    ∧ topological_sort nodes edges
      = if bool_decide (length order ≠ length nodes) then raise Cycle
        else nodes_of_ids (id_to_node_of nodes) order.
Proof.
  intros Hex V E.
  destruct (build_adj_spec nodes edges Hex) as (adj & indeg & Hb & Hadj & Hdeg).
  fold E in Hadj, Hdeg.
  assert (∀ u v, (u, v) ∈ E → u ∈ V ∧ v ∈ V) as HE.
  { intros u v Huv. apply Hex in Huv as [? ?]. unfold V. by rewrite !elem_of_dict_keys. }
  assert (∀ u, u ∈ V → adj !!! u = succs E u) as Hadj'.
  { intros u Hu. apply Hadj. by apply elem_of_dict_keys. }
  assert (∀ v, v ∈ V → indeg !!! v = Z.of_nat (pending E [] v)) as Hdeg'.
  { intros u Hu. apply Hdeg. by apply elem_of_dict_keys. }
  pose proof (kahn_inv_initial V E indeg (NoDup_dict_keys _) Hdeg') as Hinv.
  destruct (kahn_terminates V E adj HE Hadj' (S (length nodes)) indeg _ _ Hinv)
    as (indeg' & order & Hk & Hfin).
  { pose proof (length_dict_keys (map n_id nodes)) as Hl.
    rewrite length_map in Hl. fold V in Hl. simpl. lia. }
  exists indeg', order. split; [done|]. split.
  - apply kahn_prefix in Hk as [rest ->]. exists rest. simpl. f_equal.
    unfold sources. apply filter_ext_in. intros v Hv.
    rewrite (Hdeg' v Hv), pending_nil_in_degree. lia.
  - unfold topological_sort. rewrite Hb. unfold Py.bind. fold V. by rewrite Hk.
Qed.

Lemma topological_sort_unknown nodes edges d :
  build_adj nodes edges = raise d → topological_sort nodes edges = raise d.
Proof. intros Hb. unfold topological_sort. by rewrite Hb. Qed.

(** What a returned list tells. *)
Lemma topological_sort_inr nodes edges ordered :
  topological_sort nodes edges = inr ordered →
  NoDup (map n_id nodes)
  ∧ endpoints_exist nodes (graph_of nodes edges)
  ∧ acyclic (graph_of nodes edges)
  ∧ topological_order nodes (graph_of nodes edges) ordered
  ∧ ∃ rest, map n_id ordered
            = sources (graph_of nodes edges) (map n_id nodes) ++ rest.
Proof.
  intros Hr.
  destruct (build_adj_result nodes edges) as [Hex|(d & Hd & _)].
  2:{ rewrite (topological_sort_unknown _ _ _ Hd) in Hr. discriminate. }
  destruct (topological_sort_run nodes edges Hex)
    as (indeg' & order & Hinv & [rest Hrest] & Ht).
  rewrite Hr in Ht. case_bool_decide as Hlen; [discriminate|].
  pose proof (length_dict_keys (map n_id nodes)) as Hl. rewrite length_map in Hl.
  assert (NoDup (map n_id nodes)) as Hnd.
  { apply dict_keys_full. rewrite length_map.
    pose proof (kahn_inv_length _ _ _ _ _ Hinv) as Hk.
    simpl in Hk. lia. }
  rewrite (dict_keys_NoDup _ Hnd) in Hinv, Hrest.
  assert (length order = length (map n_id nodes)) as Hlen' by (by rewrite length_map).
  destruct (kahn_complete _ _ Hex indeg' order Hinv Hlen') as [Hperm Hprec].
  assert (NoDup order) as Hndo by (by rewrite Hperm).
  destruct (ordered_nodes nodes order Hnd Hperm) as (ordered' & Hm & Hids & Hp).
  assert (ordered' = ordered) as -> by congruence.
  split_and!; [done|done| | |].
  - by apply (acyclic_of_order _ order).
  - split; [done|]. intros u v Huv. rewrite Hids. by apply Hprec.
  - exists rest. by rewrite Hids.
Qed.

(** X5. Whenever [topological_sort] returns a list, the node ids are pairwise
    distinct, every endpoint of an edge is a node id, the graph has no
    cycle, and the list is a permutation of the nodes in which the source
    of every edge precedes its destination. *)
Theorem topological_sort_returns nodes edges ordered :
  topological_sort nodes edges = inr ordered →
  NoDup (map n_id nodes)
  ∧ endpoints_exist nodes (graph_of nodes edges)
  ∧ acyclic (graph_of nodes edges)
  ∧ topological_order nodes (graph_of nodes edges) ordered.
Proof.
  intros Hr. destruct (topological_sort_inr _ _ _ Hr) as (? & ? & ? & ? & _). done.
Qed.

Lemma topological_sort_sum_result : topological_sort nodes_sum edges_sum = inr sorted_sum.
Proof. vm_compute. reflexivity. Qed.

Lemma topological_sort_returns_witness :
  topological_sort nodes_sum edges_sum = inr sorted_sum
  ∧ acyclic (graph_of nodes_sum edges_sum).
Proof.
  split; [exact topological_sort_sum_result|].
  exact (proj1 (proj2 (proj2 (topological_sort_returns _ _ _
                                topological_sort_sum_result)))).
Defined.

(** X6. The order [topological_sort] returns begins with the nodes that no
    edge enters, in the order of the node list. *)
Theorem topological_sort_sources_first nodes edges ordered :
  topological_sort nodes edges = inr ordered →
  ∃ rest,
    map n_id ordered
    = sources (graph_of nodes edges) (map n_id nodes) ++ rest.
Proof.
  intros Hr. by destruct (topological_sort_inr _ _ _ Hr) as (_ & _ & _ & _ & ?).
Qed.

Lemma topological_sort_sources_first_witness :
  ∃ rest, map n_id sorted_sum
          = sources (graph_of nodes_sum edges_sum) (map n_id nodes_sum) ++ rest.
Proof.
  exact (topological_sort_sources_first _ _ _ topological_sort_sum_result).
Defined.

(** Every call ends in a list, a permutation of the nodes, or in one of
    the three validation errors. *)
Lemma topological_sort_result nodes edges :
  (∃ ordered, topological_sort nodes edges = inr ordered ∧ ordered ≡ₚ nodes)
  ∨ ∃ d, topological_sort nodes edges = raise d ∧ graph_error d.
Proof.
  destruct (build_adj_result nodes edges) as [Hex|(d & Hd & He)].
  2:{ right. exists d. split; [by apply topological_sort_unknown|].
      unfold graph_error. tauto. }
  destruct (topological_sort_run nodes edges Hex)
    as (indeg' & order & Hinv & _ & Ht).
  destruct (decide (length order ≠ length nodes)) as [Hne|Hlen].
  { right. exists Cycle. split; [by rewrite Ht, bool_decide_true|by left]. }
  left. destruct (nodes_of_ids_total (id_to_node_of nodes) order)
    as (ordered & Ho & _).
  { intros i Hi. apply id_to_node_of_is_Some.
    destruct Hinv as (_ & Hsub & _). rewrite app_nil_r in Hsub.
    by apply elem_of_dict_keys, Hsub. }
  assert (topological_sort nodes edges = inr ordered) as Hr
    by (by rewrite Ht, bool_decide_false).
  exists ordered. split; [done|].
  by destruct (topological_sort_inr _ _ _ Hr) as (_ & _ & _ & [? _] & _).
Qed.

(** X7. [topological_sort] ends with a list or with one of the validation
    errors for a cycle, an unknown node or an unknown input: no lookup of
    its tables fails and its loop ends. When every endpoint exists and two
    nodes share an id, it raises the cycle error. *)
Theorem topological_sort_outcome nodes edges :
  ((∃ ordered, topological_sort nodes edges = inr ordered)
   ∨ ∃ d, topological_sort nodes edges = raise d ∧ graph_error d)
  ∧ (endpoints_exist nodes (graph_of nodes edges) →
     ¬ NoDup (map n_id nodes) →
     topological_sort nodes edges = raise Cycle).
Proof.
  split.
  - destruct (topological_sort_result nodes edges) as [(o & ? & _)|?]; [left|right]; eauto.
  - intros Hex Hdup.
    destruct (topological_sort_run nodes edges Hex)
      as (indeg' & order & Hinv & _ & ->).
    rewrite bool_decide_true; [done|]. intros Hlen.
    apply Hdup, dict_keys_full.
    pose proof (kahn_inv_length _ _ _ _ _ Hinv) as Hk.
    pose proof (length_dict_keys (map n_id nodes)) as Hl.
    rewrite length_map in *. simpl in Hk. lia.
Qed.

(** ** Outcomes of validation *)

Lemma filter_all {A} (P : A → Prop) `{∀ x, Decision (P x)} (l : list A) :
  (∀ x, x ∈ l → P x) → filter P l = l.
Proof.
  induction l as [|x l IH]; intros HP; [done|].
  rewrite filter_cons_True by (apply HP; left). f_equal. apply IH.
  intros y Hy. apply HP. by right.
Qed.

Lemma dict_keys_snoc ids x :
  dict_keys (ids ++ [x])
  = if decide (x ∈ ids) then dict_keys ids else dict_keys ids ++ [x].
Proof.
  induction ids as [|y r IH]; simpl; [done|]. rewrite IH.
  destruct (decide (x ∈ r)) as [Hr|Hr].
  - rewrite decide_True by (by right). done.
  - rewrite filter_app. destruct (decide (x = y)) as [->|Hxy].
    + rewrite decide_True by left. rewrite filter_cons_False by tauto.
      by rewrite filter_nil, app_nil_r.
    + rewrite decide_False by (rewrite elem_of_cons; tauto).
      by rewrite filter_cons_True by done.
Qed.

Lemma setdefault_append_map (g : string → list conn) to c ks :
  NoDup ks →
  setdefault_append to c (map (λ d, (d, g d)) ks)
  = if decide (to ∈ ks)
    then map (λ d, (d, if decide (d = to) then g d ++ [c] else g d)) ks
    else map (λ d, (d, g d)) ks ++ [(to, [c])].
Proof.
  induction ks as [|k ks IH]; intros Hnd; simpl; [done|].
  apply NoDup_cons in Hnd as [Hk Hnd].
  case_bool_decide as Hkt.
  - subst k. rewrite decide_True by left. rewrite decide_True by done. f_equal.
    apply map_ext_in. intros d Hd%list_elem_of_In.
    rewrite decide_False; [done|]. by intros ->.
  - rewrite IH by done. destruct (decide (to ∈ ks)) as [Hin|Hin].
    + rewrite decide_True by (by right). by rewrite decide_False by done.
    + rewrite decide_False by (rewrite elem_of_cons; intros [?|?]; congruence). done.
Qed.

Lemma incoming_by_dest_snoc conns c :
  incoming_by_dest (conns ++ [c]) = setdefault_append (c_to c) c (incoming_by_dest conns).
Proof. unfold incoming_by_dest. by rewrite foldl_app. Qed.

Lemma incoming_snoc conns c d :
  incoming (conns ++ [c]) d = incoming conns d ++ (if decide (c_to c = d) then [c] else []).
Proof.
  unfold incoming. rewrite filter_app, filter_cons. by destruct (decide (c_to c = d)).
Qed.

(** X8. The table [incoming_by_dest] of [validate_types] has one group per
    destination, in the order in which the destinations first occur, and
    each group holds the connections into its destination in the order of
    the connection list. *)
Theorem incoming_by_dest_groups conns :
  incoming_by_dest conns
  = map (λ d, (d, incoming conns d)) (dict_keys (map c_to conns)).
Proof.
  induction conns as [|c conns IH] using rev_ind; [done|].
  rewrite incoming_by_dest_snoc, IH, map_app. simpl. rewrite dict_keys_snoc.
  rewrite setdefault_append_map by apply NoDup_dict_keys.
  destruct (decide (c_to c ∈ dict_keys (map c_to conns))) as [Hin|Hin].
  - rewrite decide_True by (by apply elem_of_dict_keys).
    apply map_ext. intros d. f_equal. rewrite incoming_snoc.
    destruct (decide (d = c_to c)) as [->|Hd].
    + by rewrite decide_True.
    + rewrite decide_False by done. by rewrite app_nil_r.
  - rewrite decide_False by (by rewrite <- elem_of_dict_keys).
    rewrite map_app. simpl. f_equal.
    + apply map_ext_in. intros d Hd%list_elem_of_In. f_equal. rewrite incoming_snoc.
      rewrite decide_False; [by rewrite app_nil_r|]. by intros <-.
    + f_equal. f_equal. rewrite incoming_snoc, decide_True by done.
      unfold incoming. rewrite filter_none; [done|].
      intros x Hx Heq. apply Hin, elem_of_dict_keys, list_elem_of_fmap. by exists x.
Qed.

Lemma literal_types_app node_defs pre post tbl :
  literal_types node_defs (pre ++ post) tbl
  = Py.bind (literal_types node_defs pre tbl) (literal_types node_defs post).
Proof.
  revert tbl. induction pre as [|n r IH]; intros tbl; simpl; [done|].
  destruct (negb _); [done|apply IH].
Qed.

Lemma literal_types_known node_defs nodes tbl :
  (∀ n, n ∈ nodes → known_type node_defs n) →
  ∃ lits, literal_types node_defs nodes tbl = inr lits.
Proof.
  revert tbl. induction nodes as [|n r IH]; intros tbl Hk; simpl; [by eexists|].
  unfold known_type in Hk. rewrite (Hk n) by left. simpl.
  apply IH. intros m Hm. apply Hk. by right.
Qed.

Lemma literal_types_result node_defs nodes tbl :
  (∃ lits, literal_types node_defs nodes tbl = inr lits
           ∧ ∀ n, n ∈ nodes → known_type node_defs n)
  ∨ ∃ n, n ∈ nodes ∧ ¬ known_type node_defs n
         ∧ literal_types node_defs nodes tbl
           = raise (UnknownNodeType (n_id n) (n_type n)).
Proof.
  revert tbl. induction nodes as [|n r IH]; intros tbl; simpl.
  { left. eexists. split; [done|]. by intros n ?%elem_of_nil. }
  destruct (from_option tdef_truthy false (node_defs !! n_type n)) eqn:Hn; simpl.
  - destruct (IH (if bool_decide (n_type n = "Literal")
                  then <[n_id n := Some (_infer_literal_type (n_value n))]> tbl
                  else tbl)) as [(lits & -> & Hk)|(m & Hm & Hnk & ->)].
    + left. eexists. split; [done|]. intros m [->|Hm]%elem_of_cons; [done|by apply Hk].
    + right. exists m. split_and!; [by right|done|done].
  - right. exists n. split_and!; [left| |done]. unfold known_type. by rewrite Hn.
Qed.

Lemma check_endpoints_result id_to_node conns :
  (check_endpoints id_to_node conns = inr tt
   ∧ ∀ c, c ∈ conns → is_Some (id_to_node !! c_from c) ∧ is_Some (id_to_node !! c_to c))
  ∨ ∃ c, c ∈ conns
         ∧ (id_to_node !! c_from c = None ∨ id_to_node !! c_to c = None)
         ∧ check_endpoints id_to_node conns = raise (UnknownEndpoint (c_from c) (c_to c)).
Proof.
  induction conns as [|c r IH]; simpl.
  { left. split; [done|]. by intros c ?%elem_of_nil. }
  case_bool_decide as Hc.
  - right. exists c. split_and!; [left|done|done].
  - destruct IH as [[-> Hk]|(c' & Hc' & Hn & ->)].
    + left. split; [done|]. intros c' [->|?]%elem_of_cons; [|by apply Hk].
      rewrite <- !not_eq_None_Some. tauto.
    + right. exists c'. split_and!; [by right|done|done].
Qed.

Section outcomes.

Context (node_defs : gmap string tdef) (id_to_node : gmap string node)
        (id_to_out_type : gmap string (option string)).

Lemma expected_type_result dest dest_inputs idx toPort :
  (∃ t, expected_type dest dest_inputs idx toPort = inr t)
  ∨ ∃ d, expected_type dest dest_inputs idx toPort = raise d.
Proof.
  unfold expected_type. destruct (truthy toPort).
  - destruct (find _ dest_inputs); eauto.
  - destruct (dest_inputs !! idx); eauto.
Qed.

Lemma actual_type_result frm outs fromPort :
  (∃ t, actual_type frm outs id_to_out_type fromPort = inr t)
  ∨ ∃ d, actual_type frm outs id_to_out_type fromPort = raise d.
Proof.
  unfold actual_type. destruct (truthy fromPort).
  - destruct (find _ outs); eauto.
  - destruct (negb _); [destruct outs|]; eauto.
Qed.

(** One pass of the inner loop on a connection whose source is known. *)
Lemma check_connection_result dest dest_inputs idx c src :
  id_to_node !! c_from c = Some src →
  (check_connection node_defs id_to_node id_to_out_type dest dest_inputs idx c = inr tt
   ∧ ∃ expected actual,
       expected_type dest dest_inputs idx (c_toPort c) = inr expected
       ∧ actual_type (c_from c) (tdef_outputs (defs_get node_defs (n_type src)))
           id_to_out_type (c_fromPort c) = inr actual
       ∧ assignable (_canonical_type expected) (_canonical_type actual))
  ∨ ∃ d, check_connection node_defs id_to_node id_to_out_type dest dest_inputs idx c
         = raise d.
Proof.
  intros Hs. unfold check_connection, Py.bind. rewrite Hs.
  destruct (expected_type_result dest dest_inputs idx (c_toPort c)) as [[e ->]|[d ->]];
    [|right; eauto].
  destruct (actual_type_result (c_from c)
              (tdef_outputs (defs_get node_defs (n_type src))) (c_fromPort c))
    as [[a ->]|[d ->]]; [|right; eauto].
  destruct (_is_compatible e a) eqn:Hc; simpl; [|right; eauto].
  left. split; [done|]. exists e, a. split_and!; [done..|].
  by apply is_compatible_assignable.
Qed.

Lemma check_incoming_result dest dest_inputs idx incoming :
  (∀ c, c ∈ incoming → is_Some (id_to_node !! c_from c)) →
  (check_incoming node_defs id_to_node id_to_out_type dest dest_inputs idx incoming
     = inr tt
   ∧ ∀ k c, incoming !! k = Some c →
       check_connection node_defs id_to_node id_to_out_type dest dest_inputs
         (idx + k) c = inr tt)
  ∨ ∃ d, check_incoming node_defs id_to_node id_to_out_type dest dest_inputs idx
           incoming = raise d.
Proof.
  revert idx. induction incoming as [|c r IH]; intros idx Hk; simpl.
  { left. split; [done|]. by intros k c ?. }
  destruct (Hk c) as [src Hs]; [left|].
  destruct (check_connection_result dest dest_inputs idx c src Hs) as [[Hc _]|[d ->]];
    [|right; eauto].
  rewrite Hc. simpl.
  destruct (IH (S idx)) as [[-> Hr]|[d ->]]; [intros c' ?; apply Hk; by right| |right; eauto].
  left. split; [done|]. intros [|k] c'; simpl.
  - intros [= <-]. by rewrite Nat.add_0_r.
  - intros Hk'. replace (idx + S k)%nat with (S idx + k)%nat by lia. by apply Hr.
Qed.

Lemma check_dests_result groups :
  (∀ dest incoming, (dest, incoming) ∈ groups →
     is_Some (id_to_node !! dest)
     ∧ ∀ c, c ∈ incoming → is_Some (id_to_node !! c_from c)) →
  (check_dests node_defs id_to_node id_to_out_type groups = inr tt
   ∧ ∀ dest incoming dest_node k c,
       (dest, incoming) ∈ groups → id_to_node !! dest = Some dest_node →
       incoming !! k = Some c →
       check_connection node_defs id_to_node id_to_out_type dest
         (tdef_inputs (defs_get node_defs (n_type dest_node))) k c = inr tt)
  ∨ ∃ d, check_dests node_defs id_to_node id_to_out_type groups = raise d.
Proof.
  induction groups as [|[dest incoming] rest IH]; intros Hk; simpl.
  { left. split; [done|]. by intros ????? ?%elem_of_nil. }
  destruct (Hk dest incoming) as [[dest_node Hd] Hf]; [left|]. rewrite Hd.
  destruct (check_incoming_result dest
              (tdef_inputs (defs_get node_defs (n_type dest_node))) 0 incoming Hf)
    as [[-> Hin]|[d ->]]; [|right; eauto]. simpl.
  destruct IH as [[-> Hr]|[d ->]]; [intros d i ?; apply Hk; by right| |right; eauto].
  left. split; [done|].
  intros dest' incoming' dest_node' k c [[= -> ->]|Hg]%elem_of_cons Hd' Hc.
  - assert (dest_node' = dest_node) as -> by congruence. by apply (Hin k c).
  - by eapply Hr.
Qed.

(** The converse: when every pass answers, so does the loop. *)
Lemma check_incoming_ok dest dest_inputs idx incoming :
  (∀ k c, incoming !! k = Some c →
     check_connection node_defs id_to_node id_to_out_type dest dest_inputs
       (idx + k) c = inr tt) →
  check_incoming node_defs id_to_node id_to_out_type dest dest_inputs idx incoming
  = inr tt.
Proof.
  revert idx. induction incoming as [|c r IH]; intros idx Hk; simpl; [done|].
  rewrite <- (Nat.add_0_r idx) at 1. rewrite (Hk 0%nat c) by done. simpl.
  apply IH. intros k c' Hc'. replace (S idx + k)%nat with (idx + S k)%nat by lia.
  by apply Hk.
Qed.

Lemma check_dests_ok groups :
  (∀ dest incoming, (dest, incoming) ∈ groups →
     ∃ dest_node, id_to_node !! dest = Some dest_node
       ∧ ∀ k c, incoming !! k = Some c →
           check_connection node_defs id_to_node id_to_out_type dest
             (tdef_inputs (defs_get node_defs (n_type dest_node))) k c = inr tt) →
  check_dests node_defs id_to_node id_to_out_type groups = inr tt.
Proof.
  induction groups as [|[dest incoming] rest IH]; intros Hk; simpl; [done|].
  destruct (Hk dest incoming) as (dest_node & -> & Hc); [left|].
  rewrite check_incoming_ok by done. simpl.
  apply IH. intros d i ?. apply Hk. by right.
Qed.

End outcomes.

Lemma check_endpoints_ok id_to_node conns :
  (∀ c, c ∈ conns → is_Some (id_to_node !! c_from c) ∧ is_Some (id_to_node !! c_to c)) →
  check_endpoints id_to_node conns = inr tt.
Proof.
  induction conns as [|c r IH]; intros Hk; simpl; [done|].
  destruct (Hk c) as [H1 H2]; [left|].
  rewrite bool_decide_false.
  - apply IH. intros c' ?. apply Hk. by right.
  - rewrite <- !not_eq_None_Some in H1, H2. tauto.
Qed.

Lemma groups_of_elem conns dest incoming' :
  (dest, incoming') ∈ groups_of conns ↔
  dest ∈ map c_to conns ∧ incoming' = incoming conns dest.
Proof.
  unfold groups_of. split.
  - intros (d & [= -> ->] & Hd)%list_elem_of_fmap. split; [by apply elem_of_dict_keys|done].
  - intros [Hd ->]. apply list_elem_of_fmap. exists dest. split; [done|].
    by rewrite elem_of_dict_keys.
Qed.

Lemma incoming_lookup conns dest k c :
  incoming conns dest !! k = Some c → c ∈ conns ∧ c_to c = dest.
Proof.
  intros Hk%list_elem_of_lookup_2. unfold incoming in Hk.
  apply list_elem_of_filter in Hk. tauto.
Qed.

Lemma incoming_position conns c :
  c ∈ conns → ∃ k, incoming conns (c_to c) !! k = Some c.
Proof.
  intros Hc. apply list_elem_of_lookup. unfold incoming.
  apply list_elem_of_filter. done.
Qed.

(** The endpoint check opens the way for the loop over the groups. *)
Lemma groups_known (id_to_node : gmap string node) conns :
  (∀ c, c ∈ conns → is_Some (id_to_node !! c_from c) ∧ is_Some (id_to_node !! c_to c)) →
  ∀ dest incoming', (dest, incoming') ∈ incoming_by_dest conns →
    is_Some (id_to_node !! dest)
    ∧ ∀ c, c ∈ incoming' → is_Some (id_to_node !! c_from c).
Proof.
  intros Hk dest incoming' Hg. rewrite incoming_by_dest_groups in Hg.
  apply groups_of_elem in Hg as [(c & -> & Hc)%list_elem_of_fmap ->]. split.
  - by apply Hk.
  - intros c' [_ Hc']%list_elem_of_filter. by apply Hk.
Qed.

(** X9. [validate_types] returns [True] or raises a validation error: none of
    its lookups fails otherwise. *)
Theorem validate_types_outcome nodes node_defs edges :
  validate_types nodes node_defs edges = inr true
  ∨ ∃ d, validate_types nodes node_defs edges = raise d.
Proof.
  unfold validate_types, Py.bind.
  destruct (literal_types_result node_defs nodes ∅) as [(lits & -> & _)|(n & _ & _ & ->)];
    [|right; eauto].
  destruct (check_endpoints_result (id_to_node_of nodes) (conns_of nodes edges))
    as [[-> Hk]|(c & _ & _ & ->)]; [|right; eauto].
  destruct (check_dests_result node_defs (id_to_node_of nodes)
              (declared_types node_defs nodes lits)
              (incoming_by_dest (conns_of nodes edges)) (groups_known _ _ Hk))
    as [[-> _]|[d ->]]; [by left|right; eauto].
Qed.

(** X10. [validate_types] returns [True] exactly when the type of every node
    has a catalog entry, the table of output types can be built, and every
    connection, at its position among the connections into its
    destination, joins two nodes of the graph whose expected and actual
    types resolve and are assignable. *)
Theorem validate_types_accepts nodes node_defs edges :
  validate_types nodes node_defs edges = inr true
  ↔ (∀ n, n ∈ nodes → known_type node_defs n)
    ∧ ∃ id_to_out_type,
        out_types nodes node_defs = Some id_to_out_type
        ∧ ∀ dest idx c,
            incoming (conns_of nodes edges) dest !! idx = Some c →
            connection_ok nodes node_defs id_to_out_type idx c.
Proof.
  unfold validate_types, out_types, Py.bind. split.
  - destruct (literal_types_result node_defs nodes ∅) as [(lits & -> & Hty)|(n & _ & _ & ->)];
      [|discriminate].
    destruct (check_endpoints_result (id_to_node_of nodes) (conns_of nodes edges))
      as [[-> Hk]|(c & _ & _ & ->)]; [|discriminate].
    destruct (check_dests_result node_defs (id_to_node_of nodes)
                (declared_types node_defs nodes lits)
                (incoming_by_dest (conns_of nodes edges)) (groups_known _ _ Hk))
      as [[-> Hc]|[d ->]]; [|discriminate].
    intros _. split; [done|]. eexists. split; [done|].
    intros dest idx c Hidx.
    destruct (incoming_lookup _ _ _ _ Hidx) as [Hin <-].
    destruct (Hk c Hin) as [[src Hs] [dest_node Hd]].
    specialize (Hc (c_to c) (incoming (conns_of nodes edges) (c_to c)) dest_node idx c).
    rewrite incoming_by_dest_groups in Hc.
    assert (check_connection node_defs (id_to_node_of nodes)
              (declared_types node_defs nodes lits) (c_to c)
              (tdef_inputs (defs_get node_defs (n_type dest_node))) idx c = inr tt) as Hcc.
    { apply Hc; [|done..]. apply groups_of_elem. split; [|done].
      apply list_elem_of_fmap. by exists c. }
    destruct (check_connection_result node_defs (id_to_node_of nodes)
                (declared_types node_defs nodes lits) (c_to c)
                (tdef_inputs (defs_get node_defs (n_type dest_node))) idx c src Hs)
      as [[_ (e & a & He & Ha & Has)]|[d Hd']]; [|rewrite Hcc in Hd'; discriminate].
    by exists src, dest_node, e, a.
  - intros [Hty (tbl & Ht & Hok)].
    destruct (literal_types_known node_defs nodes ∅ Hty) as [lits Hl].
    rewrite Hl in Ht |- *. injection Ht as <-.
    rewrite check_endpoints_ok.
    2:{ intros c Hc. destruct (incoming_position _ _ Hc) as [k Hk].
        destruct (Hok _ _ _ Hk) as (src & dn & _ & _ & -> & -> & _). eauto. }
    rewrite check_dests_ok; [done|].
    intros dest incoming' Hg. rewrite incoming_by_dest_groups in Hg.
    apply groups_of_elem in Hg as [(c0 & -> & Hc0)%list_elem_of_fmap ->].
    destruct (incoming_position _ _ Hc0) as [k0 Hk0].
    destruct (Hok _ _ _ Hk0) as (_ & dn & _ & _ & _ & Hdn & _).
    exists dn. split; [done|].
    intros k c Hk. destruct (incoming_lookup _ _ _ _ Hk) as [Hc Hto].
    destruct (Hok _ _ _ Hk) as (src & dn' & e & a & Hs & Hdn' & He & Ha & Has).
    rewrite Hto in *. assert (dn' = dn) as -> by congruence.
    by eapply check_connection_accepts.
Qed.

(** X11. [validate_types] raises the error of an unknown node type for the
    first node of the list whose type has no catalog entry, with the id
    and the type of that node, whatever the connections are. *)
Theorem validate_types_unknown_node_type nodes node_defs edges pre n post :
  nodes = pre ++ n :: post →
  (∀ m, m ∈ pre → known_type node_defs m) →
  ¬ known_type node_defs n →
  validate_types nodes node_defs edges
  = raise (UnknownNodeType (n_id n) (n_type n)).
Proof.
  intros -> Hpre Hn. unfold validate_types.
  rewrite literal_types_app.
  destruct (literal_types_known node_defs pre ∅ Hpre) as [lits ->]. simpl.
  unfold known_type in Hn. apply not_true_is_false in Hn. by rewrite Hn.
Qed.

Lemma validate_types_unknown_node_type_witness :
  validate_types [mk_node "l1" "Literal" (VInt 1) []; mk_node "m" "Mystery" VNone ["zz"]]
    catalog3 [positional "l1" "nowhere"]
  = raise (UnknownNodeType "m" "Mystery").
Proof.
  apply (validate_types_unknown_node_type _ catalog3 _
           [mk_node "l1" "Literal" (VInt 1) []] (mk_node "m" "Mystery" VNone ["zz"]) []).
  - reflexivity.
  - intros m ->%list_elem_of_singleton. reflexivity.
  - unfold known_type. vm_compute. discriminate.
Defined.

(** ** Normalization and diagnostics, continued *)

Lemma append_new_dict_keys x l :
  append_new x (dict_keys l) = dict_keys (l ++ [x]).
Proof.
  rewrite dict_keys_snoc. unfold append_new.
  destruct (decide (x ∈ l)) as [Hx|Hx].
  - by rewrite bool_decide_true by (by apply elem_of_dict_keys).
  - by rewrite bool_decide_false by (by rewrite elem_of_dict_keys).
Qed.

(** The table a loop of [add_to] builds, entry by entry. *)
Lemma add_to_fold (f g : edge → string) edges (d : gmap string (list string)) k :
  default [] (d !! k) = [] →
  default [] (foldl (λ m e, add_to (f e) (g e) m) d edges !! k)
  = dict_keys (map g (filter (λ e, f e = k) edges)).
Proof.
  intros Hd. induction edges as [|e edges IH] using rev_ind; [done|].
  rewrite foldl_app, filter_app, map_app. simpl.
  unfold add_to at 1. rewrite lookup_insert.
  destruct (decide (f e = k)) as [Hk|Hk].
  - rewrite filter_cons_True by done. simpl.
    rewrite <- append_new_dict_keys, <- IH. by rewrite Hk.
  - rewrite filter_cons_False by done. simpl. by rewrite app_nil_r.
Qed.

Lemma maps_of_edges_filter (node_ids : gset string) edges :
  maps_of_edges node_ids edges
  = maps_of_edges node_ids
      (filter (λ e, e_from e ∈ node_ids ∧ e_to e ∈ node_ids) edges).
Proof.
  unfold maps_of_edges.
  generalize (empty_lists node_ids, empty_lists node_ids).
  induction edges as [|e r IH]; intros acc; [done|].
  rewrite filter_cons. simpl. destruct acc as [im om].
  destruct (decide (e_from e ∈ node_ids ∧ e_to e ∈ node_ids)) as [Hv|Hv].
  - simpl. rewrite bool_decide_false by tauto. apply IH.
  - rewrite bool_decide_true; [apply IH|].
    destruct (decide (e_from e ∈ node_ids)), (decide (e_to e ∈ node_ids)); tauto.
Qed.

Lemma valid_edges_set i :
  filter (λ e, e_from e ∈ (list_to_set (ids_of i) : gset string)
               ∧ e_to e ∈ (list_to_set (ids_of i) : gset string)) (ir_edges i)
  = valid_edges i.
Proof.
  unfold valid_edges. apply list_filter_iff. intros e.
  by rewrite !elem_of_list_to_set.
Qed.

Lemma maps_of_edges_tables i k :
  default [] ((maps_of_edges (list_to_set (ids_of i)) (ir_edges i)).1 !! k)
  = sources_of (valid_edges i) k
  ∧ default [] ((maps_of_edges (list_to_set (ids_of i)) (ir_edges i)).2 !! k)
    = targets_of (valid_edges i) k.
Proof.
  rewrite maps_of_edges_filter, valid_edges_set.
  rewrite maps_of_edges_valid.
  2:{ intros e He. unfold valid_edges in He.
      apply list_elem_of_filter in He as [[? ?] _]. by rewrite !elem_of_list_to_set. }
  simpl. unfold outputs_of_edges, sources_of, targets_of.
  split; apply add_to_fold, empty_lists_default.
Qed.

(** X12. For an IR with a non-empty edge list, [normalize_ir] sets the inputs
    of every node to the sources of the valid edges that enter it, and its
    outputs to the destinations of the valid edges that leave it, each
    once, in the order of first occurrence; the valid edges are those both
    of whose endpoints are node ids. *)
Theorem normalize_ir_rebuilds_neighbours (i : ir) (n' : node) :
  ir_edges i ≠ [] →
  n' ∈ ir_nodes (normalize_ir i) →
  n_inputs n' = sources_of (valid_edges i) (n_id n')
  ∧ n_outputs n' = targets_of (valid_edges i) (n_id n').
Proof.
  intros Hne. rewrite (normalize_ir_present i Hne). simpl.
  intros (n & -> & _)%list_elem_of_fmap. unfold rebuilt. simpl.
  apply maps_of_edges_tables.
Qed.

Lemma dedup_edges_keys seen edges :
  NoDup (map edge_key (dedup_edges seen edges))
  ∧ ∀ e, e ∈ dedup_edges seen edges → edge_key e ∉ seen.
Proof.
  revert seen. induction edges as [|x r IH]; intros seen; simpl.
  { split; [constructor|]. by intros e ?%elem_of_nil. }
  case_bool_decide as Hx; [apply IH|].
  destruct (IH ({[(e_from x, e_to x)]} ∪ seen)) as [Hnd Hout]. split.
  - simpl. apply NoDup_cons. split; [|done].
    intros (e & Hk & He)%list_elem_of_fmap. apply (Hout e He).
    rewrite <- Hk. unfold edge_key. set_unfold. by left.
  - intros e [->|He]%elem_of_cons; [done|].
    intros Hs. apply (Hout e He). set_unfold. by right.
Qed.

Lemma dedup_edges_covers seen edges e :
  e ∈ edges → edge_key e ∉ seen →
  ∃ e', e' ∈ dedup_edges seen edges ∧ edge_key e' = edge_key e.
Proof.
  revert seen. induction edges as [|x r IH]; intros seen; simpl.
  { by intros ?%elem_of_nil. }
  intros [->|He]%elem_of_cons Hs.
  - rewrite bool_decide_false by done. exists x. split; [left|done].
  - case_bool_decide as Hx.
    + destruct (IH seen He Hs) as (e' & ? & ?). by exists e'.
    + destruct (decide (edge_key e = edge_key x)) as [Hk|Hk].
      * exists x. split; [left|done].
      * destruct (IH ({[(e_from x, e_to x)]} ∪ seen) He) as (e' & ? & ?).
        { set_unfold. intros [?|?]; [|done]. by apply Hk. }
        exists e'. split; [by right|done].
Qed.

Lemma positional_key e :
  e_fromPort e = None → e_toPort e = None → e = positional (e_from e) (e_to e).
Proof. destruct e. simpl. by intros -> ->. Qed.

Lemma edges_of_inputs_spec (node_ids : gset string) nodes e :
  e ∈ edges_of_inputs node_ids nodes
  ↔ ∃ n x, n ∈ nodes ∧ x ∈ n_inputs n ∧ x ∈ node_ids ∧ e = positional x (n_id n).
Proof.
  unfold edges_of_inputs. rewrite list_elem_of_In, in_flat_map. split.
  - intros (n & Hn%list_elem_of_In & He%list_elem_of_In).
    apply list_elem_of_fmap in He as (inp & -> & Hinp).
    apply list_elem_of_filter in Hinp as [Hin Hinp]. by exists n, inp.
  - intros (n & x & Hn & Hx & Hin & ->). exists n. split; [by apply list_elem_of_In|].
    apply list_elem_of_In, list_elem_of_fmap. exists x. split; [done|].
    by apply list_elem_of_filter.
Qed.

(** X13. For an IR with an empty edge list, [normalize_ir] writes the edges
    [(x, n)] for the entries [x] of the [inputs] of the nodes [n] that are
    node ids, and no pair of endpoints twice; it leaves every [inputs]
    list as it was, and sets the outputs of every node to the
    destinations of the new edges that leave it. *)
Theorem normalize_ir_synthesizes_edges (i : ir) :
  ir_edges i = [] →
  NoDup (map edge_key (ir_edges (normalize_ir i)))
  ∧ (∀ e, e ∈ ir_edges (normalize_ir i)
          ↔ ∃ n x, n ∈ ir_nodes i ∧ x ∈ n_inputs n ∧ x ∈ ids_of i
                   ∧ e = positional x (n_id n))
  ∧ map n_inputs (ir_nodes (normalize_ir i)) = map n_inputs (ir_nodes i)
  ∧ ∀ n', n' ∈ ir_nodes (normalize_ir i) →
          n_outputs n' = targets_of (ir_edges (normalize_ir i)) (n_id n').
Proof.
  intros Hnil. rewrite (normalize_ir_absent i Hnil). simpl. split_and!.
  - apply dedup_edges_keys.
  - intros e. unfold synthesized. split.
    + intros He%dedup_edges_elem. apply edges_of_inputs_spec in He
        as (n & x & Hn & Hx & Hin & ->). exists n, x.
      by rewrite elem_of_list_to_set in Hin.
    + intros (n & x & Hn & Hx & Hin & ->).
      destruct (dedup_edges_covers ∅ (edges_of_inputs (list_to_set (ids_of i)) (ir_nodes i))
                  (positional x (n_id n))) as (e' & He' & Hk).
      { apply edges_of_inputs_spec. exists n, x. by rewrite elem_of_list_to_set. }
      { set_solver. }
      assert (e' = positional x (n_id n)) as <-; [|done].
      apply dedup_edges_elem, edges_of_inputs_spec in He' as He''.
      destruct He'' as (m & y & _ & _ & _ & ->). unfold edge_key in Hk. simpl in Hk.
      by injection Hk as -> ->.
  - rewrite map_map. by apply map_ext.
  - intros n' (n & -> & _)%list_elem_of_fmap. unfold with_outputs. simpl.
    unfold outputs_of_edges, targets_of. apply add_to_fold, empty_lists_default.
Qed.

Lemma sort_by_head_in {A} (leb : A → A → bool) l x r :
  sort_by leb l = x :: r → x ∈ l.
Proof.
  revert x r. induction l as [|a l IH]; intros x r; simpl; [done|].
  destruct (sort_by leb l) as [|h t] eqn:Hs; simpl.
  - intros [= <- _]. left.
  - destruct (leb a h); intros [= <- _]; [left|]. right. by eapply IH.
Qed.

(** A stable sort puts first the earliest of the least elements. *)
Lemma sort_by_first_least {A} (leb : A → A → bool) pre x post :
  (∀ y, y ∈ pre → leb y x = false) →
  (∀ y, y ∈ post → leb x y = true) →
  ∃ r, sort_by leb (pre ++ x :: post) = x :: r.
Proof.
  intros Hpre Hpost. induction pre as [|y pre IH]; simpl.
  - destruct (sort_by leb post) as [|h t] eqn:Hs; simpl; [by eexists|].
    rewrite Hpost; [by eexists|]. by eapply sort_by_head_in.
  - destruct IH as [r Hr]; [intros z Hz; apply Hpre; by right|].
    change (sort_by leb (y :: pre ++ x :: post))
      with (insert_by leb y (sort_by leb (pre ++ x :: post))).
    rewrite Hr. simpl. rewrite Hpre by left. by eexists.
Qed.

Lemma filter_first_least {A} (P : A → Prop) `{∀ x, Decision (P x)}
    (leb : A → A → bool) pre x post :
  P x →
  (∀ y, y ∈ pre → P y → leb y x = false) →
  (∀ y, y ∈ post → P y → leb x y = true) →
  ∃ r, sort_by leb (filter P (pre ++ x :: post)) = x :: r.
Proof.
  intros Hx Hpre Hpost. rewrite filter_app, filter_cons_True by done.
  apply sort_by_first_least.
  - intros y [? ?]%list_elem_of_filter. by apply Hpre.
  - intros y [? ?]%list_elem_of_filter. by apply Hpost.
Qed.

(** The mapper on its own tests and keys: the first match of least key. *)
Lemma map_error_to_node_first_least_keys (err : diagnostic)
    (pre : list map_entry) (e : map_entry) (post : list map_entry) :
  let line := err_line err in
  (∀ col,
     err_col err = Some col →
     col_match line col e = true →
     (∀ e', e' ∈ pre → col_match line col e' = true →
            ¬ lex_le (col_key e') (col_key e)) →
     (∀ e', e' ∈ post → col_match line col e' = true →
            lex_le (col_key e) (col_key e')) →
     map_error_to_node (pre ++ e :: post) err = to_mapped err e)
  ∧ ((∀ col e', err_col err = Some col → e' ∈ pre ++ e :: post →
                col_match line col e' = false) →
     line_match line e = true →
     (∀ e', e' ∈ pre → line_match line e' = true → line_key e < line_key e') →
     (∀ e', e' ∈ post → line_match line e' = true → line_key e ≤ line_key e') →
     map_error_to_node (pre ++ e :: post) err = to_mapped err e).
Proof.
  intros line. split.
  - intros col Hcol He Hpre Hpost. unfold map_error_to_node. fold line. rewrite Hcol.
    destruct (filter_first_least (λ m, col_match line col m)
                (λ x y, pair_leb (col_key x) (col_key y)) pre e post) as [r ->];
      [by apply Is_true_true_2| | |done].
    + intros y Hy Hm%Is_true_true_1. apply not_true_is_false. rewrite pair_leb_lex.
      by apply Hpre.
    + intros y Hy Hm%Is_true_true_1. apply pair_leb_lex. by apply Hpost.
  - intros Hnone He Hpre Hpost. unfold map_error_to_node. fold line.
    assert (match err_col err with
            | Some col => filter (λ m, col_match line col m) (pre ++ e :: post)
            | None => []
            end = []) as ->.
    { destruct (err_col err) as [col|] eqn:Hcol; [|done].
      apply filter_none. intros x Hx. rewrite (Hnone col x eq_refl Hx). by intros []. }
    simpl.
    destruct (filter_first_least (λ m, line_match line m)
                (λ x y, line_key x <=? line_key y) pre e post) as [r ->];
      [by apply Is_true_true_2| | |done].
    + intros y Hy Hm%Is_true_true_1. apply Z.leb_gt. by apply Hpre.
    + intros y Hy Hm%Is_true_true_1. apply Z.leb_le. by apply Hpost.
Qed.

(** X14. For a table whose entries are 1-based, the mapper breaks ties by the
    order of the table. When an entry encloses the line and the column
    of a diagnostic, every enclosing entry before it has a larger
    (line-span, col-span) and every enclosing entry after it one that is
    not smaller, the result is taken from that entry. When no entry
    encloses the position, or the diagnostic has no column, the same
    holds of the entries whose line range contains the line, compared by
    their line-span. *)
Theorem map_error_to_node_first_least (err : diagnostic)
    (pre : list map_entry) (e : map_entry) (post : list map_entry) :
  Forall one_based (pre ++ e :: post) →
  let line := err_line err in
  let r := map_error_to_node (pre ++ e :: post) err in
  (∀ col,
     err_col err = Some col →
     encloses e line col →
     (∀ e', e' ∈ pre → encloses e' line col → ¬ lex_le (area e') (area e)) →
     (∀ e', e' ∈ post → encloses e' line col → lex_le (area e) (area e')) →
     taken_from r e)
  ∧ (no_column_match (pre ++ e :: post) err →
     contains_line e line →
     (∀ e', e' ∈ pre → contains_line e' line → line_span e < line_span e') →
     (∀ e', e' ∈ post → contains_line e' line → line_span e ≤ line_span e') →
     taken_from r e).
Proof.
  intros Hone line r. rewrite Forall_forall in Hone.
  assert (∀ x, x ∈ pre → one_based x) as Hone_pre
    by (intros x Hx; apply Hone, elem_of_app; by left).
  assert (one_based e) as Hone_e
    by (apply Hone, elem_of_app; right; left).
  assert (∀ x, x ∈ post → one_based x) as Hone_post
    by (intros x Hx; apply Hone, elem_of_app; right; by right).
  destruct (map_error_to_node_first_least_keys err pre e post) as [Hcol Hline].
  fold line in Hcol, Hline. split.
  - intros col Hc He Hpre Hpost. subst r. rewrite (Hcol col Hc); [done| | |].
    + by apply col_match_encloses.
    + intros e' He' Hm. apply col_match_encloses in Hm; [|by apply Hone_pre].
      rewrite (col_key_area _ _ _ Hm), (col_key_area _ _ _ He). by apply Hpre.
    + intros e' He' Hm. apply col_match_encloses in Hm; [|by apply Hone_post].
      rewrite (col_key_area _ _ _ Hm), (col_key_area _ _ _ He). by apply Hpost.
  - intros Hno He Hpre Hpost. subst r. rewrite Hline; [done| | | |].
    + intros col e' Hc He'. apply not_true_is_false. intros Hm.
      apply col_match_encloses in Hm; [|by apply Hone]. by eapply Hno.
    + by apply line_match_contains.
    + intros e' He' Hm. apply line_match_contains in Hm; [|by apply Hone_pre].
      rewrite !line_key_span. by apply Hpre.
    + intros e' He' Hm. apply line_match_contains in Hm; [|by apply Hone_post].
      rewrite !line_key_span. by apply Hpost.
Qed.

Lemma map_error_to_node_first_least_witness :
  taken_from (map_error_to_node mapping_add1 (error_at 4 None))
    (entry "add1" 4 21 24 (Some "a"))
  ∧ taken_from (map_error_to_node mapping_add1 (error_at 4 (Some 22)))
      (entry "add1" 4 21 24 (Some "a")).
Proof.
  destruct (map_error_to_node_first_least (error_at 4 None) []
              (entry "add1" 4 21 24 (Some "a"))
              [entry "add1" 4 28 31 (Some "b"); entry "add1" 4 5 32 None]
              mapping_add1_one_based) as [_ Hline].
  destruct (map_error_to_node_first_least (error_at 4 (Some 22)) []
              (entry "add1" 4 21 24 (Some "a"))
              [entry "add1" 4 28 31 (Some "b"); entry "add1" 4 5 32 None]
              mapping_add1_one_based) as [Hcol _].
  split.
  - apply Hline.
    + intros col e' Hc. discriminate Hc.
    + unfold contains_line. simpl. lia.
    + intros e' He'. by apply elem_of_nil in He'.
    + intros e' He' _. set_unfold in He'. destruct He' as [->|[->|[]]];
        unfold line_span; simpl; lia.
  - apply (Hcol 22).
    + reflexivity.
    + unfold encloses. simpl. split; [lia|]. exists 21, 24. split_and!; [done..|lia].
    + intros e' He'. by apply elem_of_nil in He'.
    + intros e' He' _. set_unfold in He'. destruct He' as [->|[->|[]]];
        unfold lex_le, area, line_span, col_span; simpl; lia.
Defined.

(** ** Identifiers and string literals *)

Lemma chars_app a b : chars (a +:+ b) = chars a ++ chars b.
Proof. induction a as [|c a IH]; [done|]. simpl. by rewrite <- IH. Qed.

Lemma is_digit_word c : is_digit c = true → is_word c = true.
Proof. unfold is_word. by intros ->. Qed.

Lemma sub_nonword_word s c : c ∈ chars (sub_nonword s) → is_word c = true.
Proof.
  induction s as [|x s IH]; simpl; [by intros ?%elem_of_nil|].
  intros [->|?]%elem_of_cons; [|by apply IH].
  destruct (is_word x) eqn:Hx; [done|reflexivity].
Qed.

Lemma sub_nonword_fixed s :
  (∀ c, c ∈ chars s → is_word c = true) → sub_nonword s = s.
Proof.
  induction s as [|x s IH]; simpl; [done|]. intros Hw.
  rewrite (Hw x) by left. f_equal. apply IH. intros c Hc. apply Hw. by right.
Qed.

Lemma sanitize_word s c : c ∈ chars (sanitize s) → is_word c = true.
Proof.
  unfold sanitize. destruct (sub_nonword s) as [|x r] eqn:Hs; [by intros ?%elem_of_nil|].
  assert (∀ c, c ∈ chars (String x r) → is_word c = true) as Hw.
  { intros c' Hc'. apply (sub_nonword_word s). by rewrite Hs. }
  destruct (is_digit x); [|by apply Hw].
  simpl. intros [->|Hc]%elem_of_cons; [reflexivity|by apply Hw].
Qed.

(** X15. [sanitize] returns letters, digits and underscores only, and no
    leading digit: the result for a non-empty id can be written as a C++
    identifier. It is idempotent, and an id that is an identifier already
    is returned as it is. *)
Theorem sanitize_identifier (node_id : string) :
  (∀ c, c ∈ chars (sanitize node_id) → is_word c = true)
  ∧ (∀ c r, sanitize node_id = String c r → is_digit c = false)
  ∧ (node_id ≠ "" → identifier (sanitize node_id))
  ∧ sanitize (sanitize node_id) = sanitize node_id
  ∧ (identifier node_id → sanitize node_id = node_id).
Proof.
  assert (∀ c r, sanitize node_id = String c r → is_digit c = false) as Hd.
  { unfold sanitize. destruct (sub_nonword node_id) as [|x t] eqn:Hs; [done|].
    destruct (is_digit x) eqn:Hx; intros c r [= <- <-]; [reflexivity|done]. }
  assert (∀ s, (∀ c, c ∈ chars s → is_word c = true) →
               (∀ c r, s = String c r → is_digit c = false) → sanitize s = s) as Hfix.
  { intros s Hw Hnd. unfold sanitize. rewrite (sub_nonword_fixed s Hw).
    destruct s as [|c r]; [done|]. by rewrite (Hnd c r eq_refl). }
  split_and!.
  - apply sanitize_word.
  - done.
  - intros Hne. split_and!; [|apply sanitize_word|done].
    unfold sanitize. destruct node_id as [|x t]; [done|]. simpl.
    by destruct (is_digit _).
  - apply Hfix; [apply sanitize_word|done].
  - intros (_ & Hw & Hnd). by apply Hfix.
Qed.

Lemma string_of_uint_digits d c :
  c ∈ chars (NilZero.string_of_uint d) → is_digit c = true.
Proof.
  unfold NilZero.string_of_uint.
  assert (∀ d, c ∈ chars (NilEmpty.string_of_uint d) → is_digit c = true) as H.
  { clear d. induction d; simpl; try (by intros ?%elem_of_nil);
      intros [->|?]%elem_of_cons; auto. }
  destruct d; try apply H. simpl. by intros ->%list_elem_of_singleton.
Qed.

Lemma str_nat_digits n c : c ∈ chars (str_nat n) → is_digit c = true.
Proof. apply string_of_uint_digits. Qed.

Lemma alloc_identifier base used :
  identifier base → identifier (alloc base used).1.
Proof.
  intros (Hne & Hw & Hd). unfold alloc. case_bool_decide; [done|]. simpl.
  destruct base as [|x r]; [done|]. split_and!; [done| |].
  - intros c. rewrite !chars_app, !elem_of_app.
    intros [Hc|[Hc|Hc]]; [by apply Hw| |by eapply is_digit_word, str_nat_digits].
    apply list_elem_of_singleton in Hc as ->. reflexivity.
  - intros c t [= <- _]. by eapply Hd.
Qed.

Lemma v_prefix_identifier s :
  (∀ c, c ∈ chars s → is_word c = true) → identifier ("v_" +:+ s).
Proof.
  intros Hw. split_and!; [done| |by intros c r [= <- _]].
  intros c. simpl. rewrite !elem_of_cons.
  intros [->|[->|Hc]]; [reflexivity..|by apply Hw].
Qed.

(** X16. Every name that [make_var] and [local_make_var] return can be
    written as a C++ identifier, whatever the node id and the names given
    before. *)
Theorem make_var_identifier (self : emitter) (sc : scope) (node_id : string) :
  identifier (make_var self node_id).1
  ∧ identifier (local_make_var sc node_id).1.
Proof.
  split.
  - unfold make_var.
    pose proof (alloc_identifier ("v_" +:+ sanitize node_id) (_used_names self)
                  (v_prefix_identifier _ (sanitize_word node_id))) as H.
    by destruct (alloc _ _).
  - unfold local_make_var.
    pose proof (alloc_identifier ("v_" +:+ sub_nonword node_id) (local_used_names sc)
                  (v_prefix_identifier _ (sub_nonword_word node_id))) as H.
    by destruct (alloc _ _).
Qed.

Lemma alloc_name_of base used :
  alloc base used
  = (name_of base (default 0%nat (used !! base)),
     <[base := S (default 0%nat (used !! base))]> used).
Proof.
  unfold alloc, name_of. case_bool_decide as Hc; [by rewrite Hc|].
  by rewrite Nat.add_1_r.
Qed.

Lemma chars_inj a b : chars a = chars b → a = b.
Proof.
  intros H. apply (f_equal string_of_list_ascii) in H.
  unfold chars in H. by rewrite !string_of_list_ascii_of_string in H.
Qed.

Lemma underscore_split (la la' ld ld' : list ascii) :
  "_"%char ∉ ld → "_"%char ∉ ld' →
  la ++ "_"%char :: ld = la' ++ "_"%char :: ld' → la = la' ∧ ld = ld'.
Proof.
  intros Hd Hd'. revert la'. induction la as [|a la IH]; intros [|a' la']; simpl.
  - by intros [= ->].
  - intros [= <- ->]. exfalso. apply Hd. apply elem_of_app. right. left.
  - intros [= -> <-]. exfalso. apply Hd'. apply elem_of_app. right. left.
  - intros [= <- H]. destruct (IH _ H) as [-> ->]. done.
Qed.

Lemma to_uint_nonnil n : Nat.to_uint n ≠ Decimal.Nil.
Proof.
  intros H. assert (n = 0%nat) as ->.
  { rewrite <- (Unsigned.of_to n). by rewrite H. }
  discriminate.
Qed.

Lemma str_nat_inj j j' : str_nat j = str_nat j' → j = j'.
Proof.
  unfold str_nat. intros H. apply (f_equal NilZero.uint_of_string) in H.
  rewrite !NilZero.usu in H by apply to_uint_nonnil.
  injection H as H. by apply Unsigned.to_uint_inj.
Qed.

Lemma str_nat_no_underscore j : "_"%char ∉ chars (str_nat j).
Proof. intros H%str_nat_digits. discriminate. Qed.

Lemma name_of_inj bases b j b' j' :
  suffix_free bases → b ∈ bases → b' ∈ bases →
  name_of b j = name_of b' j' → b = b' ∧ j = j'.
Proof.
  intros Hsf Hb Hb'. unfold name_of.
  case_bool_decide as Hj; case_bool_decide as Hj'; subst.
  - by intros ->.
  - intros ->. exfalso. by apply (Hsf b' (b' +:+ "_" +:+ str_nat j') j'); [..|lia|].
  - intros <-. exfalso. by apply (Hsf b (b +:+ "_" +:+ str_nat j) j); [..|lia|].
  - intros H. apply (f_equal chars) in H. rewrite !chars_app in H. simpl in H.
    apply underscore_split in H as [Hb0 Hj0]; [|apply str_nat_no_underscore..].
    apply chars_inj in Hb0, Hj0. split; [done|by apply str_nat_inj].
Qed.

Lemma alloc_all_names bases used x :
  x ∈ alloc_all bases used →
  ∃ b j, b ∈ bases ∧ x = name_of b j ∧ (default 0%nat (used !! b) ≤ j)%nat.
Proof.
  revert used. induction bases as [|b r IH]; intros used; simpl.
  { by intros ?%elem_of_nil. }
  rewrite alloc_name_of. simpl. intros [->|Hx]%elem_of_cons.
  - exists b, (default 0%nat (used !! b)). split_and!; [left|done|done].
  - destruct (IH _ Hx) as (b' & j & Hb' & -> & Hj). exists b', j.
    split_and!; [by right|done|].
    rewrite lookup_insert in Hj. case_decide; subst; simpl in Hj; lia.
Qed.

Lemma alloc_all_NoDup all bases used :
  suffix_free all → (∀ b, b ∈ bases → b ∈ all) → NoDup (alloc_all bases used).
Proof.
  intros Hsf. revert used. induction bases as [|b r IH]; intros used Hsub; simpl.
  { constructor. }
  rewrite alloc_name_of. simpl. apply NoDup_cons. split.
  - intros (b' & j & Hb' & Heq & Hj)%alloc_all_names.
    apply (name_of_inj all) in Heq as [<- <-]; [|done|apply Hsub; left|apply Hsub; by right].
    rewrite lookup_insert_eq in Hj. simpl in Hj. lia.
  - apply IH. intros b' Hb'. apply Hsub. by right.
Qed.

Lemma make_vars_alloc_all ids :
  make_vars ids = alloc_all (map (λ nid, "v_" +:+ sanitize nid) ids) ∅.
Proof.
  unfold make_vars.
  assert (∀ names self,
    (foldl (λ '(names, self) nid,
              let '(var, self) := make_var self nid in (names ++ [var], self))
           (names, self) ids).1
    = names ++ alloc_all (map (λ nid, "v_" +:+ sanitize nid) ids) (_used_names self)) as H.
  { induction ids as [|nid r IH]; intros names self; simpl; [by rewrite app_nil_r|].
    unfold make_var at 2. destruct (alloc _ _) as [var used] eqn:Ha. simpl.
    rewrite IH. simpl. by rewrite <- app_assoc. }
  apply (H [] in_main).
Qed.

Lemma local_make_vars_alloc_all ids :
  local_make_vars ids = alloc_all (map (λ nid, "v_" +:+ sub_nonword nid) ids) ∅.
Proof.
  unfold local_make_vars.
  assert (∀ names sc,
    (foldl (λ '(names, sc) nid,
              let '(var, sc) := local_make_var sc nid in (names ++ [var], sc))
           (names, sc) ids).1
    = names ++ alloc_all (map (λ nid, "v_" +:+ sub_nonword nid) ids) (local_used_names sc)) as H.
  { induction ids as [|nid r IH]; intros names sc; simpl; [by rewrite app_nil_r|].
    unfold local_make_var at 2. destruct (alloc _ _) as [var used] eqn:Ha. simpl.
    rewrite IH. simpl. by rewrite <- app_assoc. }
  apply (H [] locals_of_f).
Qed.

(** X17. When no base name of the ids equals another base name followed by
    [_N] for a positive [N], the names that successive calls of
    [make_var], and of [local_make_var], return for them are pairwise
    distinct. *)
Theorem make_vars_distinct (ids : list string) :
  (suffix_free (map (λ nid, "v_" +:+ sanitize nid) ids) → NoDup (make_vars ids))
  ∧ (suffix_free (map (λ nid, "v_" +:+ sub_nonword nid) ids) →
     NoDup (local_make_vars ids)).
Proof.
  split; intros Hsf.
  - rewrite make_vars_alloc_all. by apply (alloc_all_NoDup _ _ _ Hsf).
  - rewrite local_make_vars_alloc_all. by apply (alloc_all_NoDup _ _ _ Hsf).
Qed.

Lemma replace_app c by_ x y :
  replace c by_ (x +:+ y) = replace c by_ x +:+ replace c by_ y.
Proof.
  induction x as [|a x IH]; [done|]. simpl.
  destruct (Ascii.eqb a c); rewrite IH; [by rewrite str_app_assoc|done].
Qed.

Lemma escape_string_cons c s :
  escape_string (String c s) = escape_char c +:+ escape_string s.
Proof.
  unfold escape_string.
  change (String c s) with (String c "" +:+ s).
  rewrite !replace_app. f_equal.
  unfold escape_char, backslash, newline, tab, dquote.
  destruct (Ascii.eqb_spec c (ascii_of_nat 92)) as [->|H1]; [reflexivity|].
  destruct (Ascii.eqb_spec c (ascii_of_nat 34)) as [->|H2]; [reflexivity|].
  destruct (Ascii.eqb_spec c (ascii_of_nat 10)) as [->|H3]; [reflexivity|].
  destruct (Ascii.eqb_spec c (ascii_of_nat 9)) as [->|H4]; [reflexivity|].
  simpl.
  apply Ascii.eqb_neq in H1, H2, H3, H4.
  change ("\"%char) with (ascii_of_nat 92). rewrite H1. simpl.
  rewrite H2. simpl. rewrite H3. simpl. rewrite H4. done.
Qed.

Lemma escape_char_cases c :
  (c = backslash ∧ escape_char c = String backslash (String backslash ""))
  ∨ (c = dquote ∧ escape_char c = String backslash (String dquote ""))
  ∨ (c = newline ∧ escape_char c = String backslash "n")
  ∨ (c = tab ∧ escape_char c = String backslash "t")
  ∨ (c ≠ backslash ∧ c ≠ newline ∧ c ≠ tab ∧ escape_char c = String c "").
Proof.
  unfold escape_char.
  destruct (Ascii.eqb_spec c backslash) as [->|H1]; [by left|].
  destruct (Ascii.eqb_spec c dquote) as [->|H2]; [right; by left|].
  destruct (Ascii.eqb_spec c newline) as [->|H3]; [right; right; by left|].
  destruct (Ascii.eqb_spec c tab) as [->|H4]; [right; right; right; by left|].
  by repeat right.
Qed.

Lemma unescape_escape_char c r :
  unescape (escape_char c +:+ r) = String c (unescape r).
Proof.
  destruct (escape_char_cases c)
    as [[-> ->]|[[-> ->]|[[-> ->]|[[-> ->]|(H1 & _ & _ & ->)]]]]; try reflexivity.
  simpl. apply Ascii.eqb_neq in H1. by rewrite H1.
Qed.

Lemma escape_char_one_line c x :
  x ∈ chars (escape_char c) → x ≠ newline ∧ x ≠ tab.
Proof.
  destruct (escape_char_cases c)
    as [[-> ->]|[[-> ->]|[[-> ->]|[[-> ->]|(_ & H3 & H4 & ->)]]]]; simpl;
    rewrite ?elem_of_cons, elem_of_nil; intros Hx.
  5: { destruct Hx as [->|[]]. done. }
  all: destruct Hx as [->|[->|[]]]; split; discriminate.
Qed.

(** X18. Reading the escapes of a backslash, a double quote, a newline and a
    tab back gives the string that [escape_string] was called on, and the
    escaped text holds neither a newline nor a tab. *)
Theorem escape_string_decodable (s : string) :
  unescape (escape_string s) = s
  ∧ (∀ c, c ∈ chars (escape_string s) → c ≠ newline ∧ c ≠ tab).
Proof.
  induction s as [|c s (IH1 & IH2)].
  { split; [done|]. by intros c ?%elem_of_nil. }
  rewrite escape_string_cons, unescape_escape_char, IH1, chars_app.
  split; [done|]. intros x [Hx|Hx]%elem_of_app; [|by apply IH2].
  by apply escape_char_one_line in Hx.
Qed.

(** ** Spans of fragments and the tables of incoming edges *)

Lemma join_cons t l : join (t :: l) = t +:+ join l.
Proof. reflexivity. Qed.

Lemma left_to_right_cons e entries :
  Forall (left_of e) entries → left_to_right entries → left_to_right (e :: entries).
Proof.
  intros He Hl [|x pre] e1 mid e2 post; simpl.
  - intros [= <- ->]. rewrite Forall_forall in He. apply He.
    apply elem_of_app. right. left.
  - intros [= <- ->]. by eapply Hl.
Qed.

Lemma fragment_entries_spec function line_no p fragments :
  let entries := fragment_entries function line_no (String.length p) fragments in
  Forall2 (span_of function (Z.of_nat line_no) (p +:+ join (map f_text fragments)))
          (marked_fragments fragments) entries
  ∧ Forall (λ e, ∃ sc, m_start_col e = Some sc ∧ Z.of_nat (String.length p) < sc) entries
  ∧ left_to_right entries.
Proof.
  revert p. induction fragments as [|frag rest IH]; intros p.
  { simpl. split_and!; [constructor|constructor|]. by intros [|??] ?????. }
  cbn [fragment_entries map].
  destruct (IH (p +:+ f_text frag)) as (Hspans & Hlater & Hltr).
  rewrite str_length_app in Hspans, Hlater, Hltr.
  rewrite str_app_assoc in Hspans. rewrite join_cons.
  unfold marked_fragments. rewrite filter_cons.
  destruct (f_marker frag) as [mk|] eqn:Hmk.
  - rewrite decide_True by eauto. split_and!.
    + constructor; [|done]. unfold span_of. simpl. rewrite Hmk. destruct mk.
      split_and!; try done.
      eexists _, _. split_and!; try done; [lia..| |].
      * rewrite !str_length_app. lia.
      * apply columns_middle.
    + constructor.
      * eexists. split; [done|]. lia.
      * eapply Forall_impl; [done|]. intros e (sc & ? & ?). exists sc. split; [done|lia].
    + apply left_to_right_cons; [|done].
      eapply Forall_impl; [done|]. intros e (sc & Hsc & ?) ec sc'. simpl.
      intros [= <-] Hsc'. assert (sc' = sc) as -> by congruence. lia.
  - rewrite decide_False by (by intros [? ?]). split_and!; [done| |done].
    eapply Forall_impl; [done|]. intros e (sc & ? & ?). exists sc. split; [done|lia].
Qed.

(** X19. [emit_line_with_fragments] appends one line, the concatenation of the
    texts of the fragments, and returns its number, counted from 1. It
    appends one entry per marked fragment, in the order of the fragments:
    the entry carries the node and the port of the marker and the
    function, lies on the new line, and its columns cover exactly the
    text of the fragment. The new entries follow each other from left to
    right without overlap. *)
Theorem emit_line_with_fragments_spans (self : emitter)
    (fragments : list fragment) (function : option string) :
  let line_no := (emit_line_with_fragments self fragments function).1 in
  let self' := (emit_line_with_fragments self fragments function).2 in
  let line := join (map f_text fragments) in
  line_no = S (length (code_lines self))
  ∧ code_lines self' = code_lines self ++ [line]
  ∧ ∃ entries,
      mapping self' = mapping self ++ entries
      ∧ Forall2 (span_of function (Z.of_nat line_no) line)
                (marked_fragments fragments) entries
      ∧ left_to_right entries.
Proof.
  unfold emit_line_with_fragments. simpl. rewrite length_app. simpl.
  replace (length (code_lines self) + 1)%nat with (S (length (code_lines self))) by lia.
  split_and!; [done..|].
  eexists. split; [done|].
  destruct (fragment_entries_spec function (S (length (code_lines self))) "" fragments)
    as (H1 & _ & H3). done.
Qed.

Lemma last_snoc' {A} (l : list A) x : last (l ++ [x]) = Some x.
Proof. induction l as [|y [|z l] IH]; done. Qed.

Lemma filter_snoc {A} (P : A → Prop) `{∀ x, Decision (P x)} (l : list A) x :
  filter P (l ++ [x]) = filter P l ++ (if decide (P x) then [x] else []).
Proof. rewrite filter_app, filter_cons. by destruct (decide (P x)). Qed.

Lemma init_incoming_snoc edges e :
  init_incoming (edges ++ [e])
  = let by_node := (init_incoming edges).1 in
    let list_by_node := (init_incoming edges).2 in
    let by_node' := if bool_decide (by_node !! e_to e = None)
                    then <[e_to e := ∅]> by_node else by_node in
    if truthy (e_toPort e) then
      (<[e_to e := <[default "" (e_toPort e) := e_from e]> (by_node' !!! e_to e)]> by_node',
       list_by_node)
    else
      (by_node',
       <[e_to e := default [] (list_by_node !! e_to e) ++ [e_from e]]> list_by_node).
Proof.
  unfold init_incoming. rewrite foldl_app. cbn [foldl].
  by destruct (foldl _ (∅, ∅) edges) as [by_node list_by_node].
Qed.

Lemma init_incoming_spec edges to :
  (∀ port, port ≠ "" →
     ((init_incoming edges).1 !! to ≫= λ ports, ports !! port)
     = last (named_sources edges to port))
  ∧ default [] ((init_incoming edges).2 !! to) = positional_sources edges to.
Proof.
  unfold named_sources, positional_sources.
  induction edges as [|e edges [IHn IHp]] using rev_ind; [by split|].
  rewrite init_incoming_snoc, !filter_snoc, !map_app. cbv zeta.
  destruct (init_incoming edges) as [by_node list_by_node]. cbn [fst snd] in *.
  set (by_node' := if bool_decide (by_node !! e_to e = None)
                   then <[e_to e := ∅]> by_node else by_node).
  assert (∀ k port, (by_node' !! k ≫= λ ports : gmap string string, ports !! port)
                    = (by_node !! k ≫= λ ports, ports !! port)) as Hsame.
  { intros k port. unfold by_node'. case_bool_decide as Hn; [|done].
    destruct (decide (e_to e = k)) as [<-|Hk].
    - by rewrite lookup_insert_eq, Hn.
    - by rewrite lookup_insert_ne. }
  destruct (truthy (e_toPort e)) eqn:Ht; cbn [fst snd].
  - (* a named edge *)
    destruct (e_toPort e) as [p|] eqn:Hp; [|done]. cbn [default from_option id].
    assert (p ≠ "") as Hpne.
    { intros ->. done. }
    split.
    + intros port Hport. rewrite filter_snoc, map_app, lookup_insert.
      case_decide as Hk.
      * cbn [mbind option_bind]. rewrite lookup_insert. case_decide as Hpp.
        -- subst. rewrite decide_True by done. cbn [map]. by rewrite last_snoc'.
        -- rewrite decide_False by (intros [_ ?]; congruence).
           cbn [map]. rewrite app_nil_r, <- IHn, <- Hsame by done.
           subst. unfold lookup_total, map_lookup_total.
           by destruct (by_node' !! e_to e).
      * rewrite decide_False by tauto. cbn [map].
        by rewrite app_nil_r, Hsame, IHn.
    + rewrite decide_False by (intros [_ ?]; congruence). cbn [map].
      by rewrite app_nil_r.
  - (* a positional edge *)
    split.
    + intros port Hport. rewrite filter_snoc, map_app, Hsame, IHn by done.
      rewrite decide_False; [by rewrite app_nil_r|].
      intros [_ Hp]. rewrite Hp in Ht. simpl in Ht.
      by rewrite bool_decide_false in Ht.
    + rewrite lookup_insert. case_decide as Hk.
      * rewrite decide_True by done. cbn [map default from_option id].
        subst. by rewrite <- IHp.
      * rewrite decide_False by tauto. cbn [map]. by rewrite app_nil_r.
Qed.

Lemma init_fields imports edges defs :
  incoming_by_node (__init__ imports edges defs) = (init_incoming edges).1
  ∧ incoming_list_by_node (__init__ imports edges defs) = (init_incoming edges).2.
Proof. unfold __init__. by destruct (init_incoming edges). Qed.

Lemma list_lookup_default {A} (m : gmap string (list A)) k (i : nat) :
  (m !! k ≫= λ l, l !! i) = default [] (m !! k) !! i.
Proof. by destruct (m !! k). Qed.

(** X20. With the tables that the constructor builds from the edge list,
    [_resolve_input_for_node] answers a port name that is not empty with
    the source of the last edge into the node that names the port, and
    with the source of the [idx]-th edge into the node without a port
    when there is none; without a port name it answers with the source of
    the [idx]-th edge without a port, and with the [idx]-th entry of the
    [inputs] of the node when there is none. *)
Theorem resolve_input_after_init (imports : list string) (edges : list edge)
    (defs : gmap string tdef) (n : node) :
  let self := __init__ imports edges defs in
  (∀ port idx, port ≠ "" →
     _resolve_input_for_node self n (Some port) (Some idx) ∅ ∅
     = match last (named_sources edges (n_id n) port) with
       | Some src => Some src
       | None => positional_sources edges (n_id n) !! idx
       end)
  ∧ (∀ idx,
       _resolve_input_for_node self n None (Some idx) ∅ ∅
       = match positional_sources edges (n_id n) !! idx with
         | Some src => Some src
         | None => n_inputs n !! idx
         end).
Proof.
  intros self.
  destruct (init_fields imports edges defs) as [Hby Hlist]. fold self in Hby, Hlist.
  destruct (init_incoming_spec edges (n_id n)) as [Hn Hp].
  split.
  - intros port idx Hport. unfold _resolve_input_for_node.
    assert (truthy (Some port) = true) as ->.
    { simpl. by rewrite bool_decide_false. }
    rewrite !lookup_empty. cbn [mbind option_bind default from_option id].
    rewrite Hby, Hlist. specialize (Hn port Hport).
    cbn [mbind option_bind] in Hn. rewrite Hn.
    destruct (last _) as [src|]; [done|].
    pose proof (list_lookup_default (init_incoming edges).2 (n_id n) idx) as Hl.
    cbn [mbind option_bind] in Hl. rewrite Hl, Hp.
    destruct (positional_sources edges (n_id n) !! idx); [done|]. by rewrite bool_decide_false.
  - intros idx. unfold _resolve_input_for_node.
    cbn [truthy]. rewrite !lookup_empty. cbn [mbind option_bind].
    rewrite Hlist.
    pose proof (list_lookup_default (init_incoming edges).2 (n_id n) idx) as Hl.
    cbn [mbind option_bind] in Hl. rewrite Hl, Hp.
    destruct (positional_sources edges (n_id n) !! idx); [done|]. by rewrite bool_decide_true.
Qed.

(** ** Finalization, port expressions and includes *)

Lemma lstrip_spaces_length s : (String.length (lstrip_spaces s) ≤ String.length s)%nat.
Proof.
  induction s as [|c s IH]; simpl; [done|]. destruct (Ascii.eqb c " "); simpl; lia.
Qed.

Lemma lstrip_spaces_split s :
  s = repeat_str " " (leading_spaces s) +:+ lstrip_spaces s.
Proof.
  unfold leading_spaces. induction s as [|c s IH]; [done|]. simpl lstrip_spaces.
  destruct (Ascii.eqb_spec c " ") as [->|Hc].
  - pose proof (lstrip_spaces_length s).
    replace (String.length (String " " s) - String.length (lstrip_spaces s))%nat
      with (S (String.length s - String.length (lstrip_spaces s))) by (simpl; lia).
    cbn [repeat_str]. rewrite str_app_assoc, <- IH. reflexivity.
  - by rewrite Nat.sub_diag.
Qed.

Lemma repeat_str_length n : String.length (repeat_str " " n) = n.
Proof. induction n as [|n IH]; [done|]. cbn [repeat_str]. rewrite str_length_app, IH. done. Qed.

(** A coarse span of one line covers the line without its indentation. *)
Lemma columns_lstrip text :
  columns text (Z.of_nat (leading_spaces text) + 1) (Z.of_nat (String.length text))
  = lstrip_spaces text.
Proof.
  pose proof (lstrip_spaces_split text) as Hs.
  set (k := leading_spaces text) in *.
  rewrite Hs at 1 2.
  rewrite <- (str_app_nil_r (lstrip_spaces text)) at 1 2.
  rewrite str_length_app, str_length_app, repeat_str_length.
  pose proof (columns_middle (repeat_str " " k) (lstrip_spaces text) "") as Hc.
  rewrite repeat_str_length in Hc. simpl in *. rewrite Nat.add_0_r.
  rewrite <- Hc at 3. f_equal. lia.
Qed.

Lemma line_at_truthy code_lines line :
  (if Driver.truthy_int line then line_at code_lines line else None)
  = line_at code_lines line.
Proof.
  unfold Driver.truthy_int, line_at. destruct (line =? 0) eqn:Hz; [|done]. simpl.
  apply Z.eqb_eq in Hz as ->. done.
Qed.

Lemma finalize_entry_finalized code_lines m :
  finalized code_lines m (finalize_entry code_lines m).
Proof.
  unfold finalized, finalize_entry. rewrite !line_at_truthy.
  destruct (line_at code_lines (m_start_line m)) as [ts|];
    destruct (line_at code_lines (m_end_line m)) as [te|];
    destruct m as [nid fn sl el [sc|] [ec|] port]; simpl;
    split_and!; try done; intros; simplify_eq; try done;
    f_equal; unfold leading_spaces;
    match goal with |- context [lstrip_spaces ?t] =>
      pose proof (lstrip_spaces_length t) end; lia.
Qed.

Lemma finalize_entry_idem code_lines m :
  finalize_entry code_lines (finalize_entry code_lines m) = finalize_entry code_lines m.
Proof.
  unfold finalize_entry. rewrite !line_at_truthy.
  destruct m as [nid fn sl el sc ec port]; cbn [m_start_line m_end_line].
  destruct (line_at code_lines sl) as [ts|] eqn:Hs;
    destruct (line_at code_lines el) as [te|] eqn:He;
    repeat (case_bool_decide; cbn [m_start_line m_end_line m_start_col m_end_col
                                   set_start_col set_end_col] in *;
            rewrite ?line_at_truthy, ?Hs, ?He);
    cbn [m_start_line m_end_line m_start_col m_end_col set_start_col set_end_col] in *;
    rewrite ?line_at_truthy, ?Hs, ?He;
    repeat case_bool_decide; simplify_eq; done.
Qed.

(** X21. [_finalize_mappings], when no port mapping is pending, changes no
    line and keeps the node, the function, the lines, the port and the
    columns of every entry. An entry without a start column whose start
    line is a line of the text gets the first column after the leading
    spaces of that line; an entry without an end column whose end line is
    a line of the text gets the length of that line. These two columns of
    a line cover the line without its indentation. Running it again
    changes nothing. *)
Theorem finalize_mappings_spec (self : emitter) :
  let self' := _finalize_mappings self [] in
  code_lines self' = code_lines self
  ∧ Forall2 (finalized (code_lines self)) (mapping self) (mapping self')
  ∧ (∀ text,
       columns text (Z.of_nat (leading_spaces text) + 1)
         (Z.of_nat (String.length text)) = lstrip_spaces text)
  ∧ _finalize_mappings self' [] = self'.
Proof.
  unfold _finalize_mappings. simpl. rewrite !app_nil_r. split_and!.
  - done.
  - induction (mapping self) as [|m l IH]; simpl; constructor; [|done].
    apply finalize_entry_finalized.
  - apply columns_lstrip.
  - unfold set_mapping. simpl. f_equal. rewrite map_map.
    apply map_ext. intros m. apply finalize_entry_idem.
Qed.

Lemma find_str_span node_id port expr line text idx :
  find_str text expr = Some idx →
  first_occurrence_span node_id port expr line text
    (port_entry node_id port line idx expr).
Proof.
  intros Hf. exists idx. unfold port_entry. simpl. split_and!; [done|done| | |].
  - f_equal. lia.
  - unfold columns.
    replace (Z.to_nat (Z.of_nat idx + 1 - 1)) with idx by lia.
    replace (Z.to_nat _) with (String.length expr) by lia.
    by apply (index_correct1 0).
  - intros p Hp. apply (index_correct2 0 idx); [done|lia|done].
Qed.

(** X22. [record_port_expr] changes no line. If the line exists and holds
    the expression, it appends one entry that spans the first occurrence
    of the expression on that line, columns counted from 1, and queues
    nothing; otherwise it queues the request and appends nothing, and the
    second loop of [_finalize_mappings] resolves no such request on the
    same lines. An entry that this loop makes of a request spans the
    first occurrence of its expression too. *)
Theorem record_port_expr_span (self : emitter) (pending : list port_mapping)
    (node_id port expr : string) (line : Z) :
  let r := record_port_expr self pending node_id port expr line in
  let p := {| pm_node_id := node_id; pm_port := port; pm_expr := expr;
              pm_line := line |} in
  code_lines r.1 = code_lines self
  ∧ ((∃ text e, line_at (code_lines self) line = Some text
                ∧ first_occurrence_span node_id port expr line text e
                ∧ mapping r.1 = mapping self ++ [e] ∧ r.2 = pending)
     ∨ (r = (self, pending ++ [p])
        ∧ resolve_port_mapping (code_lines self) p = None))
  ∧ (∀ e, resolve_port_mapping (code_lines self) p = Some e →
          ∃ text, line_at (code_lines self) line = Some text
                  ∧ first_occurrence_span node_id port expr line text e).
Proof.
  unfold record_port_expr, resolve_port_mapping. simpl.
  destruct (line_at (code_lines self) line) as [text|] eqn:Hl; simpl.
  - destruct (find_str text expr) as [idx|] eqn:Hf; simpl.
    + split_and!; [done| |].
      * left. exists text, (port_entry node_id port line idx expr).
        split_and!; [done| |done|done]. by apply find_str_span.
      * intros e [= <-]. exists text. split; [done|]. by apply find_str_span.
    + split_and!; [done|by right|done].
  - split_and!; [done|by right|done].
Qed.

Lemma ascii_compare_trans a b c o :
  Ascii.compare a b = o → Ascii.compare b c = o → Ascii.compare a c = o.
Proof.
  unfold Ascii.compare. destruct o; rewrite ?N.compare_eq_iff, ?N.compare_lt_iff,
    ?N.compare_gt_iff; lia.
Qed.

Lemma string_compare_refl s : String.compare s s = Eq.
Proof.
  induction s as [|c s IH]; [done|]. simpl.
  unfold Ascii.compare. by rewrite N.compare_refl.
Qed.

Lemma string_compare_lt_trans a b c :
  String.compare a b = Lt → String.compare b c = Lt → String.compare a c = Lt.
Proof.
  revert b c. induction a as [|x a IH]; intros [|y b] [|z c]; simpl; try done.
  destruct (Ascii.compare x y) eqn:Hxy; try done;
    destruct (Ascii.compare y z) eqn:Hyz; try done.
  - apply Ascii.compare_eq_iff in Hxy as ->, Hyz as ->.
    unfold Ascii.compare. rewrite N.compare_refl. apply IH.
  - apply Ascii.compare_eq_iff in Hxy as ->. by rewrite Hyz.
  - apply Ascii.compare_eq_iff in Hyz as <-. by rewrite Hxy.
  - by rewrite (ascii_compare_trans x y z Lt).
Qed.

Lemma string_leb_trans a b c :
  String.leb a b = true → String.leb b c = true → String.leb a c = true.
Proof.
  unfold String.leb.
  destruct (String.compare a b) eqn:Hab; try done;
    destruct (String.compare b c) eqn:Hbc; try done.
  - apply String.compare_eq_iff in Hab as ->. by rewrite Hbc.
  - apply String.compare_eq_iff in Hab as ->. by rewrite Hbc.
  - apply String.compare_eq_iff in Hbc as <-. by rewrite Hab.
  - by rewrite (string_compare_lt_trans a b c).
Qed.

Lemma string_leb_ltb a b : String.leb a b = true → a ≠ b → String.ltb a b = true.
Proof.
  unfold String.leb, String.ltb. destruct (String.compare a b) eqn:H; try done.
  apply String.compare_eq_iff in H. congruence.
Qed.

Lemma insert_by_perm {A} (leb : A → A → bool) x l : insert_by leb x l ≡ₚ x :: l.
Proof.
  induction l as [|y r IH]; simpl; [done|].
  destruct (leb x y); [done|]. rewrite IH. apply Permutation_swap.
Qed.

Lemma sort_by_perm {A} (leb : A → A → bool) l : sort_by leb l ≡ₚ l.
Proof.
  induction l as [|x l IH]; simpl; [done|].
  rewrite insert_by_perm. by rewrite IH.
Qed.

Lemma insert_by_ascending x l :
  x ∉ l → ascending l → ascending (insert_by String.leb x l).
Proof.
  induction l as [|y r IH]; simpl; [by intros _ _; split; [intros ? ?%elem_of_nil|]|].
  intros [Hxy Hx]%not_elem_of_cons [Hy Hr].
  destruct (String.leb x y) eqn:Hle; simpl.
  - split; [|done]. intros z [->|Hz]%elem_of_cons.
    + by apply string_leb_ltb.
    + apply string_leb_ltb.
      * apply (string_leb_trans x y z); [done|].
        specialize (Hy z Hz). unfold String.ltb, String.leb in *.
        by destruct (String.compare y z).
      * intros ->. done.
  - split; [|by apply IH].
    intros z Hz. rewrite insert_by_perm in Hz. apply elem_of_cons in Hz as [->|Hz].
    + destruct (String.leb_total x y) as [H|H]; [congruence|].
      apply string_leb_ltb; [done|congruence].
    + by apply Hy.
Qed.

Lemma sort_by_ascending l : NoDup l → ascending (sort_by String.leb l).
Proof.
  induction l as [|x l IH]; simpl; [done|].
  intros [Hx Hl]%NoDup_cons. apply insert_by_ascending; [|by apply IH].
  by rewrite sort_by_perm.
Qed.

Lemma emit_include_lines self l :
  code_lines (foldl (λ self inc, append_line self ("#include " +:+ inc)) self l)
  = code_lines self ++ map (λ inc, "#include " +:+ inc) l.
Proof.
  revert self. induction l as [|x l IH]; intros self; simpl; [by rewrite app_nil_r|].
  rewrite IH. simpl. by rewrite <- app_assoc.
Qed.

(** X23. [emit_include] appends one line [#include inc] for every element
    [inc] of the include set, each once and in strictly ascending order,
    and an empty line after them; the mapping and the include set stay as
    they are. *)
Theorem emit_include_sorted (self : emitter) :
  ∃ incs,
    code_lines (emit_include self)
    = code_lines self ++ map (λ inc, "#include " +:+ inc) incs ++ [""]
    ∧ (∀ inc, inc ∈ incs ↔ inc ∈ includes self)
    ∧ ascending incs
    ∧ mapping (emit_include self) = mapping self
    ∧ includes (emit_include self) = includes self.
Proof.
  exists (sorted (includes self)). unfold emit_include, append_line at 1.
  cbn [code_lines set_code_lines]. rewrite emit_include_lines, <- app_assoc.
  split_and!; [done| | | |].
  - intros inc. unfold sorted. rewrite sort_by_perm. apply elem_of_elements.
  - apply sort_by_ascending, NoDup_elements.
  - generalize (sorted (includes self)). intros l. simpl.
    revert self. induction l as [|x l IH]; intros self; simpl; [done|]. by rewrite IH.
  - generalize (sorted (includes self)) at 1. intros l. simpl.
    revert self. induction l as [|x l IH]; intros self; simpl; [done|]. by rewrite IH.
Qed.

(** ** The passes of the emitter *)

Lemma grown_refl self : grown self self.
Proof.
  split_and!; [exists []; by rewrite app_nil_r..|done].
Qed.

Lemma grown_trans a b c : grown a b → grown b c → grown a c.
Proof.
  intros ([l1 H1] & [e1 He1] & Hw1) ([l2 H2] & [e2 He2] & Hw2). split_and!.
  - exists (l1 ++ l2). by rewrite H2, H1, app_assoc.
  - exists (e1 ++ e2). by rewrite He2, He1, app_assoc.
  - auto.
Qed.

Lemma grown_length a b :
  grown a b → (length (code_lines a) ≤ length (code_lines b))%nat.
Proof. intros ([l ->] & _). rewrite length_app. lia. Qed.

(** A change of the fields that hold neither lines nor entries. *)
Lemma grown_same self self' :
  code_lines self' = code_lines self → mapping self' = mapping self →
  grown self self'.
Proof.
  intros Hc Hm. split_and!; [exists []; by rewrite app_nil_r, ?Hc, ?Hm..|].
  unfold well_formed. by rewrite Hc, Hm.
Qed.

Lemma grown_append_line self line : grown self (append_line self line).
Proof.
  split_and!; [by exists [line]|exists []; by rewrite app_nil_r|].
  unfold well_formed, append_line. simpl. rewrite length_app. simpl.
  intros [Hl He]. split; [lia|]. intros e [? [? ?]]%He. split_and!; [lia..|done].
Qed.

Lemma fragment_entries_lines function line_no offset fragments e :
  e ∈ fragment_entries function line_no offset fragments →
  m_start_line e = Z.of_nat line_no ∧ m_end_line e = Z.of_nat line_no
  ∧ m_function e = function
  ∧ ∃ sc, m_start_col e = Some sc ∧ 1 ≤ sc.
Proof.
  revert offset. induction fragments as [|f r IH]; intros offset; simpl.
  { by intros ?%elem_of_nil. }
  destruct (f_marker f); [|apply IH].
  intros [->|?]%elem_of_cons; [|by eapply IH]. simpl.
  split_and!; [done..|]. eexists. split; [done|lia].
Qed.

Lemma grown_emit_line self fragments function :
  grown self (emit_line_with_fragments self fragments function).2.
Proof.
  unfold emit_line_with_fragments. simpl. split_and!; [by eexists|by eexists|].
  unfold well_formed. simpl. rewrite !length_app. simpl.
  intros [Hl He]. split; [lia|].
  intros e [Hin|Hin]%elem_of_app.
  - apply He in Hin as [? [? ?]]. split_and!; [lia..|done].
  - apply fragment_entries_lines in Hin as (Hs & He' & _ & sc & Hsc & ?).
    rewrite Hs, He'. split_and!; [lia..|]. intros sc' ?. assert (sc' = sc) as -> by congruence. done.
Qed.

Lemma grown_record_map self nid start end_ function :
  1 ≤ start ≤ Z.of_nat (length (code_lines self)) + 1 →
  1 ≤ end_ ≤ Z.of_nat (length (code_lines self)) →
  grown self (record_map self nid start end_ function).
Proof.
  intros Hs He. unfold record_map. split_and!;
    [exists []; by rewrite app_nil_r|by eexists|].
  unfold well_formed. simpl. intros [Hl Hm]. split; [done|].
  intros e [Hin|Hin]%elem_of_app; [by apply Hm|].
  apply list_elem_of_singleton in Hin as ->. simpl. split_and!; try lia. done.
Qed.

(** The tail of a pass that began at [self0] and has written a line. *)
Lemma grown_close_pass self0 self nid function :
  grown self0 self →
  (1 ≤ length (code_lines self))%nat →
  grown self0 (close_pass self nid (Z.of_nat (length (code_lines self0)) + 1) function).
Proof.
  intros Hg Hl. eapply grown_trans; [done|]. unfold close_pass.
  apply grown_record_map; pose proof (grown_length _ _ Hg); lia.
Qed.

(** The same for a pass that writes [line] without fragments. *)
Lemma comment_pass self0 self nid function line :
  code_lines self = code_lines self0 → mapping self = mapping self0 →
  indent_level self = indent_level self0 → node_defs self = node_defs self0 →
  incoming_by_node self = incoming_by_node self0 →
  incoming_list_by_node self = incoming_list_by_node self0 →
  one_line_pass self0
    (close_pass (append_line self line) nid
       (Z.of_nat (length (code_lines self0)) + 1) function)
    nid function line.
Proof.
  intros Hc Hm Hi Hd Hb Hl. unfold one_line_pass, close_pass, record_map, append_line.
  simpl. rewrite Hc, Hm, Hi, Hd, Hb, Hl, length_app. simpl.
  split_and!; try done. exists [plain line]. split_and!.
  - unfold join. simpl. by rewrite str_app_nil_r.
  - intros f mk ->%list_elem_of_singleton. done.
  - simpl. unfold coarse_entry. repeat f_equal; lia.
Qed.

Lemma fragments_pass self0 self nid function fragments :
  code_lines self = code_lines self0 → mapping self = mapping self0 →
  indent_level self = indent_level self0 → node_defs self = node_defs self0 →
  incoming_by_node self = incoming_by_node self0 →
  incoming_list_by_node self = incoming_list_by_node self0 →
  (∀ f mk, f ∈ fragments → f_marker f = Some mk → mk_node_id mk = nid) →
  one_line_pass self0
    (close_pass (emit_line_with_fragments self fragments function).2 nid
       (Z.of_nat (length (code_lines self0)) + 1) function)
    nid function (join (map f_text fragments)).
Proof.
  intros Hc Hm Hi Hd Hb Hl Hmk.
  unfold one_line_pass, close_pass, record_map, emit_line_with_fragments.
  simpl. rewrite Hc, Hm, Hi, Hd, Hb, Hl, !length_app. simpl.
  split_and!; try done. exists fragments. split_and!; [done..|].
  rewrite <- app_assoc. unfold coarse_entry.
  replace (length (code_lines self0) + 1)%nat with (S (length (code_lines self0))) by lia.
  repeat f_equal; lia.
Qed.

Lemma one_line_pass_grown self self' nid function line :
  one_line_pass self self' nid function line → grown self self'.
Proof.
  intros (Hc & (frags & _ & _ & Hm) & _). split_and!; [by eexists|by eexists|].
  unfold well_formed. rewrite Hc, Hm, length_app. simpl.
  intros [Hl He]. split; [lia|].
  intros e [Hin|[Hin|Hin]%elem_of_app]%elem_of_app.
  - apply He in Hin as [? [? ?]]. split_and!; [lia..|done].
  - apply fragment_entries_lines in Hin as (Hs & He' & _ & sc & Hsc & ?).
    rewrite Hs, He'. split_and!; [lia..|].
    intros sc' ?. assert (sc' = sc) as -> by congruence. done.
  - apply list_elem_of_singleton in Hin as ->. simpl. split_and!; try lia. done.
Qed.

Ltac ensure_fields self t :=
  destruct (ensure_lib_includes_fields self t)
    as (?Hd & ?Hc & ?Hil & ?Hv & ?Hu & ?Hm & ?Hi & ?Hl).

Lemma call_fragments_markers head nid args f mk :
  f ∈ call_fragments head nid args → f_marker f = Some mk → mk_node_id mk = nid.
Proof.
  unfold call_fragments. rewrite !elem_of_app.
  intros [->%list_elem_of_singleton|[Hin| ->%list_elem_of_singleton]]; [done| |done].
  apply list_elem_of_In, in_flat_map in Hin as ([i [pn e]] & _ & Hin).
  apply list_elem_of_In, elem_of_app in Hin as [Hin| ->%list_elem_of_singleton].
  - case_bool_decide; [|by apply elem_of_nil in Hin].
    by apply list_elem_of_singleton in Hin as ->.
  - by intros [= <-].
Qed.

Lemma emit_from_graph_Print_pass self n :
  ∃ line, one_line_pass self (emit_from_graph_Print self n) (n_id n) None line.
Proof.
  unfold emit_from_graph_Print. ensure_fields self (n_type n).
  set (self1 := ensure_lib_includes self (n_type n)) in *.
  rewrite Hc.
  destruct (match tdef_inputs _ with [] => _ | _ => _ end) as [src_id src_port].
  destruct (negb _).
  - eexists. by apply comment_pass.
  - eexists. apply fragments_pass; try done.
    intros f mk Hf. set_unfold in Hf. destruct Hf as [->|[->|[->|[]]]]; try done.
    by intros [= <-].
Qed.

Lemma emit_from_graph_Cast_pass self n :
  ∃ line, one_line_pass self (emit_from_graph_Cast self n) (n_id n) None line.
Proof.
  unfold emit_from_graph_Cast. ensure_fields self (n_type n).
  set (self1 := ensure_lib_includes self (n_type n)) in *.
  rewrite Hc. unfold make_var.
  destruct (alloc _ _) as [out_var used].
  destruct (cast_expr _ _) as [expr needs_string].
  eexists. apply fragments_pass; try (by destruct needs_string).
  intros f mk Hf. set_unfold in Hf. destruct Hf as [->|[->|[->|[]]]]; try done.
  by intros [= <-].
Qed.

Lemma emit_from_graph_other_pass self n :
  ∃ line, one_line_pass self (emit_from_graph_other self n) (n_id n) None line.
Proof.
  unfold emit_from_graph_other. ensure_fields self (n_type n).
  set (self1 := ensure_lib_includes self (n_type n)) in *.
  rewrite Hc. destruct (lib_truthy _).
  - unfold make_var. destruct (alloc _ _) as [out_var used].
    eexists. apply fragments_pass; try done. apply call_fragments_markers.
  - eexists. by apply comment_pass.
Qed.

Lemma emit_from_graph_Call_pass functions self n by_name :
  functions_by_name functions ∅ = inr by_name →
  ∃ self' line,
    emit_from_graph_Call functions self n = inr self'
    ∧ one_line_pass self self' (n_id n) None line.
Proof.
  intros Hf. unfold emit_from_graph_Call. rewrite Hf. unfold Py.bind.
  ensure_fields self (n_type n).
  set (self1 := ensure_lib_includes self (n_type n)) in *.
  rewrite Hc. unfold make_var. destruct (alloc _ _) as [out_var used].
  eexists _, _. split; [done|].
  apply fragments_pass; try done. apply call_fragments_markers.
Qed.

Lemma emit_from_graph_arith_pass self n op :
  ∃ line, one_line_pass self (emit_from_graph_arith self n op) (n_id n) None line.
Proof.
  unfold emit_from_graph_arith. ensure_fields self (n_type n).
  set (self1 := ensure_lib_includes self (n_type n)) in *.
  rewrite Hc. destruct (arith_sources _ _ _ _) as [[a_src b_src] [a_port b_port]].
  unfold make_var. destruct (alloc _ _) as [var used].
  eexists. apply (fragments_pass self); try done.
  intros f mk Hf. unfold arith_fragments in Hf. set_unfold in Hf.
  destruct Hf as [->|[->|[->|[->|[->|[]]]]]]; try done; by intros [= <-].
Qed.

Ltac line_pair :=
  rewrite (surjective_pairing (emit_line_with_fragments _ _ _)); cbv beta iota;
  cbn [fst snd].

Lemma emit_function_def_Literal_pass self sc n :
  ∃ line, one_line_pass self (emit_function_def_Literal self sc n).1 (n_id n)
            (name sc) line
          ∧ name (emit_function_def_Literal self sc n).2 = name sc.
Proof.
  unfold emit_function_def_Literal.
  destruct (literal_ctype_lit _) as [[ctype lit] needs_string].
  unfold local_make_var. destruct (alloc _ _) as [var used]. line_pair.
  eexists. split; [|done].
  apply (fragments_pass self); try (by destruct needs_string).
  intros f mk Hf. unfold literal_fragments in Hf. set_unfold in Hf.
  destruct Hf as [->|[->|[->|[]]]]; try done. by intros [= <-].
Qed.

Lemma emit_function_def_Cast_pass self sc n :
  ∃ line, one_line_pass self (emit_function_def_Cast self sc n).1 (n_id n)
            (name sc) line
          ∧ name (emit_function_def_Cast self sc n).2 = name sc.
Proof.
  unfold emit_function_def_Cast.
  unfold local_make_var. destruct (alloc _ _) as [var used].
  destruct (cast_expr _ _) as [expr needs_string]. line_pair.
  eexists. split; [|done].
  apply (fragments_pass self); try (by destruct needs_string).
  intros f mk Hf. unfold cast_fragments in Hf. set_unfold in Hf.
  destruct Hf as [->|[->|[->|[]]]]; try done. by intros [= <-].
Qed.

Lemma emit_function_def_arith_pass self sc n op :
  ∃ line, one_line_pass self (emit_function_def_arith self sc n op).1 (n_id n)
            (name sc) line
          ∧ name (emit_function_def_arith self sc n op).2 = name sc.
Proof.
  unfold emit_function_def_arith.
  destruct (arith_sources _ _ _ _) as [[a_src b_src] [a_port b_port]].
  unfold local_make_var. destruct (alloc _ _) as [var used]. line_pair.
  eexists. split; [|done].
  apply (fragments_pass self); try done.
  intros f mk Hf. unfold arith_fragments in Hf. set_unfold in Hf.
  destruct Hf as [->|[->|[->|[->|[->|[]]]]]]; try done; by intros [= <-].
Qed.

Lemma emit_function_def_other_pass self sc n :
  ∃ line, one_line_pass self (emit_function_def_other self sc n).1 (n_id n)
            (name sc) line
          ∧ name (emit_function_def_other self sc n).2 = name sc.
Proof.
  unfold emit_function_def_other. destruct (lib_truthy _).
  - unfold local_make_var. destruct (alloc _ _) as [var used]. line_pair.
    eexists. split; [|done].
    apply (fragments_pass self); try done. apply call_fragments_markers.
  - line_pair. eexists. split; [|done].
    apply (fragments_pass self); try done.
    intros f mk ->%list_elem_of_singleton. by intros [= <-].
Qed.

(** The pass for a [Param] node writes nothing and records an entry that
    spans no line. *)
Lemma emit_function_def_Param_pass self sc n :
  let self' := (emit_function_def_Param self sc n).1 in
  code_lines self' = code_lines self
  ∧ mapping self'
    = mapping self
      ++ [coarse_entry (n_id n) (Z.of_nat (length (code_lines self)) + 1)
            (Z.of_nat (length (code_lines self))) (name sc)]
  ∧ indent_level self' = indent_level self
  ∧ node_defs self' = node_defs self
  ∧ name (emit_function_def_Param self sc n).2 = name sc.
Proof.
  unfold emit_function_def_Param. simpl. split_and!; try done.
  - case_bool_decide; [|done].
    unfold local_make_var. by destruct (alloc _ _).
  - case_bool_decide; [|done].
    unfold local_make_var. by destruct (alloc _ _).
Qed.

(** One pass inside a function: a line, or nothing for a [Param]. *)
Lemma emit_function_def_node_pass self sc n :
  let self' := (emit_function_def_node self sc n).1 in
  ((∃ line, one_line_pass self self' (n_id n) (name sc) line)
   ∨ (n_type n = "Param"
      ∧ code_lines self' = code_lines self
      ∧ mapping self'
        = mapping self
          ++ [coarse_entry (n_id n) (Z.of_nat (length (code_lines self)) + 1)
                (Z.of_nat (length (code_lines self))) (name sc)]
      ∧ indent_level self' = indent_level self
      ∧ node_defs self' = node_defs self))
  ∧ name (emit_function_def_node self sc n).2 = name sc.
Proof.
  unfold emit_function_def_node. case_bool_decide as Hp.
  { destruct (emit_function_def_Param_pass self sc n) as (? & ? & ? & ? & ?).
    split; [right|]; done. }
  case_bool_decide.
  { destruct (emit_function_def_Literal_pass self sc n) as (l & ? & ?).
    split; [left; by exists l|done]. }
  case_bool_decide.
  { destruct (emit_function_def_Cast_pass self sc n) as (l & ? & ?).
    split; [left; by exists l|done]. }
  destruct (arith_op _).
  - destruct (emit_function_def_arith_pass self sc n s) as (l & ? & ?).
    split; [left; by exists l|done].
  - destruct (emit_function_def_other_pass self sc n) as (l & ? & ?).
    split; [left; by exists l|done].
Qed.

(** ** The whole text *)

Lemma coarse_entries_app l1 l2 :
  coarse_entries (l1 ++ l2) = coarse_entries l1 ++ coarse_entries l2.
Proof. apply filter_app. Qed.

Lemma coarse_fragment_entries function line_no offset fragments :
  coarse_entries (fragment_entries function line_no offset fragments) = [].
Proof.
  apply filter_none. intros e He.
  apply fragment_entries_lines in He as (_ & _ & _ & sc & -> & _). done.
Qed.

Lemma one_line_pass_coarse self self' nid function line :
  one_line_pass self self' nid function line →
  coarse_entries (mapping self')
  = coarse_entries (mapping self)
    ++ [coarse_entry nid (Z.of_nat (S (length (code_lines self))))
          (Z.of_nat (S (length (code_lines self)))) function].
Proof.
  intros (_ & (frags & _ & _ & ->) & _).
  by rewrite !coarse_entries_app, coarse_fragment_entries.
Qed.

Lemma pass_entries_cons function first n ordered :
  pass_entries function first (n :: ordered)
  = coarse_entry (n_id n) (Z.of_nat first) (Z.of_nat first) function
    :: pass_entries function (S first) ordered.
Proof.
  unfold pass_entries. simpl. rewrite Nat.add_0_r. f_equal.
  apply imap_ext. intros i x _. simpl. by replace (first + S i)%nat with (S (first + i)) by lia.
Qed.

Lemma functions_by_name_named functions m :
  all_named functions → ∃ by_name, functions_by_name functions m = inr by_name.
Proof.
  intros Hn. revert m. induction Hn as [|f r [nm Hf] _ IH]; intros m; simpl.
  - by eexists.
  - rewrite Hf. apply IH.
Qed.

Lemma emit_from_graph_node_pass functions self n :
  all_named functions → n_type n ≠ "Literal" →
  ∃ self' line,
    emit_from_graph_node functions self n = inr self'
    ∧ one_line_pass self self' (n_id n) None line.
Proof.
  intros Hn Hl. unfold emit_from_graph_node.
  rewrite bool_decide_false by done.
  destruct (arith_op _) as [op|].
  { destruct (emit_from_graph_arith_pass self n op) as [l ?]. by eexists _, l. }
  case_bool_decide.
  { destruct (emit_from_graph_Print_pass self n) as [l ?]. by eexists _, l. }
  case_bool_decide.
  { destruct (emit_from_graph_Cast_pass self n) as [l ?]. by eexists _, l. }
  case_bool_decide.
  { destruct (functions_by_name_named functions ∅ Hn) as [by_name Hb].
    apply (emit_from_graph_Call_pass _ _ _ _ Hb). }
  destruct (emit_from_graph_other_pass self n) as [l ?]. by eexists _, l.
Qed.

Lemma emit_from_graph_node_Literal functions self n :
  n_type n = "Literal" →
  emit_from_graph_node functions self n = inl (NameError "name").
Proof.
  intros Hl. unfold emit_from_graph_node. rewrite bool_decide_true by done.
  unfold emit_from_graph_Literal. by destruct (emit_from_graph_Literal_fragments _ _).
Qed.

(** The loop over nodes none of which is a [Literal]. *)
Lemma emit_nodes_lines functions ordered self :
  all_named functions → Forall (λ n, n_type n ≠ "Literal") ordered →
  ∃ self' lines,
    emit_nodes functions self ordered = inr self'
    ∧ length lines = length ordered
    ∧ code_lines self' = code_lines self ++ lines
    ∧ coarse_entries (mapping self')
      = coarse_entries (mapping self)
        ++ pass_entries None (S (length (code_lines self))) ordered
    ∧ grown self self'
    ∧ indent_level self' = indent_level self.
Proof.
  intros Hn Hl. revert self. induction Hl as [|n r Hnl _ IH]; intros self; simpl.
  { exists self, []. rewrite !app_nil_r. split_and!; try done. apply grown_refl. }
  destruct (emit_from_graph_node_pass functions self n Hn Hnl) as (s1 & l & -> & Hp).
  unfold Py.bind. destruct (IH s1) as (s2 & ls & -> & Hlen & Hc & Hm & Hg & Hi).
  pose proof (one_line_pass_coarse _ _ _ _ _ Hp) as Hm1.
  pose proof (one_line_pass_grown _ _ _ _ _ Hp) as Hg1.
  destruct Hp as (Hc1 & _ & Hi1 & _).
  exists s2, (l :: ls). split_and!; try done.
  - simpl. by rewrite Hlen.
  - by rewrite Hc, Hc1, <- app_assoc.
  - rewrite Hm, Hm1, Hc1, length_app, pass_entries_cons, <- app_assoc. simpl.
    by replace (length (code_lines self) + 1)%nat with (S (length (code_lines self))) by lia.
  - by eapply grown_trans.
  - by rewrite Hi, Hi1.
Qed.

(** The loop stops at the first [Literal]. *)
Lemma emit_nodes_Literal functions pre n post self :
  all_named functions → Forall (λ n, n_type n ≠ "Literal") pre →
  n_type n = "Literal" →
  emit_nodes functions self (pre ++ n :: post) = inl (NameError "name").
Proof.
  intros Hn Hl Hlit. revert self. induction Hl as [|m r Hnl _ IH]; intros self; simpl.
  { by rewrite emit_from_graph_node_Literal. }
  destruct (emit_from_graph_node_pass functions self m Hn Hnl) as (s1 & l & -> & Hp).
  apply IH.
Qed.

Lemma nodes_list_NoDup nodes :
  NoDup (map n_id nodes) → nodes_list nodes = nodes.
Proof.
  intros Hnd. unfold nodes_list. rewrite dict_keys_NoDup by done.
  assert (∀ l, l ⊆ nodes →
            omap (λ nid, id_to_node_of nodes !! nid) (map n_id l) = l) as H.
  { induction l as [|n l IH]; intros Hl; simpl; [done|].
    rewrite id_to_node_of_lookup by (done || apply Hl; left).
    f_equal. apply IH. intros x Hx. apply Hl. by right. }
  by apply H.
Qed.

Lemma emission_order_result nodes edges :
  ∃ ordered failed,
    emission_order nodes edges = inr (ordered, failed)
    ∧ ordered ≡ₚ nodes
    ∧ (failed = true → ordered = nodes)
    ∧ (failed = false ↔ topological_sort nodes edges = inr ordered).
Proof.
  unfold emission_order.
  destruct (topological_sort_result nodes edges) as [(o & -> & Hp)|(d & -> & _)].
  - exists o, false. split_and!; done.
  - exists nodes, true. unfold raise. split_and!; done.
Qed.

Lemma emit_from_graph_lines nodes edges functions self :
  all_named functions →
  Forall (λ n, n_type n ≠ "Literal") (nodes_list nodes) →
  ∃ self' ordered failed lines,
    emit_from_graph nodes edges functions self = inr self'
    ∧ emission_order (nodes_list nodes) edges = inr (ordered, failed)
    ∧ ordered ≡ₚ nodes_list nodes
    ∧ length lines = length ordered
    ∧ code_lines self'
      = code_lines self
        ++ warning_lines failed
             (indent self +:+ "// Warning: topological sort failed, using graph order")
        ++ lines
    ∧ coarse_entries (mapping self')
      = coarse_entries (mapping self)
        ++ pass_entries None
             (length (code_lines self) + (if failed then 2 else 1)) ordered.
Proof.
  intros Hn Hl. unfold emit_from_graph.
  destruct (emission_order_result (nodes_list nodes) edges)
    as (ordered & failed & Ho & Hp & _).
  rewrite Ho. unfold Py.bind.
  assert (Forall (λ n, n_type n ≠ "Literal") ordered) as Hl'
    by (by rewrite Hp).
  destruct failed.
  - destruct (emit_nodes_lines functions ordered
                (append_line self (indent self +:+
                   "// Warning: topological sort failed, using graph order")) Hn Hl')
      as (self' & lines & -> & Hlen & Hc & Hm & _).
    exists self', ordered, true, lines. split_and!; try done.
    + rewrite Hc. unfold append_line. simpl. by rewrite <- app_assoc.
    + rewrite Hm. unfold append_line. simpl. rewrite length_app. simpl.
      by replace (S (length (code_lines self) + 1)) with (length (code_lines self) + 2)%nat by lia.
  - destruct (emit_nodes_lines functions ordered self Hn Hl')
      as (self' & lines & -> & Hlen & Hc & Hm & _).
    exists self', ordered, false, lines. split_and!; try done.
    rewrite Hm. by replace (S (length (code_lines self))) with (length (code_lines self) + 1)%nat by lia.
Qed.

Lemma settled_well_formed self : settled self → well_formed self.
Proof.
  intros [Hl Hm]. split; [done|]. intros e He.
  rewrite Forall_forall in Hm. destruct (Hm e He) as (? & ? & ?).
  split_and!; [lia..|done].
Qed.

Lemma well_formed_append_line self line :
  well_formed self → settled (append_line self line).
Proof.
  intros [Hl Hm]. unfold settled, append_line. simpl. rewrite length_app. simpl.
  split; [lia|]. apply Forall_forall. intros e He.
  destruct (Hm e He) as (? & ? & ?). unfold in_range. split_and!; [lia..|done].
Qed.

Lemma settled_fields self self' :
  code_lines self' = code_lines self → mapping self' = mapping self →
  settled self → settled self'.
Proof. unfold settled. by intros -> ->. Qed.

Lemma well_formed_fields self self' :
  code_lines self' = code_lines self → mapping self' = mapping self →
  well_formed self → well_formed self'.
Proof. unfold well_formed. by intros -> ->. Qed.

Lemma one_line_pass_function self self' nid function line :
  one_line_pass self self' nid function line →
  ∃ entries, mapping self' = mapping self ++ entries
             ∧ Forall (λ e, m_function e = function) entries.
Proof.
  intros (_ & (frags & _ & _ & ->) & _). eexists. split; [done|].
  apply Forall_app. split; [|by repeat constructor].
  apply Forall_forall. intros e He.
  by apply fragment_entries_lines in He as (_ & _ & ? & _).
Qed.

Lemma emit_function_def_nodes ordered self sc :
  let r := foldl (λ '(self, sc) n, emit_function_def_node self sc n) (self, sc)
             ordered in
  ∃ lines entries,
    code_lines r.1 = code_lines self ++ lines
    ∧ length lines = length (filter (λ n, n_type n ≠ "Param") ordered)
    ∧ mapping r.1 = mapping self ++ entries
    ∧ Forall (λ e, m_function e = name sc) entries
    ∧ (well_formed self → well_formed r.1)
    ∧ indent_level r.1 = indent_level self
    ∧ name r.2 = name sc.
Proof.
  revert self sc. induction ordered as [|n r IH]; intros self sc; simpl.
  { exists [], []. rewrite !app_nil_r. split_and!; done. }
  destruct (emit_function_def_node self sc n) as [s1 sc1] eqn:En.
  destruct (IH s1 sc1) as (ls & es & Hc & Hlen & Hm & Hf & Hw & Hi & Hnm).
  pose proof (emit_function_def_node_pass self sc n) as Hp.
  rewrite En in Hp. simpl in Hp. destruct Hp as [Hp Hsc].
  rewrite Hsc in *.
  destruct (decide (n_type n = "Param")) as [Hpar|Hpar].
  - assert (code_lines s1 = code_lines self
            ∧ mapping s1 = mapping self
                ++ [coarse_entry (n_id n) (Z.of_nat (length (code_lines self)) + 1)
                      (Z.of_nat (length (code_lines self))) (name sc)]
            ∧ indent_level s1 = indent_level self) as (Hc1 & Hm1 & Hi1).
    { pose proof (emit_function_def_Param_pass self sc n) as Hq.
      unfold emit_function_def_node in En.
      rewrite bool_decide_true in En by done. rewrite En in Hq. simpl in Hq.
      destruct Hq as (? & ? & ? & _). done. }
    rewrite filter_cons_False by (intros H; by apply H).
    exists ls, (coarse_entry (n_id n) (Z.of_nat (length (code_lines self)) + 1)
                  (Z.of_nat (length (code_lines self))) (name sc) :: es).
    split_and!; try done.
    + by rewrite Hc, Hc1.
    + by rewrite Hm, Hm1, <- app_assoc.
    + by constructor.
    + intros Hwf. apply Hw. destruct Hwf as [Hl He]. split; [by rewrite Hc1|].
      rewrite Hc1, Hm1. intros e [Hin|Hin]%elem_of_app; [by apply He|].
      apply list_elem_of_singleton in Hin as ->. simpl. split_and!; try lia. done.
    + by rewrite Hi, Hi1.
  - destruct Hp as [[l Hp]|[? _]]; [|done].
    destruct (one_line_pass_function _ _ _ _ _ Hp) as (es1 & Hm1 & Hf1).
    pose proof (one_line_pass_grown _ _ _ _ _ Hp) as (_ & _ & Hw1).
    destruct Hp as (Hc1 & _ & Hi1 & _).
    rewrite filter_cons_True by done.
    exists (l :: ls), (es1 ++ es). split_and!; try done.
    + by rewrite Hc, Hc1, <- app_assoc.
    + simpl. by rewrite Hlen.
    + by rewrite Hm, Hm1, <- app_assoc.
    + by apply Forall_app.
    + auto.
    + by rewrite Hi, Hi1.
Qed.

Lemma emit_return_lines self sc return_type ret_id ordered :
  let self' := emit_return self sc return_type ret_id ordered in
  ∃ ret entries,
    code_lines self' = code_lines self ++ ret
    ∧ length ret
      = (if negb (bool_decide (return_type = ""))
            && negb (bool_decide (return_type = "void")) then 1 else 0)%nat
    ∧ mapping self' = mapping self ++ entries
    ∧ Forall (λ e, m_function e = name sc) entries
    ∧ (well_formed self → well_formed self')
    ∧ indent_level self' = indent_level self.
Proof.
  unfold emit_return. destruct (negb _ && negb _).
  2:{ exists [], []. rewrite !app_nil_r. split_and!; done. }
  line_pair.
  match goal with
  | |- context [emit_line_with_fragments self ?fr ?fn] =>
      set (frags := fr); set (s1 := (emit_line_with_fragments self frags fn).2)
  end.
  pose proof (grown_emit_line self frags (name sc)) as (_ & _ & Hw1). fold s1 in Hw1.
  assert (code_lines s1 = code_lines self ++ [join (map f_text frags)]) as Hc1
    by reflexivity.
  assert (mapping s1 = mapping self
            ++ fragment_entries (name sc)
                 (length (code_lines self ++ [join (map f_text frags)])) 0 frags) as Hm1
    by reflexivity.
  eexists [_], _. split_and!.
  - unfold record_map. simpl. done.
  - done.
  - unfold record_map. cbn [mapping set_mapping]. rewrite Hm1, <- app_assoc. done.
  - apply Forall_app. split; [|by repeat constructor].
    apply Forall_forall. intros e He.
    by apply fragment_entries_lines in He as (_ & _ & ? & _).
  - intros Hwf. specialize (Hw1 Hwf).
    destruct (grown_record_map s1 (str_opt (name sc) +:+ "::return")
                (Z.of_nat (length (code_lines s1))) (Z.of_nat (length (code_lines s1)))
                (name sc)) as (_ & _ & Hw2).
    1,2: rewrite Hc1, length_app; simpl; lia.
    by apply Hw2.
  - done.
Qed.

Lemma ensure_all_fields self (nodes : list node) :
  let self' := foldl (λ self n, ensure_lib_includes self (n_type n)) self nodes in
  node_defs self' = node_defs self ∧ code_lines self' = code_lines self
  ∧ indent_level self' = indent_level self ∧ mapping self' = mapping self.
Proof.
  revert self. induction nodes as [|n r IH]; intros self; simpl; [done|].
  destruct (IH (ensure_lib_includes self (n_type n))) as (-> & -> & -> & ->).
  ensure_fields self (n_type n). done.
Qed.

Lemma assign_by_order_name params assigned param_nodes pi sc :
  name (assign_by_order params assigned param_nodes pi sc) = name sc.
Proof.
  revert pi sc. induction param_nodes as [|pn r IH]; intros pi sc; simpl; [done|].
  case_bool_decide; [apply IH|].
  destruct (params !! pi); [by rewrite IH|].
  unfold local_make_var. destruct (alloc _ _). by rewrite IH.
Qed.

Lemma emit_function_def_result (self : emitter) (f : func) :
  ∃ self' failed lines ret entries,
    emit_function_def self f = inr self'
    ∧ code_lines self'
      = code_lines self ++ [signature f +:+ " {"]
        ++ warning_lines failed (function_warning self)
        ++ lines ++ ret ++ ["}"; ""]
    ∧ (failed = false
       ↔ ∃ ordered, topological_sort (fn_nodes f) (fn_edges f) = inr ordered)
    ∧ length lines = length (filter (λ n, n_type n ≠ "Param") (fn_nodes f))
    ∧ length ret = (if returns_value f then 1 else 0)%nat
    ∧ mapping self' = mapping self ++ entries
    ∧ Forall (λ e, m_function e = fn_name f) entries
    ∧ indent_level self' = indent_level self
    ∧ (well_formed self → settled self').
Proof.
  unfold emit_function_def.
  destruct (init_local_incoming (fn_edges f)) as [lmap llist].
  destruct (ensure_all_fields self (fn_nodes f)) as (Hd0 & Hc0 & Hi0 & Hm0).
  set (self0 := foldl _ self (fn_nodes f)) in *.
  destruct (assign_by_name _ _ _ _) as [names assigned].
  destruct (emission_order_result (fn_nodes f) (fn_edges f))
    as (ordered & failed & Ho & Hp & Hfl & Hft).
  rewrite Ho. unfold Py.bind. cbv beta iota.
  match goal with
  | |- context [foldl ?fn (?s, ?c) ordered] =>
      set (s1 := s); set (sc1 := c);
      pose proof (emit_function_def_nodes ordered s1 sc1) as Hloop;
      destruct (foldl fn (s1, sc1) ordered) as [s2 sc2]
  end.
  simpl in Hloop. destruct Hloop as (ls & es & Hc & Hlen & Hm & Hf & Hw & Hi & Hnm).
  assert (name sc1 = fn_name f) as Hname.
  { unfold sc1. by rewrite assign_by_order_name. }
  rewrite Hname in *.
  destruct (emit_return_lines s2 sc2 (default "void" (fn_returnType f)) (fn_return f)
              ordered) as (ret & es' & Hc' & Hlen' & Hm' & Hf' & Hw' & Hi').
  rewrite Hnm in Hf'.
  set (s3 := emit_return s2 sc2 _ _ _) in *.
  assert (code_lines s1
          = code_lines self ++ [signature f +:+ " {"]
            ++ warning_lines failed (function_warning self)
          ∧ mapping s1 = mapping self
          ∧ indent_level s1 = (indent_level self + 1)%nat
          ∧ (well_formed self → well_formed s1)) as (Hc1 & Hm1 & Hi1 & Hw1).
  { assert (well_formed self →
            well_formed (set_indent_level
                           (indent_level (append_line self0 (signature f +:+ " {")) + 1)
                           (append_line self0 (signature f +:+ " {")))) as HwB.
    { intros Hwf.
      apply (well_formed_fields (append_line self0 (signature f +:+ " {"))); [done..|].
      apply settled_well_formed, well_formed_append_line.
      by apply (well_formed_fields self). }
    unfold s1. destruct failed.
    - split_and!.
      + unfold append_line. simpl. rewrite Hc0, Hi0, <- app_assoc. done.
      + unfold append_line. simpl. by rewrite Hm0.
      + unfold append_line. simpl. by rewrite Hi0.
      + intros Hwf. apply settled_well_formed, well_formed_append_line, HwB, Hwf.
    - split_and!.
      + unfold append_line. simpl. by rewrite Hc0.
      + unfold append_line. simpl. by rewrite Hm0.
      + unfold append_line. simpl. by rewrite Hi0.
      + done. }
  eexists _, failed, ls, ret, (es ++ es'). split_and!.
  - done.
  - unfold append_line. simpl. rewrite Hc', Hc, Hc1.
    rewrite <- !app_assoc. done.
  - split; [intros Hf0; apply Hft in Hf0; by eexists|].
    intros [o Ho']. destruct failed; [|done].
    unfold emission_order in Ho. rewrite Ho' in Ho. done.
  - rewrite Hlen. by rewrite Hp.
  - done.
  - unfold append_line. simpl. by rewrite Hm', Hm, Hm1, <- app_assoc.
  - by apply Forall_app.
  - unfold append_line. simpl. rewrite Hi', Hi, Hi1. lia.
  - intros Hwf.
    apply (well_formed_append_line (append_line _ _)).
    apply settled_well_formed, (well_formed_append_line (set_indent_level _ _)).
    eapply well_formed_fields; [| |apply Hw', Hw, Hw1, Hwf]; done.
Qed.

Lemma emit_from_graph_node_inr functions self n self' :
  emit_from_graph_node functions self n = inr self' →
  ∃ line, one_line_pass self self' (n_id n) None line.
Proof.
  unfold emit_from_graph_node. case_bool_decide as Hl.
  { unfold emit_from_graph_Literal.
    by destruct (emit_from_graph_Literal_fragments _ _). }
  destruct (arith_op _) as [op|].
  { intros [= <-]. apply emit_from_graph_arith_pass. }
  case_bool_decide.
  { intros [= <-]. apply emit_from_graph_Print_pass. }
  case_bool_decide.
  { intros [= <-]. apply emit_from_graph_Cast_pass. }
  case_bool_decide.
  { destruct (functions_by_name functions ∅) as [e|by_name] eqn:Hb.
    { unfold emit_from_graph_Call. rewrite Hb. done. }
    destruct (emit_from_graph_Call_pass functions self n by_name Hb)
      as (s & l & -> & Hp).
    intros [= <-]. by exists l. }
  intros [= <-]. apply emit_from_graph_other_pass.
Qed.

Lemma emit_nodes_grown functions ordered self self' :
  emit_nodes functions self ordered = inr self' →
  grown self self' ∧ indent_level self' = indent_level self.
Proof.
  revert self. induction ordered as [|n r IH]; intros self; simpl.
  { intros [= <-]. split; [apply grown_refl|done]. }
  destruct (emit_from_graph_node functions self n) as [e|s1] eqn:En; [done|].
  unfold Py.bind. intros [Hg Hi]%IH.
  apply emit_from_graph_node_inr in En as [l Hp].
  pose proof (one_line_pass_grown _ _ _ _ _ Hp) as Hg1.
  destruct Hp as (_ & _ & Hi1 & _).
  split; [by eapply grown_trans|by rewrite Hi, Hi1].
Qed.

Lemma emit_from_graph_grown nodes edges functions self self' :
  emit_from_graph nodes edges functions self = inr self' →
  grown self self' ∧ indent_level self' = indent_level self.
Proof.
  unfold emit_from_graph.
  destruct (emission_order_result (nodes_list nodes) edges)
    as (ordered & failed & -> & _).
  unfold Py.bind. intros [Hg Hi]%emit_nodes_grown. destruct failed; [|done].
  split; [|done]. eapply grown_trans; [apply grown_append_line|done].
Qed.

Lemma emit_main_settled nodes edges functions self self' :
  emit_main nodes edges functions self = inr self' →
  indent_level self' = indent_level self
  ∧ (well_formed self → settled self').
Proof.
  unfold emit_main.
  destruct (emit_from_graph _ _ _ _) as [e|s1] eqn:Eg; [done|].
  unfold Py.bind. intros [= <-].
  apply emit_from_graph_grown in Eg as [(_ & _ & Hw) Hi].
  split.
  - unfold append_line. simpl. rewrite Hi. simpl. lia.
  - intros Hwf. apply (well_formed_append_line (set_indent_level _ _)).
    apply (well_formed_fields (append_line s1 (indent s1 +:+ "return 0;"))); [done..|].
    apply settled_well_formed, well_formed_append_line, Hw.
    apply (well_formed_fields (append_line self "int main() {")); [done..|].
    by apply settled_well_formed, well_formed_append_line.
Qed.

Lemma emit_functions_settled functions self :
  ∃ self',
    foldl (λ acc f, do self <- acc; emit_function_def self f) (inr self) functions
    = inr self'
    ∧ (∃ lines, code_lines self' = code_lines self ++ lines)
    ∧ indent_level self' = indent_level self
    ∧ (settled self → settled self').
Proof.
  revert self. induction functions as [|f r IH]; intros self; simpl.
  { exists self. split_and!; try done. exists []. by rewrite app_nil_r. }
  destruct (emit_function_def_result self f)
    as (s1 & failed & ls & ret & es & -> & Hc & _ & _ & _ & _ & _ & Hi & Hw).
  destruct (IH s1) as (s2 & -> & [ls2 Hc2] & Hi2 & Hw2).
  exists s2. split_and!; try done.
  - rewrite Hc2, Hc, <- app_assoc. by eexists.
  - by rewrite Hi2, Hi.
  - intros Hs. by apply Hw2, Hw, settled_well_formed.
Qed.

Lemma ensure_lib_includes_includes self t :
  includes (ensure_lib_includes self t)
  = from_option singleton ∅ (lib_header (node_defs self) t) ∪ includes self.
Proof.
  unfold ensure_lib_includes, lib_header.
  destruct (td_lib _) as [lib|]; simpl; [|set_unfold; intros; tauto].
  destruct (lib_include lib) as [inc|]; simpl; [|set_unfold; intros; tauto].
  destruct (negb _); simpl; (set_unfold; intros; tauto).
Qed.

Lemma ensure_all_includes self (nodes : list node) :
  includes (foldl (λ self n, ensure_lib_includes self (n_type n)) self nodes)
  = headers_of (node_defs self) nodes ∪ includes self.
Proof.
  revert self. induction nodes as [|n r IH]; intros self; simpl.
  { unfold headers_of. simpl. (set_unfold; intros; tauto). }
  rewrite IH, ensure_lib_includes_includes.
  ensure_fields self (n_type n). rewrite Hd.
  unfold headers_of. simpl. destruct (lib_header _ _); simpl; (set_unfold; intros; tauto).
Qed.

Lemma ensure_functions_fields self (functions : list func) :
  let self' :=
    foldl (λ self f,
             foldl (λ self n, ensure_lib_includes self (n_type n)) self (fn_nodes f))
          self functions in
  node_defs self' = node_defs self ∧ code_lines self' = code_lines self
  ∧ indent_level self' = indent_level self ∧ mapping self' = mapping self
  ∧ includes self'
    = headers_of (node_defs self) (concat (map fn_nodes functions)) ∪ includes self.
Proof.
  revert self. induction functions as [|f r IH]; intros self; simpl.
  { unfold headers_of. simpl. split_and!; try done. (set_unfold; intros; tauto). }
  destruct (IH (foldl (λ self n, ensure_lib_includes self (n_type n)) self (fn_nodes f)))
    as (-> & -> & -> & -> & ->).
  destruct (ensure_all_fields self (fn_nodes f)) as (-> & -> & -> & ->).
  rewrite ensure_all_includes. split_and!; try done.
  unfold headers_of. rewrite omap_app, list_to_set_app_L. (set_unfold; intros; tauto).
Qed.

Lemma emit_include_fields self :
  code_lines (emit_include self) = code_lines self ++ include_lines (includes self)
  ∧ mapping (emit_include self) = mapping self
  ∧ indent_level (emit_include self) = indent_level self.
Proof.
  unfold emit_include, include_lines, append_line at 1.
  cbn [code_lines set_code_lines]. rewrite emit_include_lines, <- app_assoc.
  split_and!; [done| |].
  - generalize (sorted (includes self)). intros l. simpl.
    revert self. induction l as [|x l IH]; intros self; simpl; [done|]. by rewrite IH.
  - generalize (sorted (includes self)). intros l. simpl.
    revert self. induction l as [|x l IH]; intros self; simpl; [done|]. by rewrite IH.
Qed.

(** The state in which [emit] starts to write functions. *)
Lemma emit_prelude i functions defs :
  let self := __init__ (Driver.ir_imports i) (Driver.ir_edges i) defs in
  let self :=
    foldl (λ self f,
             foldl (λ self n, ensure_lib_includes self (n_type n)) self (fn_nodes f))
          self functions in
  let self := foldl (λ self n, ensure_lib_includes self (n_type n)) self
                (Driver.ir_nodes i) in
  let self :=
    if bool_decide (set_Exists (λ inc, contains "iostream" inc = true) (includes self))
    then self
    else set_includes ({[ "<iostream>" ]} ∪ includes self) self in
  let self := emit_include self in
  code_lines self = include_lines (known_includes i functions defs)
  ∧ mapping self = [] ∧ indent_level self = 0%nat.
Proof.
  intros s0 s1 s2 s3 s4.
  assert (node_defs s0 = defs ∧ code_lines s0 = [] ∧ indent_level s0 = 0%nat
          ∧ mapping s0 = [] ∧ includes s0 = list_to_set (Driver.ir_imports i))
    as (Hd0 & Hc0 & Hi0 & Hm0 & Hn0).
  { unfold s0, __init__. by destruct (init_incoming _). }
  destruct (ensure_functions_fields s0 functions) as (Hd1 & Hc1 & Hi1 & Hm1 & Hn1).
  fold s1 in Hd1, Hc1, Hi1, Hm1, Hn1.
  destruct (ensure_all_fields s1 (Driver.ir_nodes i)) as (Hd2 & Hc2 & Hi2 & Hm2).
  pose proof (ensure_all_includes s1 (Driver.ir_nodes i)) as Hn2.
  fold s2 in Hd2, Hc2, Hi2, Hm2, Hn2.
  assert (includes s2
          = headers_of defs (Driver.ir_nodes i)
            ∪ headers_of defs (concat (map fn_nodes functions))
            ∪ list_to_set (Driver.ir_imports i)) as Hn2'.
  { rewrite Hn2, Hn1, Hd1, Hd0, Hn0. (set_unfold; intros; tauto). }
  assert (code_lines s3 = [] ∧ mapping s3 = [] ∧ indent_level s3 = 0%nat
          ∧ includes s3 = known_includes i functions defs) as (Hc3 & Hm3 & Hi3 & Hn3).
  { unfold s3, known_includes. rewrite Hn2'. case_bool_decide; simpl.
    - rewrite Hc2, Hc1, Hm2, Hm1, Hi2, Hi1. done.
    - rewrite Hc2, Hc1, Hm2, Hm1, Hi2, Hi1. done. }
  destruct (emit_include_fields s3) as (Hc4 & Hm4 & Hi4). fold s4 in Hc4, Hm4, Hi4.
  rewrite Hc4, Hm4, Hi4, Hc3, Hn3. done.
Qed.

Lemma first_such {A} (P : A → Prop) `{∀ x, Decision (P x)} (l : list A) :
  Exists P l →
  ∃ pre x post, l = pre ++ x :: post ∧ Forall (λ y, ¬ P y) pre ∧ P x.
Proof.
  induction l as [|y l IH]; intros Hex; [by apply Exists_nil in Hex|].
  destruct (decide (P y)) as [Hy|Hy].
  { exists [], y, l. split_and!; [done|constructor|done]. }
  apply Exists_cons in Hex as [?|Hex]; [done|].
  destruct (IH Hex) as (pre & x & post & -> & Hpre & Hx).
  exists (y :: pre), x, post. split_and!; [done|by constructor|done].
Qed.

Lemma emit_from_graph_Literal_raises nodes edges functions self :
  all_named functions →
  Exists (λ n, n_type n = "Literal") (nodes_list nodes) →
  emit_from_graph nodes edges functions self = inl (NameError "name").
Proof.
  intros Hn Hex. unfold emit_from_graph.
  destruct (emission_order_result (nodes_list nodes) edges)
    as (ordered & failed & -> & Hp & _).
  unfold Py.bind. rewrite <- Hp in Hex.
  apply first_such in Hex as (pre & n & post & -> & Hpre & Hlit); [|apply _].
  by apply emit_nodes_Literal.
Qed.

Lemma emit_main_Literal_raises nodes edges functions self :
  all_named functions →
  Exists (λ n, n_type n = "Literal") (nodes_list nodes) →
  emit_main nodes edges functions self = inl (NameError "name").
Proof.
  intros Hn Hex. unfold emit_main. by rewrite emit_from_graph_Literal_raises.
Qed.

Lemma emit_main_lines nodes edges functions self :
  all_named functions →
  Forall (λ n, n_type n ≠ "Literal") (nodes_list nodes) →
  ∃ self' failed lines,
    emit_main nodes edges functions self = inr self'
    ∧ code_lines self'
      = code_lines self ++ ["int main() {"]
        ++ warning_lines failed (main_warning self)
        ++ lines
        ++ [indent (set_indent_level (indent_level self + 1) self) +:+ "return 0;"; "}"]
    ∧ length lines = length (nodes_list nodes)
    ∧ (failed = false
       ↔ ∃ ordered, topological_sort (nodes_list nodes) edges = inr ordered).
Proof.
  intros Hn Hl. unfold emit_main.
  destruct (emit_from_graph_lines nodes edges functions
              (set_indent_level (indent_level (append_line self "int main() {") + 1)
                 (append_line self "int main() {")) Hn Hl)
    as (s1 & ordered & failed & lines & Hg & Ho & Hp & Hlen & Hc & _).
  rewrite Hg. unfold Py.bind.
  assert (indent_level s1 = (indent_level self + 1)%nat) as Hi.
  { apply emit_from_graph_grown in Hg as [_ ->]. done. }
  eexists _, failed, lines. split_and!; [done| | |].
  - unfold append_line at 1 2. simpl. rewrite Hc. unfold append_line. simpl.
    unfold indent at 2. rewrite Hi. rewrite <- !app_assoc. done.
  - rewrite Hlen. by apply Permutation_length.
  - destruct (emission_order_result (nodes_list nodes) edges)
      as (o' & f' & Ho' & _ & _ & Hft).
    rewrite Ho in Ho'. injection Ho' as <- <-.
    split; [intros Hf0; apply Hft in Hf0; by eexists|].
    intros [o Ht]. destruct failed; [|done].
    unfold emission_order in Ho. rewrite Ht in Ho. done.
Qed.

Lemma line_at_in_range code_lines line :
  1 ≤ line ≤ Z.of_nat (length code_lines) → is_Some (line_at code_lines line).
Proof.
  intros Hl. unfold line_at.
  rewrite (proj2 (Z.leb_le _ _)), (proj2 (Z.leb_le _ _)) by lia. simpl.
  apply lookup_lt_is_Some. lia.
Qed.

Lemma finalize_entry_in_range code_lines e :
  in_range (length code_lines) e →
  in_range (length code_lines) (finalize_entry code_lines e)
  ∧ is_Some (m_start_col (finalize_entry code_lines e))
  ∧ is_Some (m_end_col (finalize_entry code_lines e)).
Proof.
  intros (Hs & He & Hc).
  destruct (finalize_entry_finalized code_lines e)
    as (_ & _ & Hs' & He' & _ & _ & _ & Hsc & Hec).
  destruct (line_at_in_range code_lines _ Hs) as [ts Hts].
  destruct (line_at_in_range code_lines _ He) as [te Hte].
  specialize (Hsc ts Hts). specialize (Hec te Hte).
  split_and!; [|by eexists..].
  unfold in_range. rewrite Hs', He', Hsc. split_and!; [lia..|].
  intros sc [= <-]. destruct (m_start_col e) as [c|]; simpl; [by apply Hc|lia].
Qed.

(** [emit] stops at the first [Literal] of the top-level graph. *)
Lemma emit_Literal_raises i functions defs :
  all_named functions →
  Exists (λ n, n_type n = "Literal") (nodes_list (Driver.ir_nodes i)) →
  emit i functions defs = inl (NameError "name").
Proof.
  intros Hn Hex. unfold emit.
  pose proof (emit_prelude i functions defs) as Hpre. cbv zeta in Hpre.
  set (s4 := emit_include _) in *.
  destruct (emit_functions_settled functions s4) as (s5 & -> & _).
  unfold Py.bind. by rewrite emit_main_Literal_raises.
Qed.

(** X24. When every function has a name and no node of the graph is a
    [Literal], [emit_from_graph] returns. It writes the warning, if the
    topological sort failed, and then one line per node, in the order of
    the sort, or of the graph if the sort failed; the coarse entries it
    adds are one per node in that order, each on the line of its node and
    without a function. *)
Theorem emit_from_graph_line_per_node nodes edges functions self :
  all_named functions →
  Forall (λ n, n_type n ≠ "Literal") (nodes_list nodes) →
  ∃ self' ordered failed lines,
    emit_from_graph nodes edges functions self = inr self'
    ∧ emission_order (nodes_list nodes) edges = inr (ordered, failed)
    ∧ ordered ≡ₚ nodes_list nodes
    ∧ length lines = length ordered
    ∧ code_lines self'
      = code_lines self
        ++ warning_lines failed
             (indent self +:+ "// Warning: topological sort failed, using graph order")
        ++ lines
    ∧ coarse_entries (mapping self')
      = coarse_entries (mapping self)
        ++ pass_entries None
             (length (code_lines self) + (if failed then 2 else 1)) ordered.
Proof.
  intros Hn Hl.
  destruct (emit_from_graph_lines nodes edges functions self Hn Hl)
    as (self' & ordered & failed & lines & H).
  by exists self', ordered, failed, lines.
Qed.

Lemma emit_from_graph_line_per_node_witness :
  ∃ self' lines,
    emit_from_graph nodes_print [ positional "A" "P" ] []
      (__init__ [] [ positional "A" "P" ] ∅) = inr self'
    ∧ code_lines self' = lines ∧ length lines = 2%nat.
Proof.
  destruct (emit_from_graph_line_per_node nodes_print [ positional "A" "P" ] []
              (__init__ [] [ positional "A" "P" ] ∅))
    as (self' & ordered & failed & lines & Hr & _ & Hp & Hlen & Hc & _).
  - constructor.
  - vm_compute. repeat constructor; discriminate.
  - exists self', (code_lines self'). split_and!; [done..|].
    vm_compute in Hr. injection Hr as <-. reflexivity.
Defined.

(** X25. [emit_function_def] always returns. It appends the signature with
    an opening brace, the warning if the topological sort of the body
    failed, one line per node that is not a [Param], the [return] line
    exactly when the return type is neither empty nor [void], the closing
    brace and an empty line. Every entry it adds carries the name of the
    function, the indentation is the one before the call, and if the
    emitter was well formed before, all entries lie within the lines
    after. *)
Theorem emit_function_def_layout (self : emitter) (f : func) :
  ∃ self' failed lines ret entries,
    emit_function_def self f = inr self'
    ∧ code_lines self'
      = code_lines self ++ [signature f +:+ " {"]
        ++ warning_lines failed (function_warning self)
        ++ lines ++ ret ++ ["}"; ""]
    ∧ (failed = false
       ↔ ∃ ordered, topological_sort (fn_nodes f) (fn_edges f) = inr ordered)
    ∧ length lines = length (filter (λ n, n_type n ≠ "Param") (fn_nodes f))
    ∧ length ret = (if returns_value f then 1 else 0)%nat
    ∧ mapping self' = mapping self ++ entries
    ∧ Forall (λ e, m_function e = fn_name f) entries
    ∧ indent_level self' = indent_level self
    ∧ (well_formed self → settled self').
Proof.
  destruct (emit_function_def_result self f)
    as (self' & failed & lines & ret & entries & H).
  by exists self', failed, lines, ret, entries.
Qed.

(** X26. When every function has a name, [emit] raises [NameError] for the
    unbound [name] exactly when a node of the top-level graph, the last
    node given for each id, is a [Literal]. *)
Theorem emit_raises_on_Literal i functions defs :
  all_named functions →
  (emit i functions defs = inl (NameError "name")
   ↔ Exists (λ n, n_type n = "Literal") (nodes_list (Driver.ir_nodes i))).
Proof.
  intros Hn. unfold emit.
  pose proof (emit_prelude i functions defs) as Hpre. cbv zeta in Hpre.
  set (s4 := emit_include _) in *.
  destruct (emit_functions_settled functions s4) as (s5 & -> & _).
  unfold Py.bind.
  destruct (decide (Exists (λ n, n_type n = "Literal")
                      (nodes_list (Driver.ir_nodes i)))) as [Hex|Hno].
  - by rewrite emit_main_Literal_raises.
  - apply not_Exists_Forall in Hno; [|apply _].
    destruct (emit_main_lines (Driver.ir_nodes i) (Driver.ir_edges i) functions s5 Hn)
      as (s6 & failed & lines & -> & _).
    { eapply Forall_impl; [exact Hno|]. simpl. intros x Hx. exact Hx. }
    split; [done|]. intros Hex. apply Exists_exists in Hex as (x & Hx & Ht).
    rewrite Forall_forall in Hno. by destruct (Hno x Hx).
Qed.

Lemma emit_raises_on_Literal_witness :
  emit ir_sum [] ∅ = inl (NameError "name").
Proof.
  apply (emit_raises_on_Literal ir_sum [] ∅).
  - constructor.
  - apply Exists_exists. exists (mk_node "L3" "Literal" (VInt 3) []).
    split; [|reflexivity]. vm_compute. repeat constructor.
Defined.

(** X27. When every function has a name and the top-level graph has no
    [Literal], [emit] returns the lines joined by newlines, and the lines
    are: the [#include] lines of the headers known before anything is
    emitted (the imports, the headers of the node types of the functions
    and of the graph, and [<iostream>] unless one of them has [iostream]
    in it) and an empty line; the lines of the functions; [int main() {];
    the warning if the topological sort failed; one line per node, one
    node per id; [return 0;] one level in; and the closing brace. *)
Theorem emit_layout i functions defs :
  all_named functions →
  Forall (λ n, n_type n ≠ "Literal") (nodes_list (Driver.ir_nodes i)) →
  ∃ text self' function_lines failed lines,
    emit i functions defs = inr (text, self')
    ∧ text = join_with (String (ascii_of_nat 10) "") (code_lines self')
    ∧ code_lines self'
      = include_lines (known_includes i functions defs)
        ++ function_lines
        ++ ["int main() {"]
        ++ warning_lines failed
             "    // Warning: topological sort failed, using graph order"
        ++ lines
        ++ ["    return 0;"; "}"]
    ∧ length lines = length (nodes_list (Driver.ir_nodes i))
    ∧ (failed = false
       ↔ ∃ ordered,
           topological_sort (nodes_list (Driver.ir_nodes i)) (Driver.ir_edges i)
           = inr ordered).
Proof.
  intros Hn Hl. unfold emit.
  pose proof (emit_prelude i functions defs) as Hpre. cbv zeta in Hpre.
  set (s4 := emit_include _) in *. destruct Hpre as (Hc4 & Hm4 & Hi4).
  destruct (emit_functions_settled functions s4) as (s5 & -> & [fl Hc5] & Hi5 & _).
  unfold Py.bind.
  destruct (emit_main_lines (Driver.ir_nodes i) (Driver.ir_edges i) functions s5 Hn Hl)
    as (s6 & failed & lines & -> & Hc6 & Hlen & Hf).
  eexists _, _, fl, failed, lines. split_and!; [done|done| |done|done].
  unfold _finalize_mappings. cbn [code_lines set_mapping].
  rewrite Hc6, Hc5, Hc4. unfold main_warning, indent. simpl.
  rewrite Hi5, Hi4. simpl. by rewrite <- !app_assoc.
Qed.

Lemma emit_layout_witness :
  ∃ text self', emit ir_print [] ∅ = inr (text, self')
    ∧ length (code_lines self') = 7%nat.
Proof.
  destruct (emit_layout ir_print [] ∅)
    as (text & self' & fl & failed & lines & Hr & _ & Hc & Hlen & _).
  - constructor.
  - vm_compute. repeat constructor; discriminate.
  - exists text, self'. split; [done|].
    vm_compute in Hr. injection Hr as <- <-. reflexivity.
Defined.

(** X28. Whenever [emit] returns, the text is the lines joined by newlines,
    and every entry of the mapping has a start line and an end line from
    1 to the number of lines, a start column that is 1 or more, and an
    end column. *)
Theorem emit_mapping_in_range i functions defs text self' :
  emit i functions defs = inr (text, self') →
  text = join_with (String (ascii_of_nat 10) "") (code_lines self')
  ∧ Forall (λ e, in_range (length (code_lines self')) e
                 ∧ is_Some (m_start_col e) ∧ is_Some (m_end_col e))
      (mapping self').
Proof.
  unfold emit.
  pose proof (emit_prelude i functions defs) as Hpre. cbv zeta in Hpre.
  set (s4 := emit_include _) in *. destruct Hpre as (Hc4 & Hm4 & Hi4).
  assert (settled s4) as Hs4.
  { split; [|by rewrite Hm4].
    rewrite Hc4. unfold include_lines. rewrite length_app. simpl. lia. }
  destruct (emit_functions_settled functions s4) as (s5 & -> & _ & _ & Hs5).
  unfold Py.bind.
  destruct (emit_main _ _ _ s5) as [e|s6] eqn:Em; [done|].
  apply emit_main_settled in Em as [_ Hs6].
  intros [= <- <-]. split; [done|].
  unfold _finalize_mappings. cbn [code_lines mapping set_mapping].
  rewrite app_nil_r. apply Forall_map, Forall_forall. intros e He. simpl.
  apply finalize_entry_in_range.
  destruct Hs6 as [_ Hall]; [by apply settled_well_formed, Hs5|].
  by rewrite Forall_forall in Hall; apply Hall.
Qed.

Lemma emit_mapping_in_range_witness :
  ∃ text self', emit ir_print [] ∅ = inr (text, self')
    ∧ Forall (λ e, is_Some (m_start_col e)) (mapping self').
Proof.
  destruct (emit ir_print [] ∅) as [e|[text self']] eqn:Hr.
  { vm_compute in Hr. discriminate. }
  exists text, self'. split; [done|].
  destruct (emit_mapping_in_range _ _ _ _ _ Hr) as [_ Hall].
  eapply Forall_impl; [exact Hall|]. by intros e (_ & ? & _).
Defined.

(** C1, a defect of the code. On the graph of the duplicate operand, a
    [Literal] and an [Add] whose two inputs are that literal, [emit]
    produces no mapping at all: the pass for the literal reads the unbound
    [name] (line 493) and raises [NameError] before the [Add] is reached.
    This holds whatever the catalog is, for the IR as it is given and for
    the IR that the driver normalizes first. *)
Theorem duplicate_operand_emit_raises (node_defs : gmap string tdef) :
  Driver.ir_nodes ir_l1_twice
  = [ mk_node "l1" "Literal" (VInt 7) []; mk_node "add1" "Add" VNone ["l1"; "l1"] ]
  ∧ emit ir_l1_twice [] node_defs = inl (NameError "name")
  ∧ emit (Driver.normalize_ir ir_l1_twice) [] node_defs = inl (NameError "name").
Proof.
  split_and!; [reflexivity| |].
  - apply emit_Literal_raises; [constructor|].
    apply Exists_exists. exists (mk_node "l1" "Literal" (VInt 7) []).
    split; [|reflexivity]. vm_compute. repeat constructor.
  - apply emit_Literal_raises; [constructor|].
    apply Exists_exists.
    exists (set_inputs_outputs [] ["add1"] (mk_node "l1" "Literal" (VInt 7) [])).
    split; [|reflexivity]. vm_compute. repeat constructor.
Qed.

(** ** Normalization followed by the order *)

Lemma has_cycle_same (E E' : list (string * string)) :
  (∀ p, p ∈ E → p ∈ E') → has_cycle E → has_cycle E'.
Proof.
  intros Hsub [v Hv]. exists v.
  assert (∀ x y, tc (λ x y, (x, y) ∈ E) x y → tc (λ x y, (x, y) ∈ E') x y) as Htc.
  { intros x y Hxy. induction Hxy as [x y Hxy|x y z Hxy _ IH].
    - apply tc_once. by apply Hsub.
    - eapply tc_l; [|exact IH]. by apply Hsub. }
  by apply Htc.
Qed.

(** [topological_sort] on a graph given up to the order and the number of
    occurrences of its edges. *)
Lemma topological_sort_sorts_same nodes edges (E' : list (string * string)) :
  NoDup (map n_id nodes) →
  endpoints_exist nodes (graph_of nodes edges) →
  (∀ p, p ∈ E' ↔ p ∈ graph_of nodes edges) →
  sorts nodes edges E'.
Proof.
  intros Hnd Hex Hsame.
  set (V := map n_id nodes). set (E := graph_of nodes edges).
  destruct (build_adj_spec nodes edges Hex) as (adj & indeg & Hb & Hadj & Hdeg).
  fold V E in Hadj, Hdeg, Hex, Hsame.
  pose proof (kahn_inv_initial V E indeg Hnd Hdeg) as Hinv.
  destruct (kahn_terminates V E adj Hex Hadj (S (length nodes)) indeg _ _ Hinv)
    as (indeg' & order & Hk & Hfin).
  { unfold V. rewrite length_map. simpl. lia. }
  assert (length V = length nodes) as HlenV by apply length_map.
  unfold sorts, topological_sort. rewrite Hb. unfold Py.bind.
  fold V. rewrite (dict_keys_NoDup V Hnd), Hk.
  case_bool_decide as Hlen.
  - assert (has_cycle E') as Hcyc.
    { apply (has_cycle_same E); [intros p; apply Hsame|].
      eapply (kahn_incomplete V E); [done..|congruence]. }
    split; [by intros Hac|done].
  - assert (length order = length V) as Hlen' by congruence.
    destruct (kahn_complete V E Hex indeg' order Hfin Hlen') as [Hperm Hprec].
    assert (NoDup order) as Hndo by (by rewrite Hperm).
    destruct (ordered_nodes nodes order Hnd Hperm) as (ordered & Hm & Hids & Hp).
    rewrite Hm. split.
    + intros _. exists ordered. split; [done|]. split; [done|].
      intros u v Huv. rewrite Hids. by apply Hprec, Hsame.
    + intros Hcyc.
      destruct (acyclic_of_order E order Hndo Hprec).
      apply (has_cycle_same E'); [intros p; apply Hsame|done].
Qed.

Lemma elem_of_sources_of edges k u :
  u ∈ sources_of edges k ↔ ∃ e, e ∈ edges ∧ e_from e = u ∧ e_to e = k.
Proof.
  unfold sources_of. rewrite elem_of_dict_keys. split.
  - intros (e & -> & [? ?]%list_elem_of_filter)%list_elem_of_fmap. by exists e.
  - intros (e & He & <- & Hk). apply list_elem_of_fmap. exists e. split; [done|].
    by apply list_elem_of_filter.
Qed.

(** The graph that the inputs of the normalized nodes give: the valid
    edges. *)
Lemma normalize_ir_input_pairs i p :
  ir_edges i ≠ [] →
  p ∈ input_pairs (ir_nodes (normalize_ir i)) ↔ p ∈ edge_pairs (valid_edges i).
Proof.
  intros Hne. rewrite (normalize_ir_present i Hne). simpl.
  unfold input_pairs, edge_pairs. destruct p as [u v]. split.
  - intros Hin. apply list_elem_of_In, in_flat_map in Hin as (n' & Hn' & Hin).
    apply list_elem_of_In, list_elem_of_fmap in Hn' as (n & -> & Hn).
    apply list_elem_of_In, list_elem_of_fmap in Hin as (x & [= -> ->] & Hx).
    unfold rebuilt in Hx. simpl in Hx.
    rewrite (proj1 (maps_of_edges_tables i (n_id n))) in Hx.
    apply elem_of_sources_of in Hx as (e & He & <- & Hk).
    apply list_elem_of_fmap. exists e. split; [|done]. unfold rebuilt. simpl.
    by rewrite Hk.
  - intros (e & [= -> ->] & He)%list_elem_of_fmap.
    pose proof He as Hv. unfold valid_edges in Hv.
    apply list_elem_of_filter in Hv as [[_ Hto] _].
    unfold ids_of in Hto. apply list_elem_of_fmap in Hto as (n & Hid & Hn).
    apply list_elem_of_In, in_flat_map.
    exists (rebuilt (list_to_set (ids_of i)) (ir_edges i) n). split.
    + apply list_elem_of_In, list_elem_of_fmap. by exists n.
    + apply list_elem_of_In, list_elem_of_fmap. exists (e_from e).
      unfold rebuilt. simpl. split; [by rewrite Hid|].
      rewrite (proj1 (maps_of_edges_tables i (n_id n))).
      apply elem_of_sources_of. by exists e.
Qed.

Lemma normalize_ir_ids i :
  ir_edges i ≠ [] → map n_id (ir_nodes (normalize_ir i)) = ids_of i.
Proof.
  intros Hne. rewrite (normalize_ir_present i Hne). simpl.
  unfold ids_of. rewrite map_map. by apply map_ext.
Qed.

(** X29. For an IR with a non-empty edge list and pairwise distinct node ids,
    [topological_sort] without an edge list, on the nodes that
    [normalize_ir] returns, orders the graph of the valid edges: it
    returns a permutation of the nodes in which the source of every valid
    edge precedes its destination if the valid edges have no cycle, and
    raises the cycle error if they have one. *)
Theorem normalize_ir_then_sort (i : ir) :
  ir_edges i ≠ [] →
  NoDup (ids_of i) →
  sorts (ir_nodes (normalize_ir i)) [] (edge_pairs (valid_edges i)).
Proof.
  intros Hne Hnd.
  assert (graph_of (ir_nodes (normalize_ir i)) []
          = input_pairs (ir_nodes (normalize_ir i))) as Hg by done.
  apply topological_sort_sorts_same.
  - by rewrite normalize_ir_ids.
  - rewrite Hg. intros u v Huv.
    apply (normalize_ir_input_pairs i (u, v) Hne) in Huv.
    apply list_elem_of_fmap in Huv as (e & [= -> ->] & He).
    unfold valid_edges in He. apply list_elem_of_filter in He as [[? ?] _].
    by rewrite normalize_ir_ids.
  - intros p. rewrite Hg. symmetry. by apply normalize_ir_input_pairs.
Qed.

Lemma normalize_ir_then_sort_witness :
  sorts (ir_nodes (normalize_ir ir_dangling)) []
    (edge_pairs (valid_edges ir_dangling)).
Proof.
  apply (normalize_ir_then_sort ir_dangling).
  - discriminate.
  - vm_compute. repeat constructor; set_unfold; intuition discriminate.
Defined.

(** ** Calls *)

Lemma join_app l1 l2 : join (l1 ++ l2) = join l1 +:+ join l2.
Proof.
  induction l1 as [|x l IH]; [done|]. cbn [app]. rewrite !join_cons, IH.
  by rewrite str_app_assoc.
Qed.

Lemma join_with_cons sep x r :
  join_with sep (x :: r) = x +:+ join (map (λ y, sep +:+ y) r).
Proof.
  revert x. induction r as [|y r IH]; intros x.
  - unfold join. cbn [join_with map foldr]. by rewrite str_app_nil_r.
  - change (join_with sep (x :: y :: r)) with (x +:+ sep +:+ join_with sep (y :: r)).
    rewrite IH. cbn [map]. rewrite join_cons. by rewrite !str_app_assoc.
Qed.

Lemma call_arguments_later nid (args : list (option string * string)) k :
  join (map f_text
          (flat_map (λ '(i, (pname, expr)),
                       (if bool_decide (0 < i)%nat then [plain ", "] else [])
                       ++ [marked expr nid pname])
             (imap (λ i x, (S k + i, x)%nat) args)))
  = join (map (λ y, ", " +:+ y) (map snd args)).
Proof.
  revert k. induction args as [|[pname expr] r IH]; intros k; [done|].
  rewrite imap_cons. cbn [flat_map map]. rewrite bool_decide_true by lia.
  cbn [app map]. rewrite !join_cons. cbn [f_text plain marked snd].
  rewrite <- str_app_assoc. f_equal.
  rewrite <- (IH (S k)). do 3 f_equal. apply imap_ext. intros i x _. simpl.
  f_equal. lia.
Qed.

Lemma call_fragments_text head nid args :
  join (map f_text (call_fragments head nid args))
  = head +:+ join_with ", " (map snd args) +:+ ");".
Proof.
  unfold call_fragments. rewrite !map_app, !join_app. cbn [map]. rewrite !join_cons.
  cbn [f_text plain]. unfold join at 1 3. cbn [foldr]. rewrite !str_app_nil_r.
  do 2 f_equal.
  destruct args as [|[pname expr] r]; [done|].
  unfold enumerate. rewrite imap_cons. cbn [flat_map map]. 
  rewrite bool_decide_false by lia. cbn [app map snd]. rewrite join_cons, join_with_cons.
  cbn [f_text marked]. f_equal.
  rewrite <- (call_arguments_later nid r 0). do 3 f_equal.
Qed.

(** X30. A call of a function that has no [returnType] is written as
    [double var = name(args);] with one argument per parameter, while the
    signature that [emit_function_def] writes for the function begins
    with [void] and its body has no [return] line. *)
Theorem call_of_function_without_return_type functions by_name self n nm f :
  functions_by_name functions ∅ = inr by_name →
  n_name n = Some nm → by_name !! nm = Some f → fn_returnType f = None →
  ∃ self' args rest,
    emit_from_graph_Call functions self n = inr self'
    ∧ code_lines self'
      = code_lines self
        ++ [indent self +:+ "double " +:+ (make_var self (n_id n)).1 +:+ " = "
            +:+ nm +:+ "(" +:+ join_with ", " args +:+ ");"]
    ∧ length args = length (fn_params f)
    ∧ signature f = "void " +:+ rest
    ∧ returns_value f = false.
Proof.
  intros Hb Hnm Hf Hrt. unfold emit_from_graph_Call. rewrite Hb. unfold Py.bind.
  rewrite Hnm. cbn [mbind option_bind]. rewrite Hf.
  ensure_fields self (n_type n).
  set (self1 := ensure_lib_includes self (n_type n)) in *.
  assert (make_var self1 (n_id n)
          = ((make_var self (n_id n)).1,
             set_used_names (alloc ("v_" +:+ sanitize (n_id n)) (_used_names self)).2
               self1)) as Hmv.
  { unfold make_var. rewrite Hu. by destruct (alloc _ _). }
  rewrite Hmv. line_pair.
  eexists _, (map snd (port_args self1 (var_names self1) n
                         (map (λ p, Some (prm_name p)) (fn_params f)) ∅ ∅)), _.
  split_and!; [done| | | |].
  - unfold close_pass, record_map, emit_line_with_fragments.
    cbn [code_lines set_mapping set_code_lines set_var_names set_used_names snd].
    rewrite Hc, call_fragments_text. unfold indent.
    cbn [indent_level set_var_names set_used_names]. rewrite Hil, Hrt.
    cbn [default str_opt]. change (cpp_type "number") with "double".
    unfold id. by rewrite !str_app_assoc.
  - unfold port_args, enumerate. by rewrite !length_map, length_imap, length_map.
  - unfold signature. rewrite Hrt. simpl. reflexivity.
  - unfold returns_value. by rewrite Hrt.
Qed.

Lemma call_of_function_without_return_type_witness :
  ∃ self' rest,
    emit_from_graph_Call [f_untyped] (__init__ [] [] ∅) call_f = inr self'
    ∧ code_lines self' = ["double v_c = f();"]
    ∧ signature f_untyped = "void " +:+ rest.
Proof.
  destruct (call_of_function_without_return_type [f_untyped]
              (<["f" := f_untyped]> ∅) (__init__ [] [] ∅) call_f "f" f_untyped)
    as (self' & args & rest & Hr & Hc & Hlen & Hs & _); [reflexivity..|].
  exists self', rest. split; [done|]. split; [|done].
  vm_compute in Hr. injection Hr as <-. reflexivity.
Defined.

(** ** Instances of the conditional properties *)

Lemma is_compatible_preorder_witness :
  _is_compatible (Some "Double") (Some "NUMBER") = true.
Proof.
  apply (proj2 (proj2 is_compatible_preorder) (Some "Double") (Some "number")
           (Some "NUMBER")); vm_compute; [discriminate|reflexivity..].
Defined.

Lemma build_adj_tables_witness :
  ∃ adj indeg,
    build_adj nodes_sum edges_sum = inr (adj, indeg)
    ∧ adj !! "A" = Some ["P"] ∧ indeg !! "A" = Some 2.
Proof.
  destruct (build_adj_tables nodes_sum edges_sum) as (adj & indeg & Hb & Hin & _).
  - intros u v Huv. vm_compute in Huv. vm_compute.
    set_unfold. intuition (simplify_eq; auto 10).
  - exists adj, indeg. split; [done|].
    destruct (Hin "A") as [-> ->]; [|done]. vm_compute. set_unfold. auto.
Defined.

Lemma topological_sort_outcome_witness :
  topological_sort [mk_node "a" "Print" VNone []; mk_node "a" "Print" VNone []] []
  = raise Cycle.
Proof.
  apply (proj2 (topological_sort_outcome _ _)).
  - intros u v Huv. vm_compute in Huv. by apply elem_of_nil in Huv.
  - simpl. intros [Hin _]%NoDup_cons. apply Hin. left.
Defined.

Lemma normalize_ir_rebuilds_neighbours_witness :
  sources_of (valid_edges ir_l1_edge) "add1" = ["l1"]
  ∧ targets_of (valid_edges ir_l1_edge) "add1" = [].
Proof.
  destruct (normalize_ir_rebuilds_neighbours ir_l1_edge
              (set_inputs_outputs ["l1"] [] (mk_node "add1" "Add" VNone [])))
    as [Hi Ho].
  - discriminate.
  - vm_compute. right. left.
  - simpl in Hi, Ho. by rewrite <- Hi, <- Ho.
Defined.

Lemma normalize_ir_synthesizes_edges_witness :
  NoDup (map edge_key (ir_edges (normalize_ir ir_l1_twice))).
Proof.
  apply (normalize_ir_synthesizes_edges ir_l1_twice). reflexivity.
Defined.

Lemma make_vars_distinct_witness : NoDup (make_vars ["a"; "b"; "a"]).
Proof.
  apply (proj1 (make_vars_distinct ["a"; "b"; "a"])).
  intros b b' n Hb Hb' Hn. vm_compute in Hb, Hb'.
  destruct (str_nat n) eqn:Hs; set_unfold;
    destruct Hb as [->|[->|[->|[]]]]; destruct Hb' as [->|[->|[->|[]]]];
    simpl; discriminate.
Defined.

Lemma sanitize_identifier_witness : identifier (sanitize "3 x").
Proof.
  apply (sanitize_identifier "3 x"). discriminate.
Defined.

Lemma escape_string_decodable_witness :
  Forall (λ c, c ≠ newline ∧ c ≠ tab) (chars (escape_string (String newline "a"))).
Proof.
  apply Forall_forall. intros c Hc.
  apply (proj2 (escape_string_decodable (String newline "a")) c Hc).
Defined.

Lemma resolve_input_after_init_witness :
  _resolve_input_for_node (__init__ [] [named "x" "add1" "a"] ∅) add_nothing
    (Some "a") (Some 0%nat) ∅ ∅
  = match last (named_sources [named "x" "add1" "a"] "add0" "a") with
    | Some src => Some src
    | None => positional_sources [named "x" "add1" "a"] "add0" !! 0%nat
    end.
Proof.
  apply (proj1 (resolve_input_after_init [] [named "x" "add1" "a"] ∅ add_nothing)).
  discriminate.
Defined.

Lemma record_port_expr_span_witness :
  ∃ text e,
    resolve_port_mapping (code_lines in_main)
      {| pm_node_id := "n"; pm_port := "p"; pm_expr := "main"; pm_line := 3 |}
    = Some e
    ∧ line_at (code_lines in_main) 3 = Some text
    ∧ first_occurrence_span "n" "p" "main" 3 text e.
Proof.
  destruct (resolve_port_mapping (code_lines in_main)
              {| pm_node_id := "n"; pm_port := "p"; pm_expr := "main"; pm_line := 3 |})
    as [e|] eqn:Hr; [|vm_compute in Hr; discriminate].
  destruct (proj2 (proj2 (record_port_expr_span in_main [] "n" "p" "main" 3)) e Hr)
    as (text & Hl & Hs).
  by exists text, e.
Defined.
